(** * Chrome-Mnemonic: the AI operation scheduler

    A shallow embedding of the scheduling core of the extension:

    - [EnhancedErrorHandler]  (src/services/enhanced-error-handler.js)
    - [RateLimiter]           (src/unnamed/part_004)
    - [PerformanceMonitor]    (src/services/performance-monitor.js)
    - [AIRequestQueue]        (src/services/request-queue.js)
    - [AIService]             (src/services/ai-service.js, session manager
                               and [withAISession])

    Conventions.  Times are integer milliseconds ([Z]); every reading of
    [Date.now()] / [performance.now()] is an explicit argument.  A JS [Map]
    is a [gmap]; arrays are lists.  Promises are modelled by their outcome
    ([Resolved] / [Rejected]); the places where the source suspends
    ([await]) are the boundaries between the steps of the transition
    systems below. *)

From stdpp Require Import gmap strings list sorting.
From Stdlib Require Import Ascii String ZArith QArith Qround Lia DecimalString.

Open Scope Z_scope.

(* ===================================================================== *)
(** * JavaScript values that reach the error handler *)
(* ===================================================================== *)

(** [EnhancedErrorHandler.Types]. *)
Inductive ErrorType :=
  | RATE_LIMIT | NETWORK_ERROR | TIMEOUT | VALIDATION | AI_UNAVAILABLE | UNKNOWN.

#[global] Instance ErrorType_eq_dec : EqDecision ErrorType.
Proof. solve_decision. Defined.

(** [class EnhancedError extends Error]: [message], [type], [metadata];
    [isEnhanced] is the constant [true] and is what distinguishes the
    constructor [ErrEnhanced] below. *)
Record EnhancedError := mkEnhancedError {
  message : string;
  type : ErrorType;
  metadata : list (string * string)
}.

(** [new EnhancedError(message, type = 'UNKNOWN', metadata = {})]. *)
Definition newEnhancedError (msg : string) (ty : option ErrorType) : EnhancedError :=
  {| message := msg; type := default UNKNOWN ty; metadata := [] |}.

(** Error objects: [new Error(msg)], an [EnhancedError], or a
    [TypeError] raised by the engine.  All of them are objects, hence
    truthy. *)
Inductive ErrorObj :=
  | ErrPlain (msg : string)
  | ErrEnhanced (e : EnhancedError)
  | ErrTypeError (msg : string).

Definition errorMessage (e : ErrorObj) : string :=
  match e with
  | ErrPlain msg => msg
  | ErrEnhanced e => message e
  | ErrTypeError msg => msg
  end.

(** [error.name] *)
Definition errorName (e : ErrorObj) : string :=
  match e with
  | ErrPlain _ => "Error"
  | ErrEnhanced _ => "EnhancedError"
  | ErrTypeError _ => "TypeError"
  end.

(** [Number.isSafeInteger(n)] for an integer [n]. *)
Definition isSafeInteger (n : Z) : bool := Z.abs n <=? 9007199254740991.

(** The values of the model: what is thrown, what promises are rejected
    with, what is handed to [classify].  Numbers are the safe integers
    (they print in plain decimal notation); objects are the error objects
    above. *)
Inductive JsValue :=
  | JsUndefined
  | JsNull
  | JsBool (b : bool)
  | JsNumber (n : Z) (safe : isSafeInteger n = true)
  | JsString (s : string)
  | JsError (e : ErrorObj).

Definition truthy (v : JsValue) : bool :=
  match v with
  | JsUndefined | JsNull => false
  | JsBool b => b
  | JsNumber n _ => negb (n =? 0)
  | JsString s => negb (String.eqb s "")
  | JsError _ => true
  end.

(** A number that arithmetic can produce: an integer, or [NaN]. *)
Inductive JsNum :=
  | Num (n : Z)
  | NaN.

(** The names that every plain object inherits from [Object.prototype]:
    reading one of them from an object literal gives a function (or, for
    [__proto__], the prototype object), which is truthy, has none of the
    properties the services read, and converts to [NaN]. *)
Definition inheritedNames : list string :=
  [ "constructor"; "__defineGetter__"; "__defineSetter__"; "hasOwnProperty";
    "__lookupGetter__"; "__lookupSetter__"; "isPrototypeOf";
    "propertyIsEnumerable"; "toString"; "valueOf"; "__proto__";
    "toLocaleString" ]%string.

Definition isInheritedName (name : string) : bool :=
  existsb (String.eqb name) inheritedNames.

(** [String(v)].  An error object prints as [name + ": " + message], or
    just its name when the message is empty. *)
Definition js_String (v : JsValue) : string :=
  match v with
  | JsUndefined => "undefined"
  | JsNull => "null"
  | JsBool true => "true"
  | JsBool false => "false"
  | JsNumber n _ => NilEmpty.string_of_int (Z.to_int n)
  | JsString s => s
  | JsError e =>
      if String.eqb (errorMessage e) "" then errorName e
      else String.append (errorName e) (String.append ": " (errorMessage e))
  end.

(** [v.isEnhanced] (only read after the [!error] guard). *)
Definition isEnhanced (v : JsValue) : bool :=
  match v with
  | JsError (ErrEnhanced _) => true
  | _ => false
  end.

(** [v.message] for a value that is not [null] or [undefined]; [None] is
    [undefined] (primitives have no such property). *)
Definition messageOf (v : JsValue) : option string :=
  match v with
  | JsError e => Some (errorMessage e)
  | _ => None
  end.

(** [(error && error.message) ? error.message : String(error)]. *)
Definition rawMessage (v : JsValue) : string :=
  match v with
  | JsError e =>
      if String.eqb (errorMessage e) "" then js_String v else errorMessage e
  | _ => js_String v
  end.

(* ===================================================================== *)
(** * Regular expressions of the classifier *)
(* ===================================================================== *)

Module Regex.

(** The [i] flag (without [u]) folds ASCII letters only. *)
Definition lower (c : ascii) : ascii :=
  let n := nat_of_ascii c in
  if ((65 <=? n)%nat && (n <=? 90)%nat)%bool then ascii_of_nat (n + 32) else c.

Definition eq_ci (a b : ascii) : bool := Ascii.eqb (lower a) (lower b).

(** The literal [p] matches at the start of [s]. *)
Fixpoint prefix_ci (p s : string) : bool :=
  match p with
  | EmptyString => true
  | String a p' =>
      match s with
      | EmptyString => false
      | String b s' => eq_ci a b && prefix_ci p' s'
      end
  end.

(** The literal [p] matches somewhere in [s]. *)
Fixpoint contains_ci (p s : string) : bool :=
  prefix_ci p s ||
  match s with
  | EmptyString => false
  | String _ s' => contains_ci p s'
  end.

(** [/p1|p2|.../i.test(s)] for literal alternatives. *)
Definition test_alternatives (alts : list string) (s : string) : bool :=
  existsb (fun p => contains_ci p s) alts.

(** [.] does not match a line terminator: LF and CR among the 8-bit
    characters of [string]. *)
Definition is_line_terminator (c : ascii) : bool :=
  let n := nat_of_ascii c in ((n =? 10)%nat || (n =? 13)%nat)%bool.

(** [.*(a1|a2|...)] matched at the start of [s]. *)
Fixpoint dotstar_then (alts : list string) (s : string) : bool :=
  existsb (fun p => prefix_ci p s) alts ||
  match s with
  | EmptyString => false
  | String c s' => if is_line_terminator c then false else dotstar_then alts s'
  end.

Fixpoint drop_chars (n : nat) (s : string) : string :=
  match n, s with
  | O, _ => s
  | S n', String _ s' => drop_chars n' s'
  | S _, EmptyString => EmptyString
  end.

(** [/pre.*(a1|a2|...)/i.test(s)]. *)
Fixpoint test_prefix_dotstar (pre : string) (alts : list string) (s : string) : bool :=
  (prefix_ci pre s && dotstar_then alts (drop_chars (String.length pre) s)) ||
  match s with
  | EmptyString => false
  | String _ s' => test_prefix_dotstar pre alts s'
  end.

(** The case folding of the [i] flag applied to a whole string. *)
Fixpoint fold_case (s : string) : string :=
  match s with
  | EmptyString => EmptyString
  | String c s' => String (lower c) (fold_case s')
  end.

End Regex.

(* ===================================================================== *)
(** * EnhancedErrorHandler *)
(* ===================================================================== *)

Module EnhancedErrorHandler.

(** [/rate limit|too many requests|429/i] *)
Definition re_rate_limit : string -> bool :=
  Regex.test_alternatives ["rate limit"; "too many requests"; "429"]%string.

(** [/network|fetch failed|failed to fetch|net::ERR/i] *)
Definition re_network : string -> bool :=
  Regex.test_alternatives ["network"; "fetch failed"; "failed to fetch"; "net::ERR"]%string.

(** [/timeout|timed out|took too long/i] *)
Definition re_timeout : string -> bool :=
  Regex.test_alternatives ["timeout"; "timed out"; "took too long"]%string.

(** [/invalid|missing|required|malformed/i] *)
Definition re_validation : string -> bool :=
  Regex.test_alternatives ["invalid"; "missing"; "required"; "malformed"]%string.

(** [/ai.*(unavailable|disabled|not available)/i] *)
Definition re_ai_unavailable : string -> bool :=
  Regex.test_prefix_dotstar "ai" ["unavailable"; "disabled"; "not available"]%string.

Definition classify (error : JsValue) : EnhancedError :=
  if negb (truthy error) then newEnhancedError "Unknown error" (Some UNKNOWN)
  else
    match error with
    | JsError (ErrEnhanced e) => e
    | _ =>
        let message := rawMessage error in
        if re_rate_limit message then newEnhancedError message (Some RATE_LIMIT)
        else if re_network message then newEnhancedError message (Some NETWORK_ERROR)
        else if re_timeout message then newEnhancedError message (Some TIMEOUT)
        else if re_validation message then newEnhancedError message (Some VALIDATION)
        else if re_ai_unavailable message then newEnhancedError message (Some AI_UNAVAILABLE)
        else newEnhancedError message (Some UNKNOWN)
    end.

Definition shouldRetry (enhancedError : EnhancedError) : bool :=
  let ty := type enhancedError in
  bool_decide (ty = NETWORK_ERROR) || bool_decide (ty = TIMEOUT)
  || bool_decide (ty = RATE_LIMIT).

(** [Math.floor(Math.random() * 150)]; [product] is the double
    [Math.random() * 150], which lies in [0, 150): [Math.random()] is
    below 1, and the product of the largest double below 1 with 150 is
    rounded to the double just below 150. *)
Definition jitterOf (product : Q) : Z := Qfloor product.

(** [backoffDelayMs(enhancedError, attempt = 1, baseMs = 500)];
    [product] is [Math.random() * 150]. *)
Definition backoffDelayMs (enhancedError : EnhancedError)
    (attempt : nat) (baseMs : Z) (product : Q) : Z :=
  let jitter := jitterOf product in
  match type enhancedError with
  | RATE_LIMIT => Z.min 10000 (baseMs * 2 ^ Z.of_nat attempt) + jitter
  | NETWORK_ERROR | TIMEOUT => Z.min 5000 (baseMs * 2 ^ Z.of_nat attempt) + jitter
  | _ => 0
  end.

(** The classification rule as the specification words it: an ordered
    table of (pattern, kind) pairs, the first matching pattern decides,
    [UNKNOWN] when none matches. *)
Definition spec_rules : list ((string -> bool) * ErrorType) :=
  [ (re_rate_limit, RATE_LIMIT);
    (re_network, NETWORK_ERROR);
    (re_timeout, TIMEOUT);
    (re_validation, VALIDATION);
    (re_ai_unavailable, AI_UNAVAILABLE) ].

Fixpoint first_match (rules : list ((string -> bool) * ErrorType))
    (msg : string) : ErrorType :=
  match rules with
  | [] => UNKNOWN
  | (re, k) :: rules' => if re msg then k else first_match rules' msg
  end.


End EnhancedErrorHandler.

(* ===================================================================== *)
(** * RateLimiter *)
(* ===================================================================== *)

Module RateLimiter.

Record Policy := mkPolicy {
  maxConcurrent : Z;
  minInterval : Z;
  maxPerMinute : Z
}.

(** The own properties of [this.config]. *)
Definition config : gmap string Policy :=
  list_to_map
    [ ("LanguageModel"%string, mkPolicy 2 1000 30);
      ("Summarizer"%string, mkPolicy 2 1500 20);
      ("Writer"%string, mkPolicy 2 1000 25);
      ("Rewriter"%string, mkPolicy 1 2000 15);
      ("Proofreader"%string, mkPolicy 1 2000 10);
      ("Translator"%string, mkPolicy 2 1000 20) ].

(** [this.config[apiType]].  [config] is an object literal, so the
    lookup also finds what the object inherits: a name of
    [Object.prototype] gives a truthy value whose [maxConcurrent],
    [minInterval] and [maxPerMinute] are [undefined]. *)
Inductive ConfigEntry :=
  | Configured (cfg : Policy)
  | InheritedMember
  | NoEntry.                       (* undefined *)

Definition configEntry (apiType : string) : ConfigEntry :=
  match config !! apiType with
  | Some cfg => Configured cfg
  | None => if isInheritedName apiType then InheritedMember else NoEntry
  end.

(** An entry of a per-type queue.  The request function and the promise
    callbacks are identified by [requestId]. *)
Record QueuedRequest := mkQueuedRequest {
  requestId : nat;
  timestamp : Z
}.

Record State := mkState {
  queues : gmap string (list QueuedRequest);
  activeRequests : gmap string Z;
  lastRequestTime : gmap string Z;
  requestHistory : gmap string (list Z)
}.

Definition init : State :=
  {| queues := ∅; activeRequests := ∅; lastRequestTime := ∅; requestHistory := ∅ |}.

(** [this.activeRequests.get(apiType) || 0] *)
Definition activeCount (st : State) (apiType : string) : Z :=
  default 0 (activeRequests st !! apiType).

(** [this.lastRequestTime.get(apiType) || 0] *)
Definition lastRequest (st : State) (apiType : string) : Z :=
  default 0 (lastRequestTime st !! apiType).

(** [this.requestHistory.get(apiType) || []] *)
Definition historyOf (st : State) (apiType : string) : list Z :=
  default [] (requestHistory st !! apiType).

(** [requestHistory.filter(time => time > oneMinuteAgo)] *)
Definition recentRequests (history : list Z) (now : Z) : list Z :=
  let oneMinuteAgo := now - 60000 in
  filter (fun time => oneMinuteAgo < time) history.

Definition canMakeRequest (st : State) (apiType : string) (now : Z) : bool :=
  match configEntry apiType with
  | NoEntry => true
  | InheritedMember =>
      (* activeCount >= undefined, now - lastRequest < undefined and
         recentRequests.length >= undefined are all false *)
      true
  | Configured cfg =>
      if maxConcurrent cfg <=? activeCount st apiType then false
      else if now - lastRequest st apiType <? minInterval cfg then false
      else if maxPerMinute cfg <=? Z.of_nat (List.length (recentRequests (historyOf st apiType) now))
      then false
      else true
  end.

(** [recentRequests[0]] is only read when
    [recentRequests.length >= config.maxPerMinute]; every configured
    [maxPerMinute] is positive, so the array is non-empty there. *)
Definition getWaitTime (st : State) (apiType : string) (now : Z) : JsNum :=
  match configEntry apiType with
  | NoEntry => Num 0
  | InheritedMember =>
      (* intervalWait = Math.max(0, undefined - ...) is NaN, rateLimitWait
         is 0, and Math.max(NaN, 0) is NaN *)
      NaN
  | Configured cfg =>
      let intervalWait := Z.max 0 (minInterval cfg - (now - lastRequest st apiType)) in
      let recent := recentRequests (historyOf st apiType) now in
      let rateLimitWait :=
        if maxPerMinute cfg <=? Z.of_nat (List.length recent)
        then (hd 0 recent + 60000) - now
        else 0 in
      Num (Z.max intervalWait rateLimitWait)
  end.

(** [getQueue]: creates the queue on first use. *)
Definition getQueue (st : State) (apiType : string) : State * list QueuedRequest :=
  match queues st !! apiType with
  | Some q => (st, q)
  | None =>
      ({| queues := <[apiType := []]> (queues st);
          activeRequests := activeRequests st;
          lastRequestTime := lastRequestTime st;
          requestHistory := requestHistory st |}, [])
  end.

Definition setQueue (st : State) (apiType : string) (q : list QueuedRequest) : State :=
  {| queues := <[apiType := q]> (queues st);
     activeRequests := activeRequests st;
     lastRequestTime := lastRequestTime st;
     requestHistory := requestHistory st |}.

(** [executeRequest], up to its first [await]: the admission record. *)
Definition executeRequest_begin (st : State) (apiType : string) (now : Z) : State :=
  {| queues := queues st;
     activeRequests := <[apiType := activeCount st apiType + 1]> (activeRequests st);
     lastRequestTime := <[apiType := now]> (lastRequestTime st);
     requestHistory := <[apiType := historyOf st apiType ++ [now]]> (requestHistory st) |}.

(** [executeRequest], the [finally] block: the completion record. *)
Definition executeRequest_finally (st : State) (apiType : string) : State :=
  {| queues := queues st;
     activeRequests := <[apiType := Z.max 0 (activeCount st apiType - 1)]> (activeRequests st);
     lastRequestTime := lastRequestTime st;
     requestHistory := requestHistory st |}.

(** The [for] loop of [processQueue]: [q] is the live queue (its length
    is re-read at every test), [i] the loop counter.  Returns the state,
    the remaining queue and the requests whose execution was started. *)
Fixpoint processQueue_loop (apiType : string) (now : Z) (availableSlots : Z)
    (i : Z) (q : list QueuedRequest) (st : State)
    : State * list QueuedRequest * list QueuedRequest :=
  match q with
  | [] => (st, [], [])
  | request :: q' =>
      if i <? Z.min availableSlots (Z.of_nat (List.length q)) then
        let st' := executeRequest_begin st apiType now in
        let '(st'', rest, started) :=
          processQueue_loop apiType now availableSlots (i + 1) q' st' in
        (st'', rest, request :: started)
      else (st, q, [])
  end.

(** [processQueue(apiType)]: the new state and the requests started. *)
Definition processQueue (st : State) (apiType : string) (now : Z)
    : State * list QueuedRequest :=
  let '(st1, queue) := getQueue st apiType in
  match configEntry apiType with
  | NoEntry => (st1, [])
  | InheritedMember =>
      (* availableSlots is NaN: [i < Math.min(NaN, queue.length)] is
         false and the loop body never runs *)
      (st1, [])
  | Configured cfg =>
      match queue with
      | [] => (st1, [])
      | _ =>
          let availableSlots := maxConcurrent cfg - activeCount st1 apiType in
          let '(st2, rest, started) :=
            processQueue_loop apiType now availableSlots 0 queue st1 in
          (setQueue st2 apiType rest, started)
      end
  end.

(** [queueRequest(apiType, requestFunction)] *)
Definition queueRequest (st : State) (apiType : string) (requestId : nat) (now : Z)
    : State * list QueuedRequest :=
  let '(st1, queue) := getQueue st apiType in
  let st2 := setQueue st1 apiType (queue ++ [mkQueuedRequest requestId now]) in
  processQueue st2 apiType now.

(** [cleanupHistory()] *)
Definition cleanupHistory (st : State) (now : Z) : State :=
  let oneHourAgo := now - 3600000 in
  {| queues := queues st;
     activeRequests := activeRequests st;
     lastRequestTime := lastRequestTime st;
     requestHistory :=
       (fun history => filter (fun time => oneHourAgo < time) history)
         <$> requestHistory st |}.

(** [reset()] *)
Definition reset (st : State) : State :=
  {| queues := ∅; activeRequests := ∅; lastRequestTime := ∅; requestHistory := ∅ |}.

(** The limiter together with the executions that have been started by
    [executeRequest] and have not yet reached its [finally] block. *)
Record System := mkSystem {
  limiter : State;
  running : list (string * QueuedRequest)
}.

Definition initSystem : System := {| limiter := init; running := [] |}.

Definition inFlight (sys : System) (apiType : string) : Z :=
  Z.of_nat (List.length (filter (fun x => x.1 = apiType) (running sys))).

Definition started_as (apiType : string) (l : list QueuedRequest)
    : list (string * QueuedRequest) :=
  map (fun r => (apiType, r)) l.

(** The operations of the queued path: a caller queues a request, a
    running request settles, the timer set by [finally] runs
    [processQueue], the history is cleaned, [getStatus] creates a
    missing queue.  ([canMakeRequest] and [getWaitTime] only read.) *)
Inductive queueStep : System -> System -> Prop :=
  | step_queueRequest sys apiType requestId now :
      queueStep sys
        {| limiter := (queueRequest (limiter sys) apiType requestId now).1;
           running := running sys ++
             started_as apiType (queueRequest (limiter sys) apiType requestId now).2 |}
  | step_settle sys apiType request before after :
      running sys = before ++ (apiType, request) :: after ->
      queueStep sys
        {| limiter := executeRequest_finally (limiter sys) apiType;
           running := before ++ after |}
  | step_processQueue sys apiType now :
      queueStep sys
        {| limiter := (processQueue (limiter sys) apiType now).1;
           running := running sys ++
             started_as apiType (processQueue (limiter sys) apiType now).2 |}
  | step_cleanupHistory sys now :
      queueStep sys
        {| limiter := cleanupHistory (limiter sys) now;
           running := running sys |}
  | step_getStatus sys apiType :
      queueStep sys
        {| limiter := (getQueue (limiter sys) apiType).1;
           running := running sys |}.

(** Every operation of the limiter: those of the queued path, [reset()]
    (the executions that are running go on), and a call of
    [executeRequest] that does not come from [processQueue]. *)
Inductive step : System -> System -> Prop :=
  | step_queued sys sys' :
      queueStep sys sys' -> step sys sys'
  | step_reset sys :
      step sys {| limiter := reset (limiter sys); running := running sys |}
  | step_executeRequest sys apiType request now :
      step sys
        {| limiter := executeRequest_begin (limiter sys) apiType now;
           running := running sys ++ [(apiType, request)] |}.

(** The states reached through the queued path alone. *)
Inductive queueReachable : System -> Prop :=
  | queueReachable_init : queueReachable initSystem
  | queueReachable_step sys sys' :
      queueReachable sys -> queueStep sys sys' -> queueReachable sys'.

(** The states reached through any operations. *)
Inductive reachable : System -> Prop :=
  | reachable_init : reachable initSystem
  | reachable_step sys sys' : reachable sys -> step sys sys' -> reachable sys'.

(** The counter kept by the limiter is the number of executions in
    flight, and it respects the configured cap. *)
Definition invariant (sys : System) : Prop :=
  (forall apiType, inFlight sys apiType = activeCount (limiter sys) apiType)
  /\ (forall apiType cfg, config !! apiType = Some cfg ->
        activeCount (limiter sys) apiType <= maxConcurrent cfg).

(** The admission test as the specification words it, with the closed
    window [now-60000, now]. *)
Definition spec_CanAdmit (st : State) (cfg : Policy) (apiType : string) (now : Z) : Prop :=
  activeCount st apiType < maxConcurrent cfg
  /\ minInterval cfg <= now - lastRequest st apiType
  /\ Z.of_nat (List.length (filter (fun t => now - 60000 <= t <= now) (historyOf st apiType)))
     < maxPerMinute cfg.

End RateLimiter.

(* ===================================================================== *)
(** * Promises *)
(* ===================================================================== *)

(** How a promise settles.  A rejection reason is any value. *)
Inductive Outcome (A : Type) :=
  | Resolved (v : A)
  | Rejected (reason : JsValue).
Arguments Resolved {A} v.
Arguments Rejected {A} reason.

Definition isResolved {A} (o : Outcome A) : bool :=
  match o with
  | Resolved _ => true
  | Rejected _ => false
  end.

(** A pending piece of work as the event loop sees it: it settles after
    [elapsed] milliseconds, or never does. *)
Inductive WorkResult (A : Type) :=
  | Settles (elapsed : Z) (out : Outcome A)
  | Hangs.
Arguments Settles {A} elapsed out.
Arguments Hangs {A}.

(** [Promise.race([work, timeoutPromise])] where [timeoutPromise] rejects
    with [new Error('Request timeout')] after [timeout] ms. *)
Definition raceTimeout {A} (work : WorkResult A) (timeout : Z) : Outcome A :=
  match work with
  | Settles elapsed out =>
      if elapsed <? timeout then out
      else Rejected (JsError (ErrPlain "Request timeout"))
  | Hangs => Rejected (JsError (ErrPlain "Request timeout"))
  end.

(** [setTimeout(resolve, ms)]: a delay that is negative or [NaN] counts
    as 0. *)
Definition sleepMs (ms : JsNum) : Z :=
  match ms with
  | Num n => Z.max 0 n
  | NaN => 0
  end.

(** The [TypeError] that V8 raises when [.message] is read from [null] or
    [undefined]. *)
Definition readMessageError (v : JsValue) : ErrorObj :=
  match v with
  | JsNull => ErrTypeError "Cannot read properties of null (reading 'message')"
  | _ => ErrTypeError "Cannot read properties of undefined (reading 'message')"
  end.

(** What a wrapper that ends with [if (error) throw error; return result]
    makes of the reason [fn] was rejected with: [Some e] when it throws
    [e], [None] when it goes on to [return result] with [result] still
    undefined.  (Reading [err.message] on the way throws for [null] and
    [undefined].) *)
Definition surfaced (reason : JsValue) : option JsValue :=
  match reason with
  | JsNull | JsUndefined => Some (JsError (readMessageError reason))
  | _ => if truthy reason then Some reason else None
  end.

(** What [measureOperation] hands back: the result of the measured
    function, or the rejection that leaves the function ([surfaced]),
    or [undefined] when the reason of the rejection is falsy. *)
Definition handedBack {A} (settled : Outcome A) : Outcome (option A) :=
  match settled with
  | Resolved result => Resolved (Some result)
  | Rejected reason =>
      match surfaced reason with
      | Some thrown => Rejected thrown
      | None => Resolved None
      end
  end.

(** [`${n}`] for an integer. *)
Definition string_of_Z (n : Z) : string := NilEmpty.string_of_int (Z.to_int n).

(* ===================================================================== *)
(** * PerformanceMonitor *)
(* ===================================================================== *)

Module PerformanceMonitor.

(** The [metrics] argument of [recordOperation]; [options] is the
    caller's metadata spread into it (request id, priority, attempt: no
    caller passes a key that would replace one of the other fields). *)
Record Metrics := mkMetrics {
  duration : Z;
  memoryDelta : Z;
  success : bool;
  error : option string;
  timestamp : Z;
  options : list (string * string)
}.

(** An entry of [operationHistory]: [{ name, ...metrics, timestamp: Date.now() }]. *)
Record OperationRecord := mkOperationRecord {
  name : string;
  recorded : Metrics;
  recordedAt : Z
}.

(** An entry of [this.metrics].  [minDuration = None] is [Infinity]. *)
Record Aggregated := mkAggregated {
  count : Z;
  totalDuration : Z;
  averageDuration : Q;
  minDuration : option Z;
  maxDuration : Z;
  successCount : Z;
  failureCount : Z;
  totalMemoryDelta : Z;
  averageMemoryDelta : Q;
  lastExecuted : Z
}.

Record ActiveOperation := mkActiveOperation {
  activeName : string;
  activeStartTime : Z;
  activeStartMemory : Z
}.

Record State := mkState {
  metrics : gmap string Aggregated;
  operationHistory : list OperationRecord;
  maxHistorySize : nat;
  activeOperations : option (gmap string ActiveOperation)
}.

Definition init : State :=
  {| metrics := ∅; operationHistory := []; maxHistorySize := 1000;
     activeOperations := None |}.

Definition freshAggregated : Aggregated :=
  {| count := 0; totalDuration := 0; averageDuration := 0%Q;
     minDuration := None; maxDuration := 0;
     successCount := 0; failureCount := 0;
     totalMemoryDelta := 0; averageMemoryDelta := 0%Q; lastExecuted := 0 |}.

(** [array.slice(-n)]; [slice(-0)] is [slice(0)], the whole array. *)
Definition sliceLast {A} (n : nat) (l : list A) : list A :=
  match n with
  | O => l
  | _ => drop (List.length l - n) l
  end.

Definition updateAggregated (aggregated : Aggregated) (m : Metrics) : Aggregated :=
  let count' := count aggregated + 1 in
  let totalDuration' := totalDuration aggregated + duration m in
  let totalMemoryDelta' := totalMemoryDelta aggregated + memoryDelta m in
  {| count := count';
     totalDuration := totalDuration';
     averageDuration := (inject_Z totalDuration' / inject_Z count')%Q;
     minDuration :=
       Some (match minDuration aggregated with
             | None => duration m
             | Some d => Z.min d (duration m)
             end);
     maxDuration := Z.max (maxDuration aggregated) (duration m);
     successCount := if success m then successCount aggregated + 1
                     else successCount aggregated;
     failureCount := if success m then failureCount aggregated
                     else failureCount aggregated + 1;
     totalMemoryDelta := totalMemoryDelta';
     averageMemoryDelta := (inject_Z totalMemoryDelta' / inject_Z count')%Q;
     lastExecuted := timestamp m |}.

Definition updateAggregatedMetrics (st : State) (operationName : string) (m : Metrics)
    : State :=
  let aggregated := default freshAggregated (metrics st !! operationName) in
  {| metrics := <[operationName := updateAggregated aggregated m]> (metrics st);
     operationHistory := operationHistory st;
     maxHistorySize := maxHistorySize st;
     activeOperations := activeOperations st |}.

(** [recordOperation(operationName, metrics)]; [now] is its [Date.now()]. *)
Definition recordOperation (st : State) (operationName : string) (m : Metrics) (now : Z)
    : State :=
  let history := operationHistory st ++ [mkOperationRecord operationName m now] in
  let history' :=
    if (maxHistorySize st <? List.length history)%nat
    then sliceLast (maxHistorySize st) history else history in
  updateAggregatedMetrics
    {| metrics := metrics st; operationHistory := history';
       maxHistorySize := maxHistorySize st;
       activeOperations := activeOperations st |}
    operationName m.

(** [`${operationName}_${startTime}`] *)
Definition activeKey (operationName : string) (startTime : Z) : string :=
  String.append operationName (String.append "_" (string_of_Z startTime)).

Definition addActiveOperation (st : State) (operationName : string)
    (startTime startMemory : Z) : State :=
  {| metrics := metrics st; operationHistory := operationHistory st;
     maxHistorySize := maxHistorySize st;
     activeOperations :=
       Some (<[activeKey operationName startTime :=
                 mkActiveOperation operationName startTime startMemory]>
               (default ∅ (activeOperations st))) |}.

Definition removeActiveOperation (st : State) (operationName : string) (startTime : Z)
    : State :=
  {| metrics := metrics st; operationHistory := operationHistory st;
     maxHistorySize := maxHistorySize st;
     activeOperations := delete (activeKey operationName startTime) <$> activeOperations st |}.

(** The clock and memory readings taken by one [measureOperation]. *)
Record Clock := mkClock {
  perfStart : Z;      (* performance.now() on entry *)
  memStart : Z;       (* getMemoryUsage() on entry *)
  dateStart : Z;      (* Date.now() on entry *)
  memActive : Z;      (* getMemoryUsage() in addActiveOperation *)
  perfEnd : Z;        (* performance.now() when fn has settled *)
  memEnd : Z;         (* getMemoryUsage() when fn has settled *)
  dateRecord : Z      (* Date.now() in recordOperation *)
}.

Section Measure.
(** The monitor is one component of the world [W] that the measured
    function runs in. *)
Context {W A : Type} (getMonitor : W -> State) (setMonitor : State -> W -> W).

(** The result is [Some v] for a value that [fn] resolved with and
    [None] for [undefined], the initial value of [let result]. *)
Definition measureOperation (operationName : string)
    (fn : W -> W * Outcome A) (opts : list (string * string)) (clk : Clock)
    (w : W) : W * Outcome (option A) :=
  let start := perfStart clk in
  let startMemory := memStart clk in
  let startTime := dateStart clk in
  (* try *)
  let w1 := setMonitor (addActiveOperation (getMonitor w) operationName startTime
                          (memActive clk)) w in
  let '(w2, settled) := fn w1 in
  match settled with
  | Resolved result =>
      let w3 :=
        setMonitor
          (recordOperation (getMonitor w2) operationName
             {| duration := perfEnd clk - start;
                memoryDelta := memEnd clk - startMemory;
                success := true; error := None;
                timestamp := startTime; options := opts |}
             (dateRecord clk)) w2 in
      (* finally *)
      let w4 :=
        setMonitor (removeActiveOperation (getMonitor w3) operationName startTime) w3 in
      (w4, Resolved (Some result))
  | Rejected err =>
      (* catch (err) *)
      match err with
      | JsNull | JsUndefined =>
          (* [err.message] throws while the argument of recordOperation
             is built: nothing is recorded; finally; the TypeError
             leaves the function *)
          let w4 :=
            setMonitor (removeActiveOperation (getMonitor w2) operationName startTime)
              w2 in
          (w4, Rejected (JsError (readMessageError err)))
      | _ =>
          let w3 :=
            setMonitor
              (recordOperation (getMonitor w2) operationName
                 {| duration := perfEnd clk - start;
                    memoryDelta := memEnd clk - startMemory;
                    success := false; error := messageOf err;
                    timestamp := startTime; options := opts |}
                 (dateRecord clk)) w2 in
          (* finally *)
          let w4 :=
            setMonitor (removeActiveOperation (getMonitor w3) operationName startTime)
              w3 in
          (* if (error) throw error; return result *)
          (w4, if truthy err then Rejected err else Resolved None)
      end
  end.

End Measure.

(** [getRecentOperations(limit = 20)], for a limit that is a
    non-negative integer. *)
Definition getRecentOperations (st : State) (limit : nat) : list OperationRecord :=
  reverse (sliceLast limit (operationHistory st)).

(** [array.sort((a, b) => b.duration - a.duration)]: a stable sort,
    longest first. *)
Fixpoint insertByDuration (r : OperationRecord) (l : list OperationRecord)
    : list OperationRecord :=
  match l with
  | [] => [r]
  | x :: l' =>
      if duration (recorded x) <? duration (recorded r) then r :: x :: l'
      else x :: insertByDuration r l'
  end.

Definition sortByDuration (l : list OperationRecord) : list OperationRecord :=
  fold_left (fun sorted r => insertByDuration r sorted) l [].

(** [getSlowestOperations(limit = 10)]: [sort] works in place, so the
    call also leaves [operationHistory] sorted. *)
Definition getSlowestOperations (st : State) (limit : nat)
    : State * list OperationRecord :=
  let sorted := sortByDuration (operationHistory st) in
  ({| metrics := metrics st; operationHistory := sorted;
      maxHistorySize := maxHistorySize st;
      activeOperations := activeOperations st |},
   take limit sorted).

(** [getSlowestOperation()]: [reduce] without an initial value starts
    from the first entry. *)
Definition getSlowestOperation (st : State) : option OperationRecord :=
  match operationHistory st with
  | [] => None
  | first :: rest =>
      Some (fold_left
              (fun slowest current =>
                 if duration (recorded slowest) <? duration (recorded current)
                 then current else slowest)
              rest first)
  end.

(** [clearMetrics()] *)
Definition clearMetrics (st : State) : State :=
  {| metrics := ∅; operationHistory := [];
     maxHistorySize := maxHistorySize st;
     activeOperations := activeOperations st |}.

(** The operations that change a monitor. *)
Inductive step : State -> State -> Prop :=
  | step_recordOperation st operationName m now :
      step st (recordOperation st operationName m now)
  | step_addActiveOperation st operationName startTime startMemory :
      step st (addActiveOperation st operationName startTime startMemory)
  | step_removeActiveOperation st operationName startTime :
      step st (removeActiveOperation st operationName startTime)
  | step_getSlowestOperations st limit :
      step st (getSlowestOperations st limit).1
  | step_clearMetrics st :
      step st (clearMetrics st).

Inductive reachable : State -> Prop :=
  | reachable_init : reachable init
  | reachable_step st st' : reachable st -> step st st' -> reachable st'.

(** The aggregated figures of one operation name fit together. *)
Definition consistent (a : Aggregated) : Prop :=
  1 <= count a
  /\ 0 <= successCount a /\ 0 <= failureCount a
  /\ count a = successCount a + failureCount a
  /\ exists shortest,
       minDuration a = Some shortest
       /\ shortest <= maxDuration a
       /\ count a * shortest <= totalDuration a <= count a * maxDuration a.

(** The history records of one operation name. *)
Definition recordsOf (operationName : string) (l : list OperationRecord)
    : list OperationRecord :=
  filter (fun op => name op = operationName) l.

Definition longestFirst (l : list OperationRecord) : Prop :=
  StronglySorted (fun a b => duration (recorded b) <= duration (recorded a)) l.

End PerformanceMonitor.

(* ===================================================================== *)
(** * The world shared by the services *)
(* ===================================================================== *)

(** What [session.destroy] is for a session object handed out by a
    provider API. *)
Inductive DestroyBehaviour :=
  | NoDestroyMethod      (* typeof session.destroy !== 'function' *)
  | DestroySucceeds
  | DestroyThrows.

(** A session object; [sessionId] is its identity (the [Set] of active
    sessions compares objects by identity). *)
Record Session := mkSession {
  sessionId : nat;
  destroyBehaviour : DestroyBehaviour
}.

(** The calls on sessions, in the order they happen. *)
Inductive Event :=
  | EvSessionCreated (apiType : string) (sessionId : nat)  (* ctor.create(..) resolved *)
  | EvDestroySession (sessionId : nat)    (* aiSessionManager.destroySession(session) *)
  | EvSessionDestroy (sessionId : nat).   (* session.destroy() *)

#[global] Instance Event_eq_dec : EqDecision Event.
Proof. solve_decision. Defined.

(** [AIService]'s collaborators: the singleton monitor, its rate limiter,
    the session manager's [activeSessions]. *)
Record World := mkWorld {
  monitor : PerformanceMonitor.State;
  rateLimiter : RateLimiter.State;
  activeSessions : gset nat;
  trace : list Event
}.

Definition initWorld : World :=
  {| monitor := PerformanceMonitor.init; rateLimiter := RateLimiter.init;
     activeSessions := ∅; trace := [] |}.

Definition setMonitor (m : PerformanceMonitor.State) (w : World) : World :=
  {| monitor := m; rateLimiter := rateLimiter w;
     activeSessions := activeSessions w; trace := trace w |}.

(** [PerformanceMonitor.getInstance().measureOperation]: the monitor
    shared by the queue and the service. *)
Definition measureShared {A} :=
  @PerformanceMonitor.measureOperation World A monitor setMonitor.

(* ===================================================================== *)
(** * AIRequestQueue *)
(* ===================================================================== *)

Module AIRequestQueue.

(** What a request function resolves with: any value. *)
Definition Result := JsValue.

Inductive Status := StQueued | StProcessing | StCompleted | StFailed.

(** A request object.  [requestFn n w] is the [n]-th call of the
    caller's function, made in world [w]. *)
Record Request := mkRequest {
  id : string;
  requestFn : Z -> World -> World * WorkResult Result;
  priority : JsNum;             (* what [request.priority] is as a number *)
  priorityName : string;
  retries : Z;
  maxRetries : Z;
  timeout : Z;
  apiType : string;
  description : string;
  createdAt : Z;
  attempts : Z;
  status : Status;
  startedAt : option Z;
  completedAt : option Z;
  duration : option Z;
  lastError : option string
}.

(** The [options] argument of [add]; [None] is an absent property. *)
Record Options := mkOptions {
  optPriority : option string;
  optRetries : option Z;
  optTimeout : option Z;
  optApiType : option string;
  optDescription : option string
}.

Record HistoryRecord := mkHistoryRecord {
  hId : string;
  hDescription : string;
  hApiType : string;
  hPriority : string;
  hStatus : Status;
  hTimestamp : Z;
  hAttempt : Z;
  hDuration : Z;
  hError : option string
}.

(** Where the drain loop of [process()] is suspended. *)
Inductive LoopState :=
  | Idle                                  (* no loop is running *)
  | AwaitingExecute (request : Request)   (* await this.executeRequest(request) *)
  | Sleeping.                             (* await this.sleep(this.delay) *)

(** What the queue reports to the outside, in order: an execution
    starts, a promise is resolved or rejected, a retry is scheduled. *)
Inductive QueueEvent :=
  | EvExecute (requestId : string) (attempt : Z)
  | EvResolve (requestId : string) (result : Result)
  | EvReject (requestId : string) (error : JsValue)
  | EvRetry (requestId : string) (delayMs : Z).

Record State := mkState {
  queue : list Request;
  processing : bool;
  delay : Z;
  defaultMaxRetries : Z;        (* this.maxRetries *)
  retryDelay : Z;
  activeRequests : gmap string Request;
  requestHistory : list HistoryRecord;
  maxHistorySize : nat;
  loop : LoopState;
  timers : list (Z * Request);  (* pending retry timers: delay, request *)
  log : list QueueEvent
}.

Definition init : State :=
  {| queue := []; processing := false; delay := 1000; defaultMaxRetries := 3;
     retryDelay := 2000; activeRequests := ∅; requestHistory := [];
     maxHistorySize := 500; loop := Idle; timers := []; log := [] |}.

(** [this.priorityLevels[priority] || this.priorityLevels.normal].
    [priorityLevels] is an object literal: for a name that it inherits
    from [Object.prototype] the lookup gives a truthy member, which is
    kept as the priority and is [NaN] as a number. *)
Definition priorityLevel (name : string) : JsNum :=
  if String.eqb name "critical" then Num 1
  else if String.eqb name "high" then Num 2
  else if String.eqb name "normal" then Num 3
  else if String.eqb name "low" then Num 4
  else if isInheritedName name then NaN
  else Num 3.

(** [(a, b) => a.priority - b.priority] *)
Definition comparePriority (a b : Request) : JsNum :=
  match priority a, priority b with
  | Num x, Num y => Num (x - y)
  | _, _ => NaN
  end.

Definition isNegative (n : JsNum) : bool :=
  match n with
  | Num z => z <? 0
  | NaN => false
  end.

(** [a.priority - b.priority < 0]: the comparator puts [a] before [b]. *)
Definition outranks (a b : Request) : bool := isNegative (comparePriority a b).

Definition hasRank (r : Request) : bool :=
  match priority r with
  | Num _ => true
  | NaN => false
  end.

(** A stable sort with the comparator [comparePriority]. *)
Fixpoint insertByPriority (r : Request) (l : list Request) : list Request :=
  match l with
  | [] => [r]
  | x :: l' =>
      if outranks r x then r :: x :: l'
      else x :: insertByPriority r l'
  end.

Definition stableSort (l : list Request) : list Request :=
  fold_left (fun sorted r => insertByPriority r sorted) l [].

(** What the JavaScript engine makes of a sort whose comparator is not
    consistent: ECMAScript leaves the order to the implementation, and
    only promises a rearrangement of the array. *)
Record Engine := mkEngine {
  sortInconsistent : list Request -> list Request;
  sortInconsistent_perm : forall l, sortInconsistent l ≡ₚ l
}.

(** [queue.sort((a, b) => a.priority - b.priority)].  When every
    priority is a number the comparator is consistent and the sort is
    the stable sort.  When some priority is [NaN] the comparator gives
    [NaN] for that request against every other, and the order is the
    engine's. *)
Definition sortByPriority (engine : Engine) (l : list Request) : list Request :=
  if forallb hasRank l then stableSort l else sortInconsistent engine l.

Definition setStatus (request : Request) (s : Status) : Request :=
  {| id := id request; requestFn := requestFn request; priority := priority request;
     priorityName := priorityName request; retries := retries request;
     maxRetries := maxRetries request; timeout := timeout request;
     apiType := apiType request; description := description request;
     createdAt := createdAt request; attempts := attempts request; status := s;
     startedAt := startedAt request; completedAt := completedAt request;
     duration := duration request; lastError := lastError request |}.

(** [recordRequest(request, status)] *)
Definition recordRequest (st : State) (request : Request) (s : Status) (now : Z) : State :=
  let record :=
    {| hId := id request; hDescription := description request;
       hApiType := apiType request; hPriority := priorityName request;
       hStatus := s; hTimestamp := now; hAttempt := attempts request;
       hDuration := default 0 (duration request);
       (* request.lastError || null *)
       hError := match lastError request with
                 | Some msg => if String.eqb msg "" then None else Some msg
                 | None => None
                 end |} in
  let history := requestHistory st ++ [record] in
  {| queue := queue st; processing := processing st; delay := delay st;
     defaultMaxRetries := defaultMaxRetries st; retryDelay := retryDelay st;
     activeRequests := activeRequests st;
     requestHistory :=
       if (maxHistorySize st <? List.length history)%nat
       then PerformanceMonitor.sliceLast (maxHistorySize st) history else history;
     maxHistorySize := maxHistorySize st; loop := loop st; timers := timers st;
     log := log st |}.

(** [executeRequest], up to its first [await]. *)
Definition executeRequest_begin (st : State) (request : Request) (startTime : Z) : State :=
  let request' :=
    {| id := id request; requestFn := requestFn request; priority := priority request;
       priorityName := priorityName request; retries := retries request;
       maxRetries := maxRetries request; timeout := timeout request;
       apiType := apiType request; description := description request;
       createdAt := createdAt request; attempts := attempts request + 1;
       status := StProcessing; startedAt := Some startTime;
       completedAt := completedAt request; duration := duration request;
       lastError := lastError request |} in
  let st1 :=
    {| queue := queue st; processing := processing st; delay := delay st;
       defaultMaxRetries := defaultMaxRetries st; retryDelay := retryDelay st;
       activeRequests := <[id request' := request']> (activeRequests st);
       requestHistory := requestHistory st; maxHistorySize := maxHistorySize st;
       loop := AwaitingExecute request'; timers := timers st;
       log := log st ++ [EvExecute (id request') (attempts request')] |} in
  recordRequest st1 request' StProcessing startTime.

(** The head of the loop body: [const request = this.queue.shift()]
    followed by the start of [executeRequest]. *)
Definition takeNext (st : State) (now : Z) : State :=
  match queue st with
  | [] =>
      {| queue := []; processing := false; delay := delay st;
         defaultMaxRetries := defaultMaxRetries st; retryDelay := retryDelay st;
         activeRequests := activeRequests st; requestHistory := requestHistory st;
         maxHistorySize := maxHistorySize st; loop := Idle; timers := timers st;
         log := log st |}
  | request :: rest =>
      executeRequest_begin
        {| queue := rest; processing := true; delay := delay st;
           defaultMaxRetries := defaultMaxRetries st; retryDelay := retryDelay st;
           activeRequests := activeRequests st; requestHistory := requestHistory st;
           maxHistorySize := maxHistorySize st; loop := loop st; timers := timers st;
           log := log st |}
        request now
  end.

(** [process()] *)
Definition process (st : State) (now : Z) : State :=
  if processing st || bool_decide (queue st = []) then st
  else takeNext st now.

(** The fields that the steps below change. *)
Definition update (st : State) (queue' : list Request) (processing' : bool)
    (activeRequests' : gmap string Request) (loop' : LoopState)
    (timers' : list (Z * Request)) (log' : list QueueEvent) : State :=
  {| queue := queue'; processing := processing'; delay := delay st;
     defaultMaxRetries := defaultMaxRetries st; retryDelay := retryDelay st;
     activeRequests := activeRequests'; requestHistory := requestHistory st;
     maxHistorySize := maxHistorySize st; loop := loop'; timers := timers';
     log := log' |}.

(** The request object built by [add]; [newId] is
    [generateRequestId()], [now] is [Date.now()]. *)
Definition newRequest (st : State) (fn : Z -> World -> World * WorkResult Result)
    (options : Options) (newId : string) (now : Z) : Request :=
  let priority := default "normal"%string (optPriority options) in
  let retries := default (defaultMaxRetries st) (optRetries options) in
  {| id := newId; requestFn := fn; priority := priorityLevel priority;
     priorityName := priority; retries := retries; maxRetries := retries;
     timeout := default 10000 (optTimeout options);
     apiType := default "unknown"%string (optApiType options);
     description := default "Unknown operation"%string (optDescription options);
     createdAt := now; attempts := 0; status := StQueued;
     startedAt := None; completedAt := None; duration := None; lastError := None |}.

(** [add(requestFn, options)] *)
Definition add (engine : Engine) (st : State)
    (fn : Z -> World -> World * WorkResult Result)
    (options : Options) (newId : string) (now : Z) : State :=
  let request := newRequest st fn options newId now in
  let st1 := update st (sortByPriority engine (queue st ++ [request])) (processing st)
               (activeRequests st) (loop st) (timers st) (log st) in
  let st2 := recordRequest st1 request StQueued now in
  if negb (processing st2) then process st2 now else st2.

(** [`${request.apiType}_${request.description}`] *)
Definition operationName (request : Request) : string :=
  String.append (apiType request) (String.append "_" (description request)).

(** The rest of [executeRequest], run when the measured race settles:
    [clk] holds the monitor's readings, [now] is [Date.now()]. *)
Definition executeRequest_settle (w : World) (st : State) (request : Request)
    (clk : PerformanceMonitor.Clock) (now : Z) : World * State :=
  let '(w', settled) :=
    measureShared (operationName request)
      (fun w0 =>
         let '(w1, work) := requestFn request (attempts request) w0 in
         (w1, raceTimeout work (timeout request)))
      [("requestId", id request); ("priority", priorityName request);
       ("attempt", string_of_Z (attempts request))]%string
      clk w in
  let finished (s : Status) (err : option string) : Request :=
    {| id := id request; requestFn := requestFn request; priority := priority request;
       priorityName := priorityName request; retries := retries request;
       maxRetries := maxRetries request; timeout := timeout request;
       apiType := apiType request; description := description request;
       createdAt := createdAt request; attempts := attempts request;
       status := s; startedAt := startedAt request; completedAt := Some now;
       duration := Some (now - default 0 (startedAt request));
       lastError := err |} in
  match settled with
  | Resolved result =>
      let request' := finished StCompleted (lastError request) in
      let st1 := recordRequest st request' StCompleted now in
      (w', update st1 (queue st1) (processing st1)
             (delete (id request') (activeRequests st1)) (loop st1) (timers st1)
             (log st1 ++ [EvResolve (id request') (default JsUndefined result)]))
  | Rejected error =>
      (* [measureOperation] throws nothing but truthy values, so
         [error.message] can be read *)
      let request' := finished StFailed (messageOf error) in
      let st1 :=
        recordRequest
          (update st (queue st) (processing st)
             (<[id request' := request']> (activeRequests st)) (loop st) (timers st)
             (log st))
          request' StFailed now in
      if attempts request' <? maxRetries request' then
        (* setTimeout(() => { queue.unshift(request); process() }, retryDelay * attempts) *)
        let delayMs := retryDelay st1 * attempts request' in
        (w', update st1 (queue st1) (processing st1) (activeRequests st1) (loop st1)
               (timers st1 ++ [(delayMs, request')])
               (log st1 ++ [EvRetry (id request') delayMs]))
      else
        (w', update st1 (queue st1) (processing st1)
               (delete (id request') (activeRequests st1)) (loop st1) (timers st1)
               (log st1 ++ [EvReject (id request') error]))
  end.

(** What the awaited race of an execution settles with: the request
    function runs in the world that [measureOperation] has entered. *)
Definition raceOutcome (w : World) (request : Request) (clk : PerformanceMonitor.Clock)
    : Outcome Result :=
  raceTimeout
    (requestFn request (attempts request)
       (setMonitor
          (PerformanceMonitor.addActiveOperation (monitor w) (operationName request)
             (PerformanceMonitor.dateStart clk) (PerformanceMonitor.memActive clk))
          w)).2
    (timeout request).

(** Back in [process()] after [await this.executeRequest(request)]:
    sleep when more requests wait, otherwise leave the loop. *)
Definition afterExecute (st : State) : State :=
  match queue st with
  | [] => update st [] false (activeRequests st) Idle (timers st) (log st)
  | _ => update st (queue st) (processing st) (activeRequests st) Sleeping (timers st) (log st)
  end.

(** The awaited execution settles. *)
Definition workDone (w : World) (st : State) (clk : PerformanceMonitor.Clock) (now : Z)
    : World * State :=
  match loop st with
  | AwaitingExecute request =>
      let '(w', st') := executeRequest_settle w st request clk now in
      (w', afterExecute st')
  | _ => (w, st)
  end.

(** [await this.sleep(this.delay)] is over: the [while] test, then the
    next iteration. *)
Definition sleepDone (st : State) (now : Z) : State :=
  match loop st with
  | Sleeping => takeNext st now
  | _ => st
  end.

(** The [k]-th pending retry timer fires:
    [this.queue.unshift(request); this.process()]. *)
Definition timerFire (st : State) (k : nat) (now : Z) : State :=
  match timers st !! k with
  | Some (_, request) =>
      process
        (update st (request :: queue st) (processing st) (activeRequests st) (loop st)
           (delete k (timers st)) (log st))
        now
  | None => st
  end.

(** The transitions of the queue between two suspension points. *)
Inductive step : World * State -> World * State -> Prop :=
  | step_add w st engine fn options newId now :
      step (w, st) (w, add engine st fn options newId now)
  | step_workDone w st request clk now :
      loop st = AwaitingExecute request ->
      step (w, st) (workDone w st clk now)
  | step_sleepDone w st now :
      loop st = Sleeping ->
      step (w, st) (w, sleepDone st now)
  | step_timerFire w st k entry now :
      timers st !! k = Some entry ->
      step (w, st) (w, timerFire st k now).

Inductive reachable : World * State -> Prop :=
  | reachable_init w : reachable (w, init)
  | reachable_step s s' : reachable s -> step s s' -> reachable s'.

(** The states reached when no retry timer has fired yet and every
    request was added with a priority that is a number. *)
Inductive reachableBeforeRetry : World * State -> Prop :=
  | beforeRetry_init w : reachableBeforeRetry (w, init)
  | beforeRetry_add w st engine fn options newId now :
      reachableBeforeRetry (w, st) ->
      hasRank (newRequest st fn options newId now) = true ->
      reachableBeforeRetry (w, add engine st fn options newId now)
  | beforeRetry_workDone w st request clk now :
      reachableBeforeRetry (w, st) ->
      loop st = AwaitingExecute request ->
      reachableBeforeRetry (workDone w st clk now)
  | beforeRetry_sleepDone w st now :
      reachableBeforeRetry (w, st) ->
      loop st = Sleeping ->
      reachableBeforeRetry (w, sleepDone st now).

(** The request whose execution the loop awaits. *)
Definition awaited (st : State) : option Request :=
  match loop st with
  | AwaitingExecute request => Some request
  | _ => None
  end.

(** The queue is in priority order: every priority is a number, and
    they do not decrease. *)
Definition ranksInOrder (a b : Request) : Prop :=
  match priority a, priority b with
  | Num x, Num y => x <= y
  | _, _ => False
  end.

Definition inPriorityOrder (l : list Request) : Prop :=
  Forall (fun r => hasRank r = true) l /\ StronglySorted ranksInOrder l.

(** The clock readings of one transition. *)
Record Tick := mkTick {
  tickNow : Z;
  tickClock : PerformanceMonitor.Clock
}.

(** One turn of the event loop when no caller interferes: the awaited
    work settles, or the sleep ends, or the oldest retry timer fires.
    [None] when nothing is pending. *)
Definition advance (s : World * State) (t : Tick) : option (World * State) :=
  let '(w, st) := s in
  match loop st with
  | AwaitingExecute _ => Some (workDone w st (tickClock t) (tickNow t))
  | Sleeping => Some (w, sleepDone st (tickNow t))
  | Idle =>
      match timers st with
      | [] => None
      | _ :: _ => Some (w, timerFire st 0 (tickNow t))
      end
  end.

(** At most [n] turns of the event loop; [ticks k] are the readings of
    the [k]-th turn. *)
Fixpoint run (n : nat) (ticks : nat -> Tick) (k : nat) (s : World * State)
    : World * State :=
  match n with
  | O => s
  | S n' =>
      match advance s (ticks k) with
      | Some s' => run n' ticks (S k) s'
      | None => s
      end
  end.

(** Every request in the system is within its attempt budget: a queued
    request is new or has attempts left, a request waiting for its retry
    timer has failed at least once and has attempts left, and the
    request being executed is at its first attempt or within
    [maxRetries]. *)
Definition withinBudget (st : State) : Prop :=
  Forall (fun r => 0 <= attempts r /\ (attempts r = 0 \/ attempts r < maxRetries r))
    (queue st)
  /\ Forall (fun entry => 1 <= attempts entry.2 < maxRetries entry.2) (timers st)
  /\ (forall r, loop st = AwaitingExecute r ->
        1 <= attempts r /\ (attempts r = 1 \/ attempts r <= maxRetries r)).

(** Nothing is queued, running or scheduled. *)
Definition quiescent (st : State) : Prop :=
  loop st = Idle /\ processing st = false /\ queue st = [] /\ timers st = [].

(** The loop awaits attempt [k] of request [rid] and nothing else is
    queued or scheduled. *)
Definition awaitingAttempt (rid : string)
    (fn : Z -> World -> World * WorkResult Result) (maxAttempts timeoutMs : Z)
    (st : State) (k : Z) : Prop :=
  exists request,
    loop st = AwaitingExecute request
    /\ id request = rid /\ attempts request = k
    /\ maxRetries request = maxAttempts
    /\ requestFn request = fn /\ timeout request = timeoutMs
    /\ queue st = [] /\ timers st = [] /\ processing st = true.

(** What the log shows of a request that fails at every attempt from
    attempt [k] on, with [n] attempts left after that one; [err k] is
    the error of attempt [k], [retryDelayMs] the queue's [retryDelay]. *)
Fixpoint failureLog (rid : string) (retryDelayMs : Z) (err : Z -> JsValue)
    (n : nat) (k : Z) : list QueueEvent :=
  match n with
  | O => [EvReject rid (err k)]
  | S n' =>
      EvRetry rid (retryDelayMs * k) :: EvExecute rid (k + 1)
        :: failureLog rid retryDelayMs err n' (k + 1)
  end.

(** The request that an event concerns, and what the log shows of
    request [rid]. *)
Definition eventId (ev : QueueEvent) : string :=
  match ev with
  | EvExecute r _ | EvResolve r _ | EvReject r _ | EvRetry r _ => r
  end.

Definition eventsOf (rid : string) (l : list QueueEvent) : list QueueEvent :=
  filter (fun ev => eventId ev = rid) l.

(** The requests with id [rid] in a list, and the request of the loop
    as a list. *)
Definition withId (rid : string) (l : list Request) : list Request :=
  filter (fun r => id r = rid) l.

Definition awaitedList (st : State) : list Request :=
  match loop st with
  | AwaitingExecute request => [request]
  | _ => []
  end.

(** No request with id [rid] is queued, executed or waiting for a
    retry. *)
Definition noLiveRequest (rid : string) (st : State) : Prop :=
  withId rid (queue st) = [] /\ withId rid (snd <$> timers st) = []
  /\ withId rid (awaitedList st) = [].

(** What the log shows of [n] failed attempts from attempt [k] on, each
    followed by its retry. *)
Fixpoint retriedLog (rid : string) (retryDelayMs : Z) (n : nat) (k : Z)
    : list QueueEvent :=
  match n with
  | O => []
  | S n' =>
      EvExecute rid k :: EvRetry rid (retryDelayMs * k)
        :: retriedLog rid retryDelayMs n' (k + 1)
  end.

(** An upper bound on the executions that a queued or scheduled request
    still has ahead, and on the turns of the event loop until nothing is
    pending. *)
Definition executionsLeft (r : Request) : nat :=
  Z.to_nat (Z.max 1 (maxRetries r - attempts r)).

Definition turnsLeft (st : State) : nat :=
  (3 * sum_list (executionsLeft <$> queue st)
   + 3 * sum_list (executionsLeft <$> (snd <$> timers st))
   + match loop st with
     | Idle => 0
     | Sleeping => 1
     | AwaitingExecute r => 2 + 3 * Z.to_nat (Z.max 0 (maxRetries r - attempts r))
     end)%nat.

Section Tracking.
(** One request: its id, function, [maxRetries] and [timeout], the
    errors of its attempts, the queue's [retryDelay], and what the log
    showed under its id when it was added. *)
Variables (rid : string) (fn : Z -> World -> World * WorkResult Result).
Variables (maxAttempts timeoutMs retryDelayMs : Z) (err : Z -> JsValue).
Variable before : list QueueEvent.

Definition isOwn (a : Z) (r : Request) : Prop :=
  id r = rid /\ requestFn r = fn /\ maxRetries r = maxAttempts
  /\ timeout r = timeoutMs /\ attempts r = a.

(** Where the request is, and what the log shows of it there. *)
Inductive phase (st : State) : Prop :=
  | phase_queued a r :
      withId rid (queue st) = [r] -> withId rid (snd <$> timers st) = [] ->
      withId rid (awaitedList st) = [] ->
      isOwn a r -> 0 <= a -> a = 0 \/ a < maxAttempts ->
      eventsOf rid (log st) = before ++ retriedLog rid retryDelayMs (Z.to_nat a) 1 ->
      phase st
  | phase_scheduled a r :
      withId rid (queue st) = [] -> withId rid (snd <$> timers st) = [r] ->
      withId rid (awaitedList st) = [] ->
      isOwn a r -> 1 <= a < maxAttempts ->
      eventsOf rid (log st) = before ++ retriedLog rid retryDelayMs (Z.to_nat a) 1 ->
      phase st
  | phase_awaited a r :
      withId rid (queue st) = [] -> withId rid (snd <$> timers st) = [] ->
      loop st = AwaitingExecute r ->
      isOwn a r -> 1 <= a -> a = 1 \/ a <= maxAttempts ->
      eventsOf rid (log st)
      = before ++ retriedLog rid retryDelayMs (Z.to_nat (a - 1)) 1 ++ [EvExecute rid a] ->
      phase st
  | phase_done :
      noLiveRequest rid st ->
      eventsOf rid (log st)
      = before
        ++ EvExecute rid 1
           :: failureLog rid retryDelayMs err (Z.to_nat (Z.max 1 maxAttempts - 1)) 1 ->
      phase st.
End Tracking.

(** The steps of the queue in which no request is added under the id
    [rid], and the states they lead to from [s0]. *)
Inductive stepOther (rid : string) : World * State -> World * State -> Prop :=
  | stepOther_add w st engine fn options newId now :
      newId <> rid ->
      stepOther rid (w, st) (w, add engine st fn options newId now)
  | stepOther_workDone w st request clk now :
      loop st = AwaitingExecute request ->
      stepOther rid (w, st) (workDone w st clk now)
  | stepOther_sleepDone w st now :
      loop st = Sleeping ->
      stepOther rid (w, st) (w, sleepDone st now)
  | stepOther_timerFire w st k entry now :
      timers st !! k = Some entry ->
      stepOther rid (w, st) (w, timerFire st k now).

Inductive reachableFrom (rid : string) (s0 : World * State) : World * State -> Prop :=
  | reachableFrom_start : reachableFrom rid s0 s0
  | reachableFrom_step s s' :
      reachableFrom rid s0 s -> stepOther rid s s' -> reachableFrom rid s0 s'.

(** The number of executions of request [rid] that the log shows. *)
Definition isExecutionOf (rid : string) (ev : QueueEvent) : bool :=
  match ev with
  | EvExecute r _ => String.eqb r rid
  | _ => false
  end.

Definition executions (rid : string) (l : list QueueEvent) : nat :=
  List.length (List.filter (isExecutionOf rid) l).

#[global] Instance Status_eq_dec : EqDecision Status.
Proof. solve_decision. Defined.

(** [getRequestsByStatus(status)] *)
Definition getRequestsByStatus (st : State) (s : Status) : list HistoryRecord :=
  filter (fun req => hStatus req = s) (requestHistory st).

(** The drain loop and the [processing] flag agree, and nothing waits
    in the queue while no loop runs. *)
Definition loopConsistent (st : State) : Prop :=
  match loop st with
  | Idle => processing st = false /\ queue st = []
  | _ => processing st = true
  end.

(** The number of records with status [s]. *)
Definition occurrences (s : Status) (h : list HistoryRecord) : Z :=
  Z.of_nat (List.length (filter (fun req => hStatus req = s) h)).

(** In every suffix of the history the completion records are covered
    by attempt records, up to [slack]. *)
Definition attemptsCoverCompletions (slack : Z) (h : list HistoryRecord) : Prop :=
  forall k, occurrences StCompleted (drop k h) <= occurrences StProcessing (drop k h) + slack.

(** The trimming of [recordRequest]. *)
Definition trimmed (max : nat) (h : list HistoryRecord) : list HistoryRecord :=
  if (max <? List.length h)%nat then PerformanceMonitor.sliceLast max h else h.

(** The history is full, or it still starts with the record of the
    first [add]. *)
Definition startsQueuedOrFull (h : list HistoryRecord) : Prop :=
  List.length h = 500%nat
  \/ ((List.length h <= 500)%nat
      /\ exists first rest, h = first :: rest /\ hStatus first = StQueued).

(** The slack that the drain loop leaves: while an execution is
    awaited its attempt record is still unmatched. *)
Definition slackOf (l : LoopState) : Z :=
  match l with
  | AwaitingExecute _ => 0
  | _ => 1
  end.

(** What the history of a queue looks like. *)
Definition historyInvariant (st : State) : Prop :=
  maxHistorySize st = 500%nat
  /\ attemptsCoverCompletions (slackOf (loop st)) (requestHistory st)
  /\ ((requestHistory st = [] /\ loop st = Idle /\ timers st = [])
      \/ startsQueuedOrFull (requestHistory st)).

End AIRequestQueue.

(* ===================================================================== *)
(** * AIService: the session manager and [withAISession] *)
(* ===================================================================== *)

Module AIService.
Import AIRequestQueue.

(** The result of one [ctor.create(cfg)] call of a provider API. *)
Inductive CreateResult :=
  | Created (session : Session)
  | CreateFails (reason : JsValue).

Definition isKnownApi (apiType : string) : bool :=
  existsb (String.eqb apiType)
    ["LanguageModel"; "Summarizer"; "Writer"; "Rewriter"; "Proofreader"; "Translator"]%string.

(** [tryCreate(ctor, cfgPrimary, cfgFallback)]: [hasFallback] says that
    [cfgFallback] (the caller's [config]) is truthy. *)
Definition tryCreate (primary : CreateResult) (hasFallback : bool)
    (fallback : CreateResult) : Outcome Session :=
  match primary with
  | Created session => Resolved session
  | CreateFails e =>
      if hasFallback then
        match fallback with
        | Created session => Resolved session
        | CreateFails _ => Rejected e
        end
      else Rejected e
  end.

(** [aiSessionManager.createSession(apiType, config)] *)
Definition createSession (apiType : string) (primary : CreateResult)
    (hasFallback : bool) (fallback : CreateResult) (w : World)
    : World * Outcome Session :=
  if isKnownApi apiType then
    match tryCreate primary hasFallback fallback with
    | Resolved session =>
        ({| monitor := monitor w; rateLimiter := rateLimiter w;
            activeSessions := {[sessionId session]} ∪ activeSessions w;
            trace := trace w ++ [EvSessionCreated apiType (sessionId session)] |},
         Resolved session)
    | Rejected e => (w, Rejected e)
    end
  else (w, Rejected (JsError (ErrPlain (String.append "Unknown API type: " apiType)))).

(** [aiSessionManager.destroySession(session)]: never rejects; when
    [session.destroy()] throws, the session stays in [activeSessions]. *)
Definition destroySession (session : Session) (w : World) : World * Outcome unit :=
  let called := trace w ++ [EvDestroySession (sessionId session)] in
  match destroyBehaviour session with
  | NoDestroyMethod =>
      ({| monitor := monitor w; rateLimiter := rateLimiter w;
          activeSessions := activeSessions w ∖ {[sessionId session]};
          trace := called |}, Resolved tt)
  | DestroySucceeds =>
      ({| monitor := monitor w; rateLimiter := rateLimiter w;
          activeSessions := activeSessions w ∖ {[sessionId session]};
          trace := called ++ [EvSessionDestroy (sessionId session)] |}, Resolved tt)
  | DestroyThrows =>
      ({| monitor := monitor w; rateLimiter := rateLimiter w;
          activeSessions := activeSessions w;
          trace := called ++ [EvSessionDestroy (sessionId session)] |}, Resolved tt)
  end.

(** The session that [createSession] hands out, if any. *)
Definition acquired (apiType : string) (primary : CreateResult)
    (hasFallback : bool) (fallback : CreateResult) : option Session :=
  if isKnownApi apiType then
    match tryCreate primary hasFallback fallback with
    | Resolved session => Some session
    | Rejected _ => None
    end
  else None.

(** The calls that [destroySession(session)] makes. *)
Definition releaseTrace (session : Session) : list Event :=
  EvDestroySession (sessionId session)
    :: match destroyBehaviour session with
       | NoDestroyMethod => []
       | _ => [EvSessionDestroy (sessionId session)]
       end.

(** What one call of the request function of [withAISession] meets. *)
Record Env := mkEnv {
  envNow : Z;                              (* Date.now() in the rate limiter *)
  envPrimary : CreateResult;               (* ctor.create(createConfig) *)
  envHasFallback : bool;                   (* config is truthy *)
  envFallback : CreateResult;              (* ctor.create(config) *)
  envCallback : Session -> WorkResult Result;   (* callback(session) *)
  envCallbackUndefined : WorkResult Result;     (* callback(undefined) *)
  envCreateMs : Z;                         (* time taken by createSession *)
  envDestroyMs : Z;                        (* time taken by destroySession *)
  envClockCreate : PerformanceMonitor.Clock;
  envClockExecute : PerformanceMonitor.Clock;
  envClockDestroy : PerformanceMonitor.Clock
}.

(** [throw this.errorHandler.classify(error)] *)
Definition classified (error : JsValue) : JsValue :=
  JsError (ErrEnhanced (EnhancedErrorHandler.classify error)).

(** How long the request function waits for the rate limiter before it
    creates the session:
    [if (!canMakeRequest(apiType)) await sleep(getWaitTime(apiType))]. *)
Definition rateLimitWait (w : World) (apiType : string) (now : Z) : Z :=
  if negb (RateLimiter.canMakeRequest (rateLimiter w) apiType now)
  then sleepMs (RateLimiter.getWaitTime (rateLimiter w) apiType now)
  else 0.

(** The async function that [withAISession] hands to the queue.  The
    optional [window.aiImpactTracker.trackOperation] call only counts
    operations and is left out. *)
Definition sessionRequestFn (apiType : string) (env : Env) (w : World)
    : World * WorkResult Result :=
  let waited := rateLimitWait w apiType (envNow env) in
  let '(w1, created) :=
    measureShared (String.append apiType "_createSession")
      (createSession apiType (envPrimary env) (envHasFallback env) (envFallback env))
      [] (envClockCreate env) w in
  match created with
  | Rejected error =>
      (* catch: throw classified; finally: session is still null *)
      (w1, Settles (waited + envCreateMs env) (Rejected (classified error)))
  | Resolved session =>
      (* [session] is undefined when [measureOperation] has swallowed a
         falsy rejection of [createSession] *)
      let called :=
        match session with
        | Some created => envCallback env created
        | None => envCallbackUndefined env
        end in
      match called with
      | Hangs =>
          (* measureOperation has entered its try block and waits *)
          (setMonitor
             (PerformanceMonitor.addActiveOperation (monitor w1)
                (String.append apiType "_execute")
                (PerformanceMonitor.dateStart (envClockExecute env))
                (PerformanceMonitor.memActive (envClockExecute env))) w1,
           Hangs)
      | Settles elapsed out =>
          let '(w2, result) :=
            measureShared (String.append apiType "_execute")
              (fun w0 => (w0, out)) [] (envClockExecute env) w1 in
          let thrown :=
            match result with
            | Resolved v => Resolved (default JsUndefined v)
            | Rejected error => Rejected (classified error)
            end in
          (* finally { if (session) ... destroySession(session) } *)
          match session with
          | Some created =>
              let '(w3, _) :=
                measureShared (String.append apiType "_destroySession")
                  (destroySession created) [] (envClockDestroy env) w2 in
              (w3, Settles (waited + envCreateMs env + elapsed + envDestroyMs env) thrown)
          | None =>
              (w2, Settles (waited + envCreateMs env + elapsed) thrown)
          end
      end
  end.

(** The [options] of [withAISession], with its defaults. *)
Definition queueOptions (apiType : string) (options : Options) : Options :=
  {| optPriority := Some (default "normal"%string (optPriority options));
     optTimeout := Some (default 10000 (optTimeout options));
     optRetries := Some (default 2 (optRetries options));
     optApiType := Some apiType;
     optDescription :=
       Some (default (String.append apiType " operation") (optDescription options)) |}.

(** [withAISession(apiType, config, callback, options)]: queue the
    request function; [envs n] is what its [n]-th call meets. *)
Definition withAISession (engine : Engine) (st : State) (apiType : string)
    (envs : Z -> Env) (options : Options) (newId : string) (now : Z) : State :=
  add engine st (fun n w => sessionRequestFn apiType (envs n) w)
    (queueOptions apiType options) newId now.

(** The number of [destroySession] calls for a session in a trace. *)
Definition releases (sid : nat) (l : list Event) : nat :=
  List.length (filter (fun ev => ev = EvDestroySession sid) l).

(** The number of sessions that the trace shows as created with this
    identity. *)
Definition acquisitions (sid : nat) (l : list Event) : nat :=
  List.length
    (List.filter
       (fun ev => match ev with
                  | EvSessionCreated _ s => Nat.eqb s sid
                  | _ => false
                  end) l).

(** [aiSessionManager.getSessionCount()] *)
Definition getSessionCount (w : World) : nat := size (activeSessions w).

(** [aiSessionManager.destroyAllSessions()], run to its end with no
    other task in between.  [behaviourOf sid] is the [destroy] member
    of the tracked session with identity [sid].  The sessions are
    visited in the order of [elements]; the source visits them in
    insertion order, which the set does not keep. *)
Definition destroyAllSessions (behaviourOf : nat -> DestroyBehaviour) (w : World) : World :=
  let w' :=
    foldl (fun w0 sid => (destroySession (mkSession sid (behaviourOf sid)) w0).1)
      w (elements (activeSessions w)) in
  {| monitor := monitor w'; rateLimiter := rateLimiter w';
     activeSessions := ∅; trace := trace w' |}.

(** [cleanup()]: the world it leaves and the session count it logs. *)
Definition cleanup (behaviourOf : nat -> DestroyBehaviour) (w : World) : World * nat :=
  let w' := destroyAllSessions behaviourOf w in
  (w', getSessionCount w').

End AIService.

(* ===================================================================== *)
(** * Concrete states used in the examples *)
(* ===================================================================== *)

Module Scenarios.

(** Ten Proofreader requests queued at 40000, 42000, ..., 58000, each
    one settled before the next is queued. *)
Definition ten_admissions : RateLimiter.State :=
  fold_left
    (fun st t =>
       RateLimiter.executeRequest_finally
         (RateLimiter.queueRequest st "Proofreader" 0%nat t).1 "Proofreader")
    [40000; 42000; 44000; 46000; 48000; 50000; 52000; 54000; 56000; 58000]
    RateLimiter.init.

(** One Rewriter request is running. *)
Definition beforeReset : RateLimiter.System :=
  RateLimiter.mkSystem
    (RateLimiter.queueRequest RateLimiter.init "Rewriter" 0%nat 5000).1
    (RateLimiter.started_as "Rewriter"
       (RateLimiter.queueRequest RateLimiter.init "Rewriter" 0%nat 5000).2).

(** [reset()] while it runs. *)
Definition resetDone : RateLimiter.System :=
  {| RateLimiter.limiter := RateLimiter.reset (RateLimiter.limiter beforeReset);
     RateLimiter.running := RateLimiter.running beforeReset |}.

(** Then a second Rewriter request is queued. *)
Definition afterReset : RateLimiter.System :=
  {| RateLimiter.limiter :=
       (RateLimiter.queueRequest (RateLimiter.limiter resetDone) "Rewriter" 1%nat 9000).1;
     RateLimiter.running :=
       RateLimiter.running resetDone ++
       RateLimiter.started_as "Rewriter"
         (RateLimiter.queueRequest (RateLimiter.limiter resetDone) "Rewriter" 1%nat
            9000).2 |}.

(** Two callers run [executeRequest('Rewriter', ..)] themselves. *)
Definition oneDirect : RateLimiter.System :=
  {| RateLimiter.limiter :=
       RateLimiter.executeRequest_begin RateLimiter.init "Rewriter" 5000;
     RateLimiter.running :=
       RateLimiter.running RateLimiter.initSystem
       ++ [("Rewriter"%string, RateLimiter.mkQueuedRequest 0 5000)] |}.

Definition twoDirect : RateLimiter.System :=
  {| RateLimiter.limiter :=
       RateLimiter.executeRequest_begin (RateLimiter.limiter oneDirect) "Rewriter" 5001;
     RateLimiter.running :=
       RateLimiter.running oneDirect
       ++ [("Rewriter"%string, RateLimiter.mkQueuedRequest 1 5001)] |}.

Import AIRequestQueue AIService.

Definition clock0 : PerformanceMonitor.Clock :=
  PerformanceMonitor.mkClock 0 0 0 0 0 0 0.

Definition ticks (k : nat) : Tick := mkTick (1000 * Z.of_nat k) clock0.

(** The [n]-th call gets session number [n]; the callback settles after
    50 ms. *)
Definition envWith (out : Outcome Result) (n : Z) : Env :=
  {| envNow := 1700000000000 + 1000 * n;
     envPrimary := Created (mkSession (Z.to_nat n) DestroySucceeds);
     envHasFallback := true;
     envFallback := CreateFails (JsError (ErrPlain "not used"));
     envCallback := fun _ => Settles 50 out;
     envCallbackUndefined := Settles 50 out;
     envCreateMs := 5; envDestroyMs := 5;
     envClockCreate := clock0; envClockExecute := clock0; envClockDestroy := clock0 |}.

Definition failingEnv (msg : string) : Z -> Env :=
  envWith (Rejected (JsError (ErrPlain msg))).

Definition succeedingEnv (v : string) : Z -> Env := envWith (Resolved (JsString v)).

(** An engine that leaves an array alone when the comparator is not
    consistent. *)
Definition lazyEngine : Engine := mkEngine (fun l => l) (fun l => Permutation_refl l).

Definition options (priority : option string) (retries : option Z) : Options :=
  {| optPriority := priority; optRetries := retries; optTimeout := None;
     optApiType := None; optDescription := None |}.

(** [withAISession('Summarizer', ..)] with a callback that always fails
    with [new Error(msg)], on a fresh queue, run until nothing is
    pending. *)
Definition failingRun (msg : string) (maxAttempts : Z) : World * State :=
  run 40 ticks 0
    (initWorld,
     withAISession lazyEngine init "Summarizer" (failingEnv msg) (options None (Some maxAttempts))
       "req_1" 0).

(** The same request after its first execution has settled. *)
Definition firstFailure (msg : string) (maxAttempts : Z) : World * State :=
  run 1 ticks 0
    (initWorld,
     withAISession lazyEngine init "Summarizer" (failingEnv msg) (options None (Some maxAttempts))
       "req_1" 0).

(** A request function that is rejected after 50 ms at every call. *)
Definition alwaysRejected (msg : string) : Z -> World -> World * WorkResult Result :=
  fun _ w => (w, Settles 50 (Rejected (JsError (ErrPlain msg)))).

(** A low-priority request fails and waits for its retry; two critical
    requests arrive, the first is executing and the second is queued
    when the retry timer fires. *)
Definition lowFailed : World * State :=
  workDone initWorld
    (withAISession lazyEngine init "Summarizer" (failingEnv "Operation timed out")
       (options (Some "low"%string) (Some 3)) "low" 0)
    clock0 100.

Definition criticalQueued : State :=
  withAISession lazyEngine
    (withAISession lazyEngine lowFailed.2 "Summarizer" (succeedingEnv "first")
       (options (Some "critical"%string) None) "critical_1" 200)
    "Summarizer" (succeedingEnv "second")
    (options (Some "critical"%string) None) "critical_2" 300.

Definition retryFired : State := timerFire criticalQueued 0 2100.

Definition firstCriticalDone : World * State :=
  workDone lowFailed.1 retryFired clock0 2500.

Definition nextTaken : State := sleepDone firstCriticalDone.2 3500.

(** Four LanguageModel requests: two run, two wait; then both running
    requests settle, which frees both slots. *)
Definition two_waiting : RateLimiter.State :=
  let queued st requestId :=
    (RateLimiter.queueRequest st "LanguageModel" requestId 5000).1 in
  RateLimiter.executeRequest_finally
    (RateLimiter.executeRequest_finally
       (queued (queued (queued (queued RateLimiter.init 1%nat) 2%nat) 3%nat) 4%nat)
       "LanguageModel")
    "LanguageModel".

(** A request function that never settles. *)
Definition hanging : Z -> World -> World * WorkResult Result := fun _ w => (w, Hangs).

(** One request is running; a low one and then a critical one were
    added behind it. *)
Definition twoQueued : State :=
  add lazyEngine
    (add lazyEngine
       (add lazyEngine init hanging (options None None) "req_1" 0)
       hanging (options (Some "low"%string) None) "req_2" 10)
    hanging (options (Some "critical"%string) None) "req_3" 20.

(** One request that succeeds at its first attempt, on a fresh queue:
    while it runs, and when it has settled. *)
Definition oneRunning : State :=
  add lazyEngine init (fun _ w => (w, Settles 50 (Resolved (JsString "ok"))))
    (options None None) "req_1" 0.

Definition oneSuccess : World * State := workDone initWorld oneRunning clock0 100.

(** A request with three attempts whose function is rejected with
    "Invalid input", while its first execution runs. *)
Definition invalidRunning : State :=
  add lazyEngine init (alwaysRejected "Invalid input") (options None (Some 3)) "req_1" 0.

End Scenarios.

(* ===================================================================== *)
(** * Properties of the error classifier *)
(* ===================================================================== *)

Module ClassifierProps.
Import EnhancedErrorHandler.

Example classify_test_rate_limit :
  type (classify (JsError (ErrPlain "429 Too Many Requests: rate limit"))) = RATE_LIMIT.
Proof. reflexivity. Qed.

Example classify_test_network :
  type (classify (JsError (ErrPlain "NetworkError: Failed to fetch"))) = NETWORK_ERROR.
Proof. reflexivity. Qed.

Example classify_test_timeout :
  type (classify (JsError (ErrPlain "Operation timed out"))) = TIMEOUT.
Proof. reflexivity. Qed.

Example classify_test_validation :
  type (classify (JsError (ErrPlain "Invalid input"))) = VALIDATION.
Proof. reflexivity. Qed.

Example classify_test_ai_unavailable :
  type (classify (JsError (ErrPlain "AI unavailable on this device"))) = AI_UNAVAILABLE.
Proof. reflexivity. Qed.

(** Earlier patterns win over later ones. *)
Example classify_precedence :
  type (classify (JsString "network timeout: invalid AI unavailable")) = NETWORK_ERROR
  /\ type (classify (JsString "timeout: invalid AI unavailable")) = TIMEOUT
  /\ type (classify (JsString "invalid: AI unavailable")) = VALIDATION
  /\ type (classify (JsNumber 429 eq_refl)) = RATE_LIMIT
  /\ type (classify (JsString "nothing special")) = UNKNOWN.
Proof. repeat split; reflexivity. Qed.

Lemma shouldRetry_iff e :
  shouldRetry e = true <-> type e = RATE_LIMIT \/ type e = NETWORK_ERROR \/ type e = TIMEOUT.
Proof.
  unfold shouldRetry. destruct (type e); simpl; split; intros H;
    try discriminate; try reflexivity; intuition discriminate || eauto.
Qed.

Lemma falsy_first_match error :
  truthy error = false -> first_match spec_rules (rawMessage error) = UNKNOWN.
Proof.
  destruct error as [| | [|] | n Hn | s | e]; simpl; intros H; try discriminate;
    try reflexivity.
  - apply negb_false_iff, Z.eqb_eq in H. subst n. reflexivity.
  - apply negb_false_iff, String.eqb_eq in H. subst s. reflexivity.
Qed.

Lemma cascade_first_match msg :
  type (if re_rate_limit msg then newEnhancedError msg (Some RATE_LIMIT)
        else if re_network msg then newEnhancedError msg (Some NETWORK_ERROR)
        else if re_timeout msg then newEnhancedError msg (Some TIMEOUT)
        else if re_validation msg then newEnhancedError msg (Some VALIDATION)
        else if re_ai_unavailable msg then newEnhancedError msg (Some AI_UNAVAILABLE)
        else newEnhancedError msg (Some UNKNOWN))
  = first_match spec_rules msg
  /\ message (if re_rate_limit msg then newEnhancedError msg (Some RATE_LIMIT)
        else if re_network msg then newEnhancedError msg (Some NETWORK_ERROR)
        else if re_timeout msg then newEnhancedError msg (Some TIMEOUT)
        else if re_validation msg then newEnhancedError msg (Some VALIDATION)
        else if re_ai_unavailable msg then newEnhancedError msg (Some AI_UNAVAILABLE)
        else newEnhancedError msg (Some UNKNOWN)) = msg.
Proof.
  unfold spec_rules; cbn [first_match].
  destruct (re_rate_limit msg); [done |].
  destruct (re_network msg); [done |].
  destruct (re_timeout msg); [done |].
  destruct (re_validation msg); [done |].
  destruct (re_ai_unavailable msg); done.
Qed.

(** C4 (as amended).  For an input that is [undefined], [null], a
    boolean, a safe integer, a string, or an [Error] or [TypeError]
    object, [classify] returns the kind of the first pattern, in the
    order RATE_LIMIT, NETWORK_ERROR, TIMEOUT, VALIDATION,
    AI_UNAVAILABLE, that matches the raw message, and UNKNOWN when none
    does; a truthy input keeps its raw message and a falsy one gets
    "Unknown error".  An input that is an [EnhancedError] object is
    returned as it is. *)
Theorem classify_first_match error :
  match error with
  | JsError (ErrEnhanced e) => classify error = e
  | _ =>
      type (classify error) = first_match spec_rules (rawMessage error)
      /\ message (classify error)
         = (if truthy error then rawMessage error else "Unknown error"%string)
  end.
Proof.
  assert (Hraw : forall v,
    isEnhanced v = false ->
    type (classify v) = first_match spec_rules (rawMessage v)
    /\ message (classify v) = (if truthy v then rawMessage v else "Unknown error"%string)).
  { intros v Hne. unfold classify.
    destruct (truthy v) eqn:Ht; cbn [negb].
    - destruct v as [| | b | n Hn | s | [msg | e | msg]]; try discriminate Hne;
        apply cascade_first_match.
    - split; [| reflexivity]. by rewrite falsy_first_match. }
  destruct error as [| | b | n Hn | s | [msg | e | msg]]; try (by apply Hraw).
  reflexivity.
Qed.

(** C4 (as stated) fails for an input that already is an
    [EnhancedError]: it is returned as it is, whatever its message. *)
Lemma classify_enhanced_counterexample :
  type (classify (JsError (ErrEnhanced (newEnhancedError "Too many requests" None))))
    = UNKNOWN
  /\ first_match spec_rules
       (rawMessage (JsError (ErrEnhanced (newEnhancedError "Too many requests" None))))
     = RATE_LIMIT.
Proof. split; reflexivity. Qed.

Lemma jitterOf_bounds (product : Q) :
  (0 <= product)%Q -> (product < 150)%Q -> 0 <= jitterOf product <= 149.
Proof.
  intros H0 H1. unfold jitterOf. split.
  - change 0 with (Qfloor (inject_Z 0)). by apply Qfloor_resp_le.
  - pose proof (Qfloor_le product) as Hfl.
    assert (Hz : (inject_Z (Qfloor product) < inject_Z 150)%Q)
      by (eapply Qle_lt_trans; eauto).
    rewrite <- Zlt_Qlt in Hz. lia.
Qed.



End ClassifierProps.

(* ===================================================================== *)
(** * Properties of the rate limiter *)
(* ===================================================================== *)

Module RateLimiterProps.
Import RateLimiter.

Lemma config_bounds apiType cfg :
  config !! apiType = Some cfg ->
  1 <= maxConcurrent cfg /\ 1 <= maxPerMinute cfg /\ 0 <= minInterval cfg.
Proof.
  intros H. unfold config in H.
  apply elem_of_list_to_map_2 in H.
  repeat (apply elem_of_cons in H as [H | H];
          [inversion H; subst; simpl; lia |]).
  by apply elem_of_nil in H.
Qed.

Lemma configEntry_configured apiType cfg :
  config !! apiType = Some cfg -> configEntry apiType = Configured cfg.
Proof. intros H. unfold configEntry. by rewrite H. Qed.

Lemma configEntry_unconfigured apiType :
  config !! apiType = None ->
  configEntry apiType
  = if isInheritedName apiType then InheritedMember else NoEntry.
Proof. intros H. unfold configEntry. by rewrite H. Qed.

Lemma configEntry_inv apiType cfg :
  configEntry apiType = Configured cfg -> config !! apiType = Some cfg.
Proof.
  unfold configEntry. destruct (config !! apiType); [congruence |].
  by destruct (isInheritedName apiType).
Qed.

Lemma activeCount_begin st apiType now other :
  activeCount (executeRequest_begin st apiType now) other =
  if decide (apiType = other) then activeCount st apiType + 1
  else activeCount st other.
Proof.
  unfold activeCount, executeRequest_begin; simpl.
  rewrite lookup_insert. by case_decide.
Qed.

Lemma activeCount_finally st apiType other :
  activeCount (executeRequest_finally st apiType) other =
  if decide (apiType = other) then Z.max 0 (activeCount st apiType - 1)
  else activeCount st other.
Proof.
  unfold activeCount, executeRequest_finally; simpl.
  rewrite lookup_insert. by case_decide.
Qed.

Lemma activeCount_getQueue st apiType other :
  activeCount (getQueue st apiType).1 other = activeCount st other.
Proof. unfold getQueue. by destruct (queues st !! apiType). Qed.

Lemma activeCount_setQueue st apiType q other :
  activeCount (setQueue st apiType q) other = activeCount st other.
Proof. reflexivity. Qed.

(** The loop admits one request per iteration and never more than the
    slots that were free when it started. *)
Lemma processQueue_loop_spec apiType now slots q : forall i st st' rest started,
  0 <= i ->
  processQueue_loop apiType now slots i q st = (st', rest, started) ->
  (forall other, activeCount st' other =
     if decide (apiType = other)
     then activeCount st apiType + Z.of_nat (List.length started)
     else activeCount st other)
  /\ Z.of_nat (List.length started) <= Z.max 0 (slots - i).
Proof.
  induction q as [| request q IH]; intros i st st' rest started Hi Hloop; simpl in Hloop.
  - inversion Hloop; subst; simpl. split; [| lia].
    intros other. case_decide; subst; lia.
  - destruct (i <? Z.min slots (Z.of_nat (S (List.length q)))) eqn:Hlt.
    + destruct (processQueue_loop apiType now slots (i + 1) q
                  (executeRequest_begin st apiType now)) as [[st2 rest2] started2] eqn:Hrec.
      inversion Hloop; subst; clear Hloop.
      apply IH in Hrec as [Hact Hlen]; [| lia].
      apply Z.ltb_lt in Hlt. split.
      * intros other. rewrite Hact, !activeCount_begin. simpl List.length.
        repeat case_decide; subst; try congruence; lia.
      * simpl List.length. lia.
    + inversion Hloop; subst; simpl. split; [| lia].
      intros other. case_decide; subst; lia.
Qed.

Lemma processQueue_spec st apiType now st' started :
  processQueue st apiType now = (st', started) ->
  (forall other, activeCount st' other =
     if decide (apiType = other)
     then activeCount st apiType + Z.of_nat (List.length started)
     else activeCount st other)
  /\ (started <> [] -> exists cfg, config !! apiType = Some cfg /\
        Z.of_nat (List.length started) <= Z.max 0 (maxConcurrent cfg - activeCount st apiType)).
Proof.
  unfold processQueue. intros H.
  destruct (getQueue st apiType) as [st1 queue] eqn:Hq.
  assert (Hact1 : forall other, activeCount st1 other = activeCount st other).
  { intros other. pose proof (activeCount_getQueue st apiType other) as E.
    by rewrite Hq in E. }
  assert (Hnone : forall other, activeCount st1 other =
     if decide (apiType = other)
     then activeCount st apiType + Z.of_nat (List.length (@nil QueuedRequest))
     else activeCount st other).
  { intros other. rewrite Hact1. case_decide; subst; simpl; lia. }
  destruct (configEntry apiType) as [cfg | |] eqn:Hcfg.
  2, 3: inversion H; subst; split; [done | congruence].
  apply configEntry_inv in Hcfg.
  destruct queue as [| request queue].
  { inversion H; subst. split; [done | congruence]. }
  destruct (processQueue_loop apiType now (maxConcurrent cfg - activeCount st1 apiType)
              0 (request :: queue) st1) as [[st2 rest] started2] eqn:Hloop.
  inversion H; subst; clear H.
  apply processQueue_loop_spec in Hloop as [Hact Hlen]; [| lia].
  split.
  - intros other. rewrite activeCount_setQueue, Hact, !Hact1. done.
  - intros _. exists cfg. split; [done |]. rewrite Hact1 in Hlen. lia.
Qed.

Lemma queueRequest_spec st apiType requestId now st' started :
  queueRequest st apiType requestId now = (st', started) ->
  (forall other, activeCount st' other =
     if decide (apiType = other)
     then activeCount st apiType + Z.of_nat (List.length started)
     else activeCount st other)
  /\ (started <> [] -> exists cfg, config !! apiType = Some cfg /\
        Z.of_nat (List.length started) <= Z.max 0 (maxConcurrent cfg - activeCount st apiType)).
Proof.
  unfold queueRequest. intros H.
  destruct (getQueue st apiType) as [st1 queue] eqn:Hq.
  assert (Hact1 : forall other, activeCount st1 other = activeCount st other).
  { intros other. pose proof (activeCount_getQueue st apiType other) as E.
    by rewrite Hq in E. }
  apply processQueue_spec in H as [Hact Hlen].
  split.
  - intros other. rewrite Hact, !activeCount_setQueue, !Hact1. done.
  - intros Hne. destruct (Hlen Hne) as (cfg & Hcfg & Hle).
    exists cfg. split; [done |]. by rewrite activeCount_setQueue, Hact1 in Hle.
Qed.

Lemma activeCount_cleanupHistory st now other :
  activeCount (cleanupHistory st now) other = activeCount st other.
Proof. reflexivity. Qed.

Lemma inFlight_app sys apiType extra other :
  inFlight {| limiter := limiter sys; running := running sys ++ started_as apiType extra |} other =
  if decide (apiType = other)
  then inFlight sys other + Z.of_nat (List.length extra)
  else inFlight sys other.
Proof.
  unfold inFlight, started_as; simpl. rewrite filter_app, length_app.
  assert (E : List.length (filter (fun x : string * QueuedRequest => x.1 = other)
                             (map (fun r => (apiType, r)) extra)) =
              if decide (apiType = other) then List.length extra else 0%nat).
  { induction extra as [| r extra IH]; cbn [map].
    - by case_decide.
    - rewrite filter_cons; cbn [fst].
      destruct (decide (apiType = other)); simpl; by rewrite IH. }
  rewrite E. case_decide; lia.
Qed.

Lemma invariant_started sys apiType st' started :
  invariant sys ->
  (forall other, activeCount st' other =
     if decide (apiType = other)
     then activeCount (limiter sys) apiType + Z.of_nat (List.length started)
     else activeCount (limiter sys) other) ->
  (started <> [] -> exists cfg, config !! apiType = Some cfg /\
     Z.of_nat (List.length started)
     <= Z.max 0 (maxConcurrent cfg - activeCount (limiter sys) apiType)) ->
  invariant {| limiter := st'; running := running sys ++ started_as apiType started |}.
Proof.
  intros [Hfl Hcap] Hact Hlen. split.
  - intros other. simpl.
    pose proof (inFlight_app sys apiType started other) as E.
    unfold inFlight in E |- *; simpl in E |- *. rewrite E, Hact.
    fold (inFlight sys other). rewrite Hfl. by case_decide; subst.
  - intros other cfg Hcfg. simpl. rewrite Hact. case_decide; subst.
    + destruct started as [| r started].
      * simpl. specialize (Hcap _ _ Hcfg). lia.
      * destruct Hlen as (cfg' & Hcfg' & Hle); [done |].
        rewrite Hcfg in Hcfg'. inversion Hcfg'; subst cfg'.
        specialize (Hcap _ _ Hcfg). lia.
    + by apply Hcap.
Qed.

Lemma invariant_init : invariant initSystem.
Proof.
  split.
  - intros apiType. reflexivity.
  - intros apiType cfg Hcfg. apply config_bounds in Hcfg.
    unfold activeCount; simpl. rewrite lookup_empty; simpl. lia.
Qed.

Lemma inFlight_nonneg sys apiType : 0 <= inFlight sys apiType.
Proof. unfold inFlight. lia. Qed.

Lemma invariant_step sys sys' : invariant sys -> queueStep sys sys' -> invariant sys'.
Proof.
  intros Hinv Hstep. destruct Hstep as
    [sys apiType requestId now | sys apiType request before after Hrun
    | sys apiType now | sys now | sys apiType].
  - destruct (queueRequest (limiter sys) apiType requestId now) as [st' started] eqn:E.
    apply queueRequest_spec in E as [Hact Hlen]. simpl.
    by apply invariant_started.
  - destruct Hinv as [Hfl Hcap]. split.
    + intros other. simpl. rewrite activeCount_finally.
      rewrite <- !Hfl. unfold inFlight; simpl. rewrite Hrun.
      rewrite !filter_app, !filter_cons, !length_app; cbn [fst].
      repeat case_decide; subst; try congruence; simpl List.length; lia.
    + intros other cfg Hcfg. simpl. rewrite activeCount_finally.
      case_decide; subst.
      * specialize (Hcap _ _ Hcfg). apply config_bounds in Hcfg. lia.
      * by apply Hcap.
  - destruct (processQueue (limiter sys) apiType now) as [st' started] eqn:E.
    apply processQueue_spec in E as [Hact Hlen]. simpl.
    by apply invariant_started.
  - destruct Hinv as [Hfl Hcap]. split.
    + intros other. simpl. apply Hfl.
    + intros other cfg Hcfg. simpl. by apply Hcap.
  - destruct Hinv as [Hfl Hcap]. split.
    + intros other. cbn [limiter]. rewrite activeCount_getQueue. apply Hfl.
    + intros other cfg Hcfg. cbn [limiter]. rewrite activeCount_getQueue.
      by apply Hcap.
Qed.

(** C2 (as amended).  In every state reached through the queued path of
    the limiter ([queueRequest], [processQueue], a running request
    reaching [finally], [cleanupHistory], [getStatus]; no [reset()] and
    no [executeRequest] from outside [processQueue]), and for every
    resource type with a configured policy, the number of executions in
    flight (started by [executeRequest], not yet at its [finally])
    equals the limiter's counter and never exceeds [maxConcurrent]. *)
Theorem admission_safety sys apiType cfg :
  queueReachable sys ->
  config !! apiType = Some cfg ->
  inFlight sys apiType = activeCount (limiter sys) apiType
  /\ inFlight sys apiType <= maxConcurrent cfg.
Proof.
  intros Hreach Hcfg.
  assert (Hinv : invariant sys).
  { induction Hreach as [| sys sys' _ IH Hstep].
    - apply invariant_init.
    - by eapply invariant_step. }
  destruct Hinv as [Hfl Hcap]. split; [apply Hfl |].
  rewrite Hfl. by apply Hcap.
Qed.

Lemma admission_safety_witness :
  queueReachable Scenarios.beforeReset
  /\ config !! "Rewriter"%string = Some (mkPolicy 1 2000 15)
  /\ inFlight Scenarios.beforeReset "Rewriter" <= 1.
Proof.
  assert (Hr : queueReachable Scenarios.beforeReset).
  { eapply queueReachable_step; [apply queueReachable_init |].
    apply (step_queueRequest initSystem "Rewriter" 0%nat 5000). }
  assert (Hc : config !! "Rewriter"%string = Some (mkPolicy 1 2000 15)) by reflexivity.
  split; [exact Hr |]. split; [exact Hc |].
  exact (proj2 (admission_safety _ _ _ Hr Hc)).
Defined.

(** C2 (as stated) fails once [reset()] is among the operations: it
    clears the counters while a Rewriter execution is running, and the
    next [queueRequest] starts a second one although [maxConcurrent] is
    1.  It also fails when [executeRequest] is called from outside
    [processQueue]: two such calls run two Rewriter executions. *)
Lemma reset_breaks_cap_counterexample :
  config !! "Rewriter"%string = Some (mkPolicy 1 2000 15)
  /\ (reachable Scenarios.afterReset
      /\ inFlight Scenarios.afterReset "Rewriter" = 2
      /\ ~ inFlight Scenarios.afterReset "Rewriter" <= 1)
  /\ (reachable Scenarios.twoDirect
      /\ inFlight Scenarios.twoDirect "Rewriter" = 2
      /\ ~ inFlight Scenarios.twoDirect "Rewriter" <= 1).
Proof.
  split; [reflexivity |]. split.
  - split.
    + eapply reachable_step.
      * eapply reachable_step.
        -- eapply reachable_step; [apply reachable_init |].
           apply step_queued.
           apply (step_queueRequest initSystem "Rewriter" 0%nat 5000).
        -- apply (step_reset Scenarios.beforeReset).
      * apply step_queued.
        apply (step_queueRequest Scenarios.resetDone "Rewriter" 1%nat 9000).
    + assert (H : inFlight Scenarios.afterReset "Rewriter" = 2)
        by (vm_compute; reflexivity).
      split; [exact H |]. rewrite H. lia.
  - split.
    + eapply reachable_step.
      * eapply reachable_step; [apply reachable_init |].
        apply (step_executeRequest initSystem "Rewriter" (mkQueuedRequest 0 5000) 5000).
      * apply (step_executeRequest Scenarios.oneDirect "Rewriter"
                 (mkQueuedRequest 1 5001) 5001).
    + assert (H : inFlight Scenarios.twoDirect "Rewriter" = 2)
        by (vm_compute; reflexivity).
      split; [exact H |]. rewrite H. lia.
Qed.

(** C5 (as amended).  For a configured type, [canMakeRequest] holds
    exactly when the counter is below [maxConcurrent], at least
    [minInterval] has passed since the last admission, and fewer than
    [maxPerMinute] recorded timestamps are strictly later than
    [now - 60000]. *)
Theorem canMakeRequest_iff st apiType cfg now :
  config !! apiType = Some cfg ->
  canMakeRequest st apiType now = true <->
    activeCount st apiType < maxConcurrent cfg
    /\ minInterval cfg <= now - lastRequest st apiType
    /\ Z.of_nat (List.length (filter (fun t => now - 60000 < t) (historyOf st apiType)))
       < maxPerMinute cfg.
Proof.
  intros Hcfg. unfold canMakeRequest, recentRequests.
  rewrite (configEntry_configured _ _ Hcfg).
  destruct (maxConcurrent cfg <=? activeCount st apiType) eqn:H1;
    [apply Z.leb_le in H1 | apply Z.leb_gt in H1].
  { split; [discriminate | lia]. }
  destruct (now - lastRequest st apiType <? minInterval cfg) eqn:H2;
    [apply Z.ltb_lt in H2 | apply Z.ltb_ge in H2].
  { split; [discriminate | lia]. }
  destruct (maxPerMinute cfg <=? _) eqn:H3;
    [apply Z.leb_le in H3 | apply Z.leb_gt in H3].
  { split; [discriminate | lia]. }
  split; [intros _; lia | reflexivity].
Qed.

Lemma canMakeRequest_iff_witness :
  config !! "Summarizer"%string = Some (mkPolicy 2 1500 20)
  /\ (canMakeRequest init "Summarizer" 5000 = true <->
      activeCount init "Summarizer" < 2
      /\ 1500 <= 5000 - lastRequest init "Summarizer"
      /\ Z.of_nat (List.length (filter (fun t => 5000 - 60000 < t)
                                  (historyOf init "Summarizer"))) < 20).
Proof.
  split; [reflexivity |].
  apply (canMakeRequest_iff init "Summarizer" (mkPolicy 2 1500 20) 5000).
  reflexivity.
Defined.

(** Ten Proofreader admissions, 2000 ms apart, each settled before the
    next: a state the limiter reaches by its own operations. *)
Lemma ten_admissions_reachable : queueReachable (mkSystem Scenarios.ten_admissions []).
Proof.
  assert (Hgo : forall st t,
    queueReachable (mkSystem st []) ->
    (queueRequest st "Proofreader" 0%nat t).2 = [mkQueuedRequest 0 t] ->
    queueReachable (mkSystem
      (executeRequest_finally (queueRequest st "Proofreader" 0%nat t).1
         "Proofreader") [])).
  { intros st t Hr Hst.
    eapply queueReachable_step.
    - eapply queueReachable_step; [exact Hr |].
      apply (step_queueRequest (mkSystem st []) "Proofreader" 0%nat t).
    - cbn [limiter running app]. rewrite Hst.
      exact (step_settle
               (mkSystem (queueRequest st "Proofreader" 0%nat t).1
                  [("Proofreader"%string, mkQueuedRequest 0 t)])
               "Proofreader" (mkQueuedRequest 0 t) [] [] eq_refl). }
  unfold Scenarios.ten_admissions. cbv [fold_left].
  do 10 (apply Hgo; [| vm_compute; reflexivity]).
  apply queueReachable_init.
Qed.

(** C5 (as stated) fails on the window boundary: a timestamp exactly
    60000 ms old is no longer counted by the code, but lies in the
    closed window of the claim. *)
Lemma canMakeRequest_closed_window_counterexample :
  config !! "Proofreader"%string = Some (mkPolicy 1 2000 10)
  /\ canMakeRequest Scenarios.ten_admissions "Proofreader" 100000 = true
  /\ ~ spec_CanAdmit Scenarios.ten_admissions (mkPolicy 1 2000 10) "Proofreader" 100000.
Proof.
  split; [reflexivity |]. split; [vm_compute; reflexivity |].
  unfold spec_CanAdmit. intros (_ & _ & H).
  vm_compute in H. discriminate.
Qed.

(** C10.  A resource type without a configured policy is never held
    back: in every state [canMakeRequest] is true, so the request
    function of [withAISession] does not wait for it.  [getWaitTime] is
    0 for such a name, except for a name that the [config] object
    inherits from [Object.prototype]: the guard [if (!config)] does not
    catch it, and the result is [NaN]. *)
Theorem unconfigured_type_unlimited st apiType now :
  config !! apiType = None ->
  canMakeRequest st apiType now = true
  /\ getWaitTime st apiType now = (if isInheritedName apiType then NaN else Num 0)
  /\ forall w, rateLimiter w = st -> AIService.rateLimitWait w apiType now = 0.
Proof.
  intros Hcfg.
  assert (Hcan : canMakeRequest st apiType now = true).
  { unfold canMakeRequest. rewrite (configEntry_unconfigured _ Hcfg).
    by destruct (isInheritedName apiType). }
  split; [exact Hcan |]. split.
  - unfold getWaitTime. rewrite (configEntry_unconfigured _ Hcfg).
    by destruct (isInheritedName apiType).
  - intros w <-. unfold AIService.rateLimitWait. by rewrite Hcan.
Qed.

Lemma unconfigured_type_unlimited_witness :
  config !! "toString"%string = None
  /\ canMakeRequest Scenarios.ten_admissions "toString" 100000 = true
  /\ getWaitTime Scenarios.ten_admissions "toString" 100000
     = (if isInheritedName "toString" then NaN else Num 0).
Proof.
  assert (H : config !! "toString"%string = None) by reflexivity.
  split; [exact H |].
  destruct (unconfigured_type_unlimited Scenarios.ten_admissions "toString" 100000 H)
    as (Hcan & Hwait & _).
  split; [exact Hcan | exact Hwait].
Defined.

(** The waiting time that the limiter reports for the name [toString]
    is not a number. *)
Lemma inherited_name_wait_is_NaN :
  config !! "toString"%string = None
  /\ getWaitTime Scenarios.ten_admissions "toString" 100000 = NaN
  /\ getWaitTime Scenarios.ten_admissions "toString" 100000 <> Num 0.
Proof. split; [reflexivity |]. split; [reflexivity | discriminate]. Qed.

End RateLimiterProps.

(* ===================================================================== *)
(** * Properties of the performance monitor *)
(* ===================================================================== *)

Module MonitorProps.
Import PerformanceMonitor.

Lemma last_sliceLast {A} (n : nat) (l : list A) (x : A) :
  last (sliceLast n (l ++ [x])) = Some x.
Proof.
  unfold sliceLast. destruct n as [| n]; [apply last_snoc |].
  rewrite length_app; simpl.
  replace (List.length l + 1 - S n)%nat with (List.length l - n)%nat by lia.
  rewrite drop_app_le by lia. apply last_snoc.
Qed.

Lemma recordOperation_last st operationName m now :
  last (operationHistory (recordOperation st operationName m now))
  = Some (mkOperationRecord operationName m now).
Proof.
  unfold recordOperation, updateAggregatedMetrics; simpl.
  destruct (_ <? _)%nat; [apply last_sliceLast | apply last_snoc].
Qed.

Lemma recordOperation_metrics st operationName m now :
  metrics (recordOperation st operationName m now) !! operationName
  = Some (updateAggregated (default freshAggregated (metrics st !! operationName)) m).
Proof.
  unfold recordOperation, updateAggregatedMetrics; simpl.
  apply lookup_insert_eq.
Qed.

Lemma removeActiveOperation_fields st operationName startTime :
  metrics (removeActiveOperation st operationName startTime) = metrics st
  /\ operationHistory (removeActiveOperation st operationName startTime)
     = operationHistory st.
Proof. split; reflexivity. Qed.

Lemma measureOperation_outcome {W A} (getM : W -> State) (setM : State -> W -> W)
    operationName (fn : W -> W * Outcome A) opts clk w :
  (measureOperation getM setM operationName fn opts clk w).2
  = handedBack
      (fn (setM (addActiveOperation (getM w) operationName (dateStart clk)
                   (memActive clk)) w)).2.
Proof.
  unfold measureOperation, handedBack, surfaced.
  destruct (fn _) as [w2 [v | [| | b | n Hn | s | e]]]; cbn [snd]; try reflexivity;
    by destruct (truthy _).
Qed.

(** A rejection with a truthy reason is re-raised with the same reason,
    a result is returned as it is, and in both cases the new record is
    the last entry of the history and the statistics of the operation
    name are advanced by one call, counted as success or failure.  The
    record and the statistics are the same for a falsy reason other
    than [null] and [undefined]; for these two nothing is recorded. *)
Lemma measure_records {A} operationName
    (fn : World -> World * Outcome A) opts clk w :
  let entered :=
    setMonitor (addActiveOperation (monitor w) operationName (dateStart clk)
                  (memActive clk)) w in
  let settled := (fn entered).2 in
  let before :=
    default freshAggregated (metrics (monitor (fn entered).1) !! operationName) in
  let after := measureShared operationName fn opts clk w in
  after.2 = handedBack settled
  /\ (forall reason, settled = Rejected reason -> truthy reason = true ->
        after.2 = Rejected reason)
  /\ (settled <> Rejected JsNull -> settled <> Rejected JsUndefined ->
      (exists m,
         last (operationHistory (monitor after.1))
           = Some (mkOperationRecord operationName m (dateRecord clk))
         /\ success m = isResolved settled
         /\ error m = match settled with
                      | Resolved _ => None
                      | Rejected reason => messageOf reason
                      end
         /\ duration m = perfEnd clk - perfStart clk)
      /\ (exists aggregated,
            metrics (monitor after.1) !! operationName = Some aggregated
            /\ count aggregated = count before + 1
            /\ successCount aggregated
               = successCount before + (if isResolved settled then 1 else 0)
            /\ failureCount aggregated
               = failureCount before + (if isResolved settled then 0 else 1)))
  /\ (settled = Rejected JsNull \/ settled = Rejected JsUndefined ->
      operationHistory (monitor after.1) = operationHistory (monitor (fn entered).1)
      /\ metrics (monitor after.1) = metrics (monitor (fn entered).1)).
Proof.
  cbv zeta. split; [apply measureOperation_outcome |].
  unfold measureShared, measureOperation.
  destruct (fn _) as [w2 settled]; cbn [fst snd].
  split.
  { intros reason -> Htruthy.
    destruct reason as [| | [|] | n Hn | s | e]; try discriminate Htruthy;
      by rewrite ?Htruthy. }
  assert (Hrec : forall m,
    (exists m',
       last (operationHistory (recordOperation (monitor w2) operationName m
                                 (dateRecord clk)))
         = Some (mkOperationRecord operationName m' (dateRecord clk))
       /\ success m' = success m /\ error m' = error m /\ duration m' = duration m)
    /\ (exists aggregated,
          metrics (recordOperation (monitor w2) operationName m (dateRecord clk))
            !! operationName = Some aggregated
          /\ count aggregated
             = count (default freshAggregated (metrics (monitor w2) !! operationName)) + 1
          /\ successCount aggregated
             = successCount (default freshAggregated
                               (metrics (monitor w2) !! operationName))
               + (if success m then 1 else 0)
          /\ failureCount aggregated
             = failureCount (default freshAggregated
                               (metrics (monitor w2) !! operationName))
               + (if success m then 0 else 1))).
  { intros m. split.
    - exists m. split; [apply recordOperation_last | done].
    - eexists. split; [apply recordOperation_metrics |].
      destruct m as [d md [|] e t o]; cbn; repeat split; lia. }
  split.
  - intros Hnull Hundef.
    destruct settled as [v | [| | b | n Hn | s | e]]; try done;
      cbn [fst]; apply Hrec.
  - intros [-> | ->]; split; reflexivity.
Qed.

(** C9.  The code misses the claim where the measured function rejects
    with a falsy reason: for the reason [''] the failure is recorded
    (history and statistics), and then [measureOperation] resolves with
    [undefined] instead of re-raising; for the reason [null] it rejects
    with a [TypeError] of its own and records nothing. *)
Theorem measure_swallows_falsy_rejection operationName opts clk w :
  let rejecting (reason : JsValue) :=
    measureShared operationName
      (fun w' => (w', @Rejected string reason)) opts clk w in
  (rejecting (JsString "")).2 = Resolved None
  /\ (exists m,
        last (operationHistory (monitor (rejecting (JsString "")).1))
          = Some (mkOperationRecord operationName m (dateRecord clk))
        /\ success m = false)
  /\ (rejecting JsNull).2
     = Rejected (JsError (ErrTypeError
                            "Cannot read properties of null (reading 'message')"))
  /\ operationHistory (monitor (rejecting JsNull).1) = operationHistory (monitor w).
Proof.
  cbv zeta. split; [reflexivity |]. split; [| split; reflexivity].
  eexists. split; [apply recordOperation_last | reflexivity].
Qed.

(** The test of the repository: one successful call of 500 ms. *)
Example measure_one_call :
  let after :=
    measureShared "test" (fun w => (w, Resolved "result"%string)) []
      (mkClock 1000 0 0 0 1500 0 0) initWorld in
  after.2 = Resolved (Some "result"%string)
  /\ (count <$> metrics (monitor after.1) !! "test"%string) = Some 1
  /\ (successCount <$> metrics (monitor after.1) !! "test"%string) = Some 1
  /\ (failureCount <$> metrics (monitor after.1) !! "test"%string) = Some 0
  /\ (totalDuration <$> metrics (monitor after.1) !! "test"%string) = Some 500.
Proof. vm_compute. repeat split. Qed.

End MonitorProps.

(* ===================================================================== *)
(** * Properties of the request queue *)
(* ===================================================================== *)

Module QueueProps.
Import AIRequestQueue.

(** ** The stable sort of [add] *)

Lemma filter_none {A} (P : A -> Prop) `{forall x, Decision (P x)} (l : list A) :
  Forall (fun x => ~ P x) l -> filter P l = [].
Proof.
  induction 1 as [| x l Hx _ IH]; [reflexivity |].
  rewrite filter_cons. by rewrite decide_False.
Qed.

Lemma filter_all {A} (P : A -> Prop) `{forall x, Decision (P x)} (l : list A) :
  Forall P l -> filter P l = l.
Proof.
  induction 1 as [| x l Hx _ IH]; [reflexivity |].
  rewrite filter_cons. rewrite decide_True by done. by rewrite IH.
Qed.

(** Between two requests with a rank the comparator is the order of the
    ranks. *)
Lemma outranks_spec a b :
  hasRank a = true -> hasRank b = true ->
  (outranks a b = false <-> ranksInOrder b a)
  /\ (outranks a b = true -> ranksInOrder a b).
Proof.
  unfold hasRank, outranks, comparePriority, ranksInOrder, isNegative.
  destruct (priority a) as [x |], (priority b) as [y |]; try discriminate.
  intros _ _. rewrite Z.ltb_ge, Z.ltb_lt. lia.
Qed.

Lemma ranksInOrder_trans a b c :
  ranksInOrder a b -> ranksInOrder b c -> ranksInOrder a c.
Proof.
  unfold ranksInOrder.
  destruct (priority a), (priority b), (priority c); try done. lia.
Qed.

Lemma insertByPriority_spec r l :
  hasRank r = true ->
  inPriorityOrder l ->
  insertByPriority r l
  = filter (fun x => outranks r x = false) l
    ++ r :: filter (fun x => outranks r x = true) l.
Proof.
  intros Hr [Hranks Hs]. induction l as [| x l IH]; [reflexivity |].
  apply Forall_cons in Hranks as [Hx Hranks].
  apply StronglySorted_inv in Hs as [Hs Hall].
  destruct (outranks_spec r x Hr Hx) as [Hfalse Htrue].
  cbn [insertByPriority]. rewrite !filter_cons.
  destruct (outranks r x) eqn:Hout.
  - rewrite decide_False by done. rewrite decide_True by done.
    specialize (Htrue eq_refl).
    assert (Hbelow : Forall (fun y => outranks r y = true) l).
    { rewrite Forall_forall in Hall, Hranks. apply Forall_forall. intros y Hy.
      destruct (outranks_spec r y Hr (Hranks y Hy)) as [Hf _].
      destruct (outranks r y) eqn:E; [done |].
      pose proof (proj1 Hf eq_refl) as Hyr.
      specialize (Hall y Hy).
      revert Hout Hyr Hall. unfold outranks, comparePriority, ranksInOrder, isNegative.
      destruct (priority r), (priority x), (priority y); try done.
      rewrite Z.ltb_lt. lia. }
    rewrite (filter_none (fun y => outranks r y = false)).
    2: { eapply Forall_impl; [exact Hbelow |]. cbv beta. intros y ->. done. }
    by rewrite (filter_all (fun y => outranks r y = true)).
  - rewrite decide_True by done. rewrite decide_False by done.
    by rewrite IH.
Qed.

Lemma Forall_insertByPriority (P : Request -> Prop) r l :
  P r -> Forall P l -> Forall P (insertByPriority r l).
Proof.
  intros Hr. induction 1 as [| x l Hx Hl IH]; cbn [insertByPriority].
  - by constructor.
  - destruct (outranks r x); repeat constructor; done.
Qed.

Lemma insertByPriority_sorted r l :
  hasRank r = true ->
  inPriorityOrder l -> inPriorityOrder (insertByPriority r l).
Proof.
  intros Hr [Hranks Hs]. split; [by apply Forall_insertByPriority |].
  induction l as [| x l IH]; cbn [insertByPriority]; [repeat constructor |].
  pose proof Hranks as Hranks0.
  apply Forall_cons in Hranks as [Hx Hranks].
  destruct (outranks_spec r x Hr Hx) as [Hfalse Htrue].
  destruct (outranks r x) eqn:Hout.
  - constructor; [exact Hs |].
    apply StronglySorted_inv in Hs as [_ Hall].
    constructor; [by apply Htrue |].
    eapply Forall_impl; [exact Hall |]. cbv beta. intros y Hy.
    eapply ranksInOrder_trans; [by apply Htrue | exact Hy].
  - apply StronglySorted_inv in Hs as [Hs Hall].
    constructor; [by apply IH |].
    apply Forall_insertByPriority; [by apply Hfalse | exact Hall].
Qed.

Lemma insertByPriority_last r acc :
  Forall (fun x => outranks r x = false) acc ->
  insertByPriority r acc = acc ++ [r].
Proof.
  induction acc as [| x acc IH]; intros Hall; [reflexivity |].
  apply Forall_cons in Hall as [Hx Hall]. cbn [insertByPriority].
  rewrite Hx. by rewrite IH.
Qed.

Lemma inPriorityOrder_app_inv l1 l2 :
  inPriorityOrder (l1 ++ l2) -> inPriorityOrder l1 /\ inPriorityOrder l2.
Proof.
  intros [Hranks Hs]. apply Forall_app in Hranks as [H1 H2].
  split; (split; [done |]).
  - clear H1 H2. induction l1 as [| a l1 IH]; [constructor |].
    cbn [app] in Hs. apply StronglySorted_inv in Hs as [Hs Ha].
    constructor; [by apply IH |]. by apply Forall_app in Ha as [? _].
  - clear H1 H2. induction l1 as [| a l1 IH]; [exact Hs |].
    cbn [app] in Hs. apply StronglySorted_inv in Hs as [Hs _]. by apply IH.
Qed.

Lemma sorted_prefix_below acc x l :
  inPriorityOrder (acc ++ x :: l) ->
  Forall (fun a => outranks x a = false) acc.
Proof.
  intros [Hranks Hs]. induction acc as [| a acc IH]; [constructor |].
  cbn [app] in Hs, Hranks. apply Forall_cons in Hranks as [Ha Hranks].
  apply StronglySorted_inv in Hs as [Hs Hall].
  constructor; [| by apply IH].
  apply Forall_app in Hall as [_ Hall]. apply Forall_cons in Hall as [Hax _].
  apply Forall_app in Hranks as [_ Hranks]. apply Forall_cons in Hranks as [Hx _].
  by apply (outranks_spec x a Hx Ha).
Qed.

Lemma fold_insert_sorted l : forall acc,
  inPriorityOrder (acc ++ l) ->
  fold_left (fun sorted r => insertByPriority r sorted) l acc = acc ++ l.
Proof.
  induction l as [| x l IH]; intros acc Hs; cbn [fold_left].
  - by rewrite app_nil_r.
  - rewrite insertByPriority_last by (by eapply sorted_prefix_below).
    rewrite IH; rewrite <- app_assoc; [reflexivity | exact Hs].
Qed.

Lemma stableSort_sorted_id l : inPriorityOrder l -> stableSort l = l.
Proof. intros Hs. unfold stableSort. by rewrite fold_insert_sorted. Qed.

Lemma stableSort_snoc q r :
  stableSort (q ++ [r]) = insertByPriority r (stableSort q).
Proof. unfold stableSort. by rewrite fold_left_app. Qed.

Lemma insertByPriority_perm r l : insertByPriority r l ≡ₚ r :: l.
Proof.
  induction l as [| x l IH]; cbn [insertByPriority]; [done |].
  destruct (outranks r x); [done |].
  rewrite IH. apply Permutation_swap.
Qed.

Lemma stableSort_perm l : stableSort l ≡ₚ l.
Proof.
  induction l as [| x l IH] using rev_ind; [done |].
  rewrite stableSort_snoc, insertByPriority_perm, IH.
  by rewrite Permutation_cons_append.
Qed.

(** Whatever the engine, sorting rearranges the queue. *)
Lemma sortByPriority_perm engine l : sortByPriority engine l ≡ₚ l.
Proof.
  unfold sortByPriority. destruct (forallb hasRank l).
  - apply stableSort_perm.
  - apply sortInconsistent_perm.
Qed.

Lemma sortByPriority_ranked engine l :
  Forall (fun r => hasRank r = true) l -> sortByPriority engine l = stableSort l.
Proof.
  intros H. unfold sortByPriority.
  assert (E : forallb hasRank l = true).
  { clear engine. induction H as [| x l Hx _ IH]; [done |].
    cbn [forallb]. by rewrite Hx, IH. }
  by rewrite E.
Qed.

(** A new request goes behind every queued request of the same or a
    higher priority and in front of the lower ones. *)
Lemma push_sort_spec engine q r :
  hasRank r = true ->
  inPriorityOrder q ->
  sortByPriority engine (q ++ [r])
  = filter (fun x => outranks r x = false) q
    ++ r :: filter (fun x => outranks r x = true) q
  /\ inPriorityOrder (sortByPriority engine (q ++ [r])).
Proof.
  intros Hr Hs.
  rewrite sortByPriority_ranked
    by (apply Forall_app; split; [apply Hs | by repeat constructor]).
  rewrite stableSort_snoc, stableSort_sorted_id by done.
  split; [by apply insertByPriority_spec | by apply insertByPriority_sorted].
Qed.

(** [priorityLevels[priority] || priorityLevels.normal] is a number
    unless the name is one that the table inherits. *)
Lemma hasRank_newRequest st fn options newId now :
  hasRank (newRequest st fn options newId now) = true
  <-> isInheritedName (default "normal"%string (optPriority options)) = false.
Proof.
  unfold hasRank, newRequest, priorityLevel. cbn [priority].
  set (name := default "normal"%string (optPriority options)).
  destruct (String.eqb name "critical") eqn:E1;
    [apply String.eqb_eq in E1; rewrite E1; by split |].
  destruct (String.eqb name "high") eqn:E2;
    [apply String.eqb_eq in E2; rewrite E2; by split |].
  destruct (String.eqb name "normal") eqn:E3;
    [apply String.eqb_eq in E3; rewrite E3; by split |].
  destruct (String.eqb name "low") eqn:E4;
    [apply String.eqb_eq in E4; rewrite E4; by split |].
  destruct (isInheritedName name); by split.
Qed.

(** ** Fields untouched by the bookkeeping functions *)

Lemma recordRequest_fields st request s now :
  queue (recordRequest st request s now) = queue st
  /\ processing (recordRequest st request s now) = processing st
  /\ loop (recordRequest st request s now) = loop st
  /\ timers (recordRequest st request s now) = timers st
  /\ log (recordRequest st request s now) = log st
  /\ retryDelay (recordRequest st request s now) = retryDelay st.
Proof. repeat split. Qed.

Lemma queue_executeRequest_begin st request now :
  queue (executeRequest_begin st request now) = queue st.
Proof. reflexivity. Qed.

Lemma queue_takeNext st now : queue (takeNext st now) = tail (queue st).
Proof. unfold takeNext. by destruct (queue st). Qed.

Lemma queue_process st now :
  queue (process st now) = queue st \/ queue (process st now) = tail (queue st).
Proof.
  unfold process. destruct (_ || _); [by left | right; apply queue_takeNext].
Qed.

Lemma queue_executeRequest_settle w st request clk now :
  queue (executeRequest_settle w st request clk now).2 = queue st.
Proof.
  unfold executeRequest_settle.
  destruct (measureShared _ _ _ _ _) as [w' [result | error]]; cbn [snd].
  - reflexivity.
  - destruct (_ <? _); reflexivity.
Qed.

Lemma queue_afterExecute st : queue (afterExecute st) = queue st.
Proof. unfold afterExecute. by destruct (queue st). Qed.

Lemma queue_workDone w st clk now : queue (workDone w st clk now).2 = queue st.
Proof.
  unfold workDone. destruct (loop st); try reflexivity.
  pose proof (queue_executeRequest_settle w st request clk now) as E.
  destruct (executeRequest_settle w st request clk now) as [w' st'].
  cbn [snd] in *. by rewrite queue_afterExecute.
Qed.

Lemma inPriorityOrder_tail l : inPriorityOrder l -> inPriorityOrder (tail l).
Proof.
  destruct l as [| x l]; [done |]. intros H.
  by apply (inPriorityOrder_app_inv [x] l) in H as [_ ?].
Qed.

Lemma queue_add engine st fn options newId now :
  let pushed :=
    sortByPriority engine (queue st ++ [newRequest st fn options newId now]) in
  queue (add engine st fn options newId now)
  = if processing st then pushed else tail pushed.
Proof.
  cbv zeta. unfold add. cbn [processing recordRequest update negb].
  destruct (processing st) eqn:Hp; cbn [negb]; [reflexivity |].
  unfold process. cbn [processing recordRequest update queue orb].
  case_bool_decide as Hq.
  - by rewrite Hq.
  - by rewrite queue_takeNext.
Qed.

Lemma beforeRetry_sorted s : reachableBeforeRetry s -> inPriorityOrder (queue s.2).
Proof.
  induction 1 as [w | w st engine fn options newId now _ IH Hrank
                  | w st request clk now _ IH Hl | w st now _ IH Hl]; cbn [snd] in *.
  - split; constructor.
  - rewrite queue_add.
    destruct (push_sort_spec engine (queue st) (newRequest st fn options newId now)
                Hrank IH) as [_ Hs].
    destruct (processing st); [exact Hs | by apply inPriorityOrder_tail].
  - by rewrite queue_workDone.
  - unfold sleepDone. rewrite Hl, queue_takeNext. by apply inPriorityOrder_tail.
Qed.

Lemma awaited_takeNext st now next rest :
  queue st = next :: rest ->
  id <$> awaited (takeNext st now) = Some (id next)
  /\ (attempts <$> awaited (takeNext st now)) = Some (attempts next + 1).
Proof. intros Hq. unfold takeNext. rewrite Hq. split; reflexivity. Qed.

(** C8 (as amended).  A request gets a rank unless its priority name is
    one that the table of priority levels inherits.  As long as every
    request was added with a rank and no retry timer has fired, the
    queue is in priority order; [add] puts a new request behind every
    queued request of the same or a higher priority and in front of the
    lower ones, leaving the others in their order; and the drain loop
    takes the head of the queue, which no queued request outranks.  A
    retry timer that fires puts its request at the head of the whole
    queue (or starts it at once when the loop is idle). *)
Theorem priority_fifo_order w st engine fn options newId now :
  reachableBeforeRetry (w, st) ->
  let r := newRequest st fn options newId now in
  let pushed := sortByPriority engine (queue st ++ [r]) in
  (hasRank r = true
   <-> isInheritedName (default "normal"%string (optPriority options)) = false)
  /\ inPriorityOrder (queue st)
  /\ (hasRank r = true ->
      pushed = filter (fun x => outranks r x = false) (queue st)
               ++ r :: filter (fun x => outranks r x = true) (queue st)
      /\ Forall (fun x => ranksInOrder x r)
           (filter (fun x => outranks r x = false) (queue st))
      /\ Forall (fun x => ranksInOrder r x /\ ~ ranksInOrder x r)
           (filter (fun x => outranks r x = true) (queue st))
      /\ inPriorityOrder pushed)
  /\ queue (add engine st fn options newId now)
     = (if processing st then pushed else tail pushed)
  /\ (forall next rest,
        loop st = Sleeping -> queue st = next :: rest ->
        id <$> awaited (sleepDone st now) = Some (id next)
        /\ queue (sleepDone st now) = rest
        /\ Forall (fun x => ranksInOrder next x) rest)
  /\ (forall st' k delayMs retried,
        timers st' !! k = Some (delayMs, retried) ->
        if processing st'
        then queue (timerFire st' k now) = retried :: queue st'
        else id <$> awaited (timerFire st' k now) = Some (id retried)
             /\ queue (timerFire st' k now) = queue st').
Proof.
  intros Hreach. cbv zeta.
  pose proof (beforeRetry_sorted _ Hreach) as Hs. cbn [snd] in Hs.
  split; [apply hasRank_newRequest |].
  split; [exact Hs |]. split; [| split; [apply queue_add |]; split].
  - intros Hr.
    destruct (push_sort_spec engine (queue st) (newRequest st fn options newId now)
                Hr Hs) as [Hpush Hsorted].
    split; [exact Hpush |]. split; [| split; [| exact Hsorted]].
    + apply Forall_forall. intros x Hx. apply list_elem_of_filter in Hx as [Hout Hx].
      destruct Hs as [Hranks _]. rewrite Forall_forall in Hranks.
      by apply (outranks_spec _ x Hr (Hranks x Hx)).
    + apply Forall_forall. intros x Hx. apply list_elem_of_filter in Hx as [Hout Hx].
      destruct Hs as [Hranks _]. rewrite Forall_forall in Hranks.
      destruct (outranks_spec _ x Hr (Hranks x Hx)) as [Hfalse Htrue].
      split; [by apply Htrue |]. intros Hxr. apply Hfalse in Hxr. congruence.
  - intros next rest Hl Hq. unfold sleepDone. rewrite Hl.
    split; [by apply (awaited_takeNext _ _ next rest) |].
    split; [by rewrite queue_takeNext, Hq |].
    destruct Hs as [_ Hs]. rewrite Hq in Hs.
    by apply StronglySorted_inv in Hs as [_ ?].
  - intros st' k delayMs retried Hk. unfold timerFire. rewrite Hk.
    unfold process. cbn [processing update queue].
    destruct (processing st'); cbn [orb]; [reflexivity |].
    rewrite bool_decide_eq_false_2 by discriminate.
    split; [by eapply awaited_takeNext | by rewrite queue_takeNext].
Qed.

(** The scenario of [Scenarios.twoQueued]: a run in which every request
    has a rank and no retry timer fires. *)
Lemma twoQueued_beforeRetry : reachableBeforeRetry (initWorld, Scenarios.twoQueued).
Proof.
  unfold Scenarios.twoQueued.
  do 3 (apply beforeRetry_add; [| vm_compute; reflexivity]).
  apply beforeRetry_init.
Qed.

Lemma priority_fifo_order_witness :
  reachableBeforeRetry (initWorld, Scenarios.twoQueued)
  /\ map id (queue Scenarios.twoQueued) = ["req_3"; "req_2"]%string
  /\ inPriorityOrder (queue Scenarios.twoQueued)
  /\ map id (queue (add Scenarios.lazyEngine Scenarios.twoQueued Scenarios.hanging
                      (Scenarios.options (Some "high"%string) None) "req_4" 30))
     = ["req_3"; "req_4"; "req_2"]%string.
Proof.
  pose proof (priority_fifo_order initWorld Scenarios.twoQueued Scenarios.lazyEngine
                Scenarios.hanging (Scenarios.options (Some "high"%string) None)
                "req_4" 30 twoQueued_beforeRetry) as (_ & H1 & _ & H4 & _ & _).
  split; [exact twoQueued_beforeRetry |]. split; [vm_compute; reflexivity |].
  split; [exact H1 |].
  rewrite H4. vm_compute. reflexivity.
Defined.

Lemma can_workDone w st clk now :
  is_Some (id <$> awaited st) -> step (w, st) (workDone w st clk now).
Proof.
  intros Hs. apply fmap_is_Some in Hs as [request Hr].
  unfold awaited in Hr. destruct (loop st) eqn:Hl; try discriminate.
  by eapply step_workDone.
Qed.

Lemma can_timerFire w st k now :
  (k < List.length (timers st))%nat -> step (w, st) (w, timerFire st k now).
Proof.
  intros Hk. apply lookup_lt_is_Some_2 in Hk as [entry He].
  by eapply step_timerFire.
Qed.

(** The scenario of [Scenarios.firstCriticalDone] is a run of the queue. *)
Lemma firstCriticalDone_reachable : reachable Scenarios.firstCriticalDone.
Proof.
  assert (H1 : reachable (initWorld,
            AIService.withAISession Scenarios.lazyEngine init "Summarizer"
              (Scenarios.failingEnv "Operation timed out")
              (Scenarios.options (Some "low"%string) (Some 3)) "low" 0)).
  { eapply reachable_step; [apply reachable_init | apply step_add]. }
  assert (H2 : reachable Scenarios.lowFailed).
  { eapply reachable_step; [exact H1 |].
    apply can_workDone. vm_compute. by eexists. }
  assert (H3 : reachable (Scenarios.lowFailed.1, Scenarios.criticalQueued)).
  { eapply reachable_step; [| apply step_add].
    eapply reachable_step; [| apply step_add].
    by rewrite <- surjective_pairing. }
  assert (H4 : reachable (Scenarios.lowFailed.1, Scenarios.retryFired)).
  { eapply reachable_step; [exact H3 |].
    apply can_timerFire. vm_compute. lia. }
  eapply reachable_step; [exact H4 |].
  apply can_workDone. vm_compute. by eexists.
Qed.

(** C8 (as stated) fails once a retry is re-inserted: the low-priority
    request is put at the head of the queue and is taken before the
    critical request that was already waiting. *)
Lemma priority_order_counterexample :
  reachable Scenarios.firstCriticalDone
  /\ map id (queue Scenarios.firstCriticalDone.2) = ["low"; "critical_2"]%string
  /\ map priority (queue Scenarios.firstCriticalDone.2) = [Num 4; Num 1]
  /\ loop Scenarios.firstCriticalDone.2 = Sleeping
  /\ id <$> awaited Scenarios.nextTaken = Some "low"%string
  /\ map id (queue Scenarios.nextTaken) = ["critical_2"]%string.
Proof. split; [exact firstCriticalDone_reachable |]. vm_compute. repeat split. Qed.

End QueueProps.

Module RetryProps.
Import AIRequestQueue.

(** ** A settled execution *)

(** What [measureOperation] hands to [executeRequest]. *)
Lemma settle_outcome w request clk :
  (measureShared (operationName request)
     (fun w0 => let '(w1, work) := requestFn request (attempts request) w0 in
                (w1, raceTimeout work (timeout request)))
     [("requestId", id request); ("priority", priorityName request);
      ("attempt", string_of_Z (attempts request))]%string clk w).2
  = handedBack (raceOutcome w request clk).
Proof.
  unfold measureShared. rewrite MonitorProps.measureOperation_outcome.
  unfold raceOutcome. by destruct (requestFn request _ _).
Qed.

(** The fields that settling an execution leaves alone, and the one
    event it appends. *)
Lemma settle_shape w st request clk now :
  let st' := (executeRequest_settle w st request clk now).2 in
  queue st' = queue st /\ processing st' = processing st /\ loop st' = loop st
  /\ retryDelay st' = retryDelay st
  /\ (exists ev, log st' = log st ++ [ev] /\ eventId ev = id request)
  /\ (timers st' = timers st
      \/ exists delayMs request',
           timers st' = timers st ++ [(delayMs, request')]
           /\ id request' = id request
           /\ attempts request' = attempts request
           /\ maxRetries request' = maxRetries request
           /\ attempts request < maxRetries request).
Proof.
  cbv zeta. unfold executeRequest_settle.
  destruct (measureShared _ _ _ _ _) as [w' [result | error]]; cbn [snd].
  - do 4 (split; [reflexivity |]). split; [by eexists | by left].
  - cbn [attempts maxRetries].
    destruct (attempts request <? maxRetries request) eqn:Hlt; cbn [snd].
    + apply Z.ltb_lt in Hlt. do 4 (split; [reflexivity |]).
      split; [by eexists |]. right. eexists _, _.
      split; [reflexivity |]. repeat split. exact Hlt.
    + do 4 (split; [reflexivity |]). split; [by eexists | by left].
Qed.

(** The queue sees the reason that the work was rejected with, when it
    is truthy: the monitor passes it through. *)
Lemma settle_failure w st request clk now reason :
  raceOutcome w request clk = Rejected reason ->
  truthy reason = true ->
  let st' := (executeRequest_settle w st request clk now).2 in
  queue st' = queue st /\ processing st' = processing st /\ loop st' = loop st
  /\ retryDelay st' = retryDelay st
  /\ (attempts request < maxRetries request ->
        log st' = log st ++ [EvRetry (id request) (retryDelay st * attempts request)]
        /\ exists request',
             timers st' = timers st ++ [(retryDelay st * attempts request, request')]
             /\ id request' = id request /\ attempts request' = attempts request
             /\ maxRetries request' = maxRetries request
             /\ requestFn request' = requestFn request
             /\ timeout request' = timeout request
             /\ priority request' = priority request)
  /\ (maxRetries request <= attempts request ->
        log st' = log st ++ [EvReject (id request) reason]
        /\ timers st' = timers st).
Proof.
  intros Hfail Htruthy. cbv zeta.
  pose proof (settle_outcome w request clk) as Hout.
  rewrite Hfail in Hout. unfold handedBack, surfaced in Hout.
  assert (Hthrown : (match reason with
                     | JsUndefined | JsNull => Some (JsError (readMessageError reason))
                     | _ => if truthy reason then Some reason else None
                     end) = Some reason).
  { destruct reason; try discriminate Htruthy; by rewrite ?Htruthy. }
  rewrite Hthrown in Hout. clear Hthrown.
  unfold executeRequest_settle.
  destruct (measureShared _ _ _ _ _) as [w' settled].
  cbn [snd] in Hout. subst settled.
  cbn [attempts maxRetries id].
  destruct (attempts request <? maxRetries request) eqn:Hlt;
    [apply Z.ltb_lt in Hlt | apply Z.ltb_ge in Hlt]; cbn [snd].
  - do 4 (split; [reflexivity |]). split; [| lia].
    intros _. split; [reflexivity |]. eexists. split; [reflexivity |].
    repeat split.
  - do 4 (split; [reflexivity |]). split; [lia |].
    intros _. split; reflexivity.
Qed.

Lemma afterExecute_empty st :
  queue st = [] ->
  loop (afterExecute st) = Idle /\ processing (afterExecute st) = false
  /\ queue (afterExecute st) = [] /\ timers (afterExecute st) = timers st
  /\ log (afterExecute st) = log st /\ retryDelay (afterExecute st) = retryDelay st.
Proof. intros Hq. unfold afterExecute. rewrite Hq. repeat split. Qed.

Lemma afterExecute_fields st :
  timers (afterExecute st) = timers st /\ log (afterExecute st) = log st
  /\ queue (afterExecute st) = queue st
  /\ retryDelay (afterExecute st) = retryDelay st.
Proof. unfold afterExecute. destruct (queue st) eqn:E; repeat split; by rewrite ?E. Qed.


(** C3 (as amended).  When the execution that the loop awaits fails (the
    race of the request function and the timeout is rejected with a
    truthy reason), the queue schedules another attempt exactly when
    the attempts made so far are fewer than [maxRetries], whatever the
    reason and its classification; otherwise it rejects the caller's
    promise with that same reason and schedules nothing. *)
Theorem failure_retry_rule w st request clk now reason :
  loop st = AwaitingExecute request ->
  raceOutcome w request clk = Rejected reason ->
  truthy reason = true ->
  let st' := (workDone w st clk now).2 in
  (attempts request < maxRetries request ->
     log st' = log st ++ [EvRetry (id request) (retryDelay st * attempts request)]
     /\ exists request',
          timers st' = timers st ++ [(retryDelay st * attempts request, request')]
          /\ id request' = id request /\ attempts request' = attempts request)
  /\ (maxRetries request <= attempts request ->
     log st' = log st ++ [EvReject (id request) reason]
     /\ timers st' = timers st).
Proof.
  intros Hl Hfail Htruthy. cbv zeta. unfold workDone. rewrite Hl.
  pose proof (settle_failure w st request clk now reason Hfail Htruthy) as Hs.
  cbv zeta in Hs.
  destruct (executeRequest_settle w st request clk now) as [w' st1].
  cbn [snd] in *. destruct Hs as (_ & _ & _ & _ & Hretry & Hreject).
  destruct (afterExecute_fields st1) as (Ht & Hlog & _). rewrite Ht, Hlog.
  split.
  - intros Hlt. destruct (Hretry Hlt) as (Hlg & request' & Htm & Hid & Hat & _).
    split; [exact Hlg |]. by exists request'.
  - exact Hreject.
Qed.

(** ** The attempt budget under arbitrary traffic *)

Lemma Forall_sortByPriority engine (P : Request -> Prop) l :
  Forall P l -> Forall P (sortByPriority engine l).
Proof. intros H. by rewrite QueueProps.sortByPriority_perm. Qed.

Lemma withinBudget_takeNext st now :
  withinBudget st -> withinBudget (takeNext st now).
Proof.
  intros (Hq & Ht & _). unfold takeNext.
  destruct (queue st) as [| request rest] eqn:Hqueue.
  - split; [constructor |]. split; [exact Ht |]. intros r Hl. discriminate.
  - apply Forall_cons in Hq as [[H0 Hr] Hrest].
    split; [exact Hrest |]. split; [exact Ht |].
    intros r Hl. cbn in Hl. injection Hl as <-. cbn [attempts maxRetries]. lia.
Qed.

Lemma withinBudget_process st now :
  withinBudget st -> withinBudget (process st now).
Proof.
  intros H. unfold process. destruct (_ || _); [exact H |].
  by apply withinBudget_takeNext.
Qed.

Lemma withinBudget_afterExecute st :
  Forall (fun r => 0 <= attempts r /\ (attempts r = 0 \/ attempts r < maxRetries r))
    (queue st) ->
  Forall (fun entry => 1 <= attempts entry.2 < maxRetries entry.2) (timers st) ->
  withinBudget (afterExecute st).
Proof.
  intros Hq Ht. unfold afterExecute.
  destruct (queue st) eqn:Hqueue; (split; [| split]); cbn; done.
Qed.

Lemma withinBudget_step s s' : step s s' -> withinBudget s.2 -> withinBudget s'.2.
Proof.
  intros Hstep Hb.
  destruct Hstep as [w st engine fn options newId now | w st request clk now Hl
                    | w st now Hl | w st k entry now Hk]; cbn [snd] in *.
  - destruct Hb as (Hq & Ht & Hl).
    assert (Hpushed : withinBudget
              (recordRequest
                 (update st
                    (sortByPriority engine
                       (queue st ++ [newRequest st fn options newId now]))
                    (processing st) (activeRequests st) (loop st) (timers st) (log st))
                 (newRequest st fn options newId now) StQueued now)).
    { split; [| split; [exact Ht | exact Hl]].
      cbn [queue recordRequest update]. apply Forall_sortByPriority.
      apply Forall_app. split; [exact Hq |].
      constructor; [| constructor]. cbn. lia. }
    unfold add. destruct (negb _); [by apply withinBudget_process | exact Hpushed].
  - destruct Hb as (Hq & Ht & Haw). specialize (Haw request Hl).
    unfold workDone. rewrite Hl.
    pose proof (settle_shape w st request clk now) as He. cbv zeta in He.
    destruct (executeRequest_settle w st request clk now) as [w' st1].
    cbn [snd] in *. destruct He as (Hq1 & _ & _ & _ & _ & Ht1).
    apply withinBudget_afterExecute; [by rewrite Hq1 |].
    destruct Ht1 as [-> | (delayMs & request' & -> & _ & Hat & Hmax & Hlt)];
      [exact Ht |].
    apply Forall_app. split; [exact Ht |].
    constructor; [| constructor]. cbn [snd]. lia.
  - unfold sleepDone. rewrite Hl. by apply withinBudget_takeNext.
  - destruct Hb as (Hq & Ht & Haw). unfold timerFire. rewrite Hk.
    destruct entry as [delayMs request].
    apply withinBudget_process. split; [| split; [| exact Haw]].
    + cbn [queue update]. constructor; [| exact Hq].
      eapply Forall_lookup_1 in Hk; [| exact Ht]. cbn [snd] in Hk. lia.
    + cbn [timers update]. by apply Forall_delete.
Qed.

(** Whatever else the queue is doing, the request being executed is at
    its first attempt or within its budget. *)
Lemma reachable_withinBudget s : reachable s -> withinBudget s.2.
Proof.
  induction 1 as [w | s s' _ IH Hstep].
  - split; [constructor |]. split; [constructor |]. intros r Hl. discriminate.
  - by eapply withinBudget_step.
Qed.

(** ** One turn of the event loop *)

Lemma takeNext_nil st now :
  queue st = [] ->
  loop (takeNext st now) = Idle /\ processing (takeNext st now) = false
  /\ queue (takeNext st now) = [] /\ timers (takeNext st now) = timers st
  /\ log (takeNext st now) = log st
  /\ retryDelay (takeNext st now) = retryDelay st.
Proof. intros Hq. unfold takeNext. rewrite Hq. repeat split. Qed.

Lemma takeNext_cons st now r rest :
  queue st = r :: rest ->
  exists r',
    loop (takeNext st now) = AwaitingExecute r'
    /\ id r' = id r /\ attempts r' = attempts r + 1
    /\ maxRetries r' = maxRetries r
    /\ requestFn r' = requestFn r /\ timeout r' = timeout r
    /\ processing (takeNext st now) = true /\ queue (takeNext st now) = rest
    /\ timers (takeNext st now) = timers st
    /\ log (takeNext st now) = log st ++ [EvExecute (id r) (attempts r + 1)]
    /\ retryDelay (takeNext st now) = retryDelay st.
Proof. intros Hq. unfold takeNext. rewrite Hq. eexists. repeat split. Qed.

(** What [workDone] leaves behind. *)
Lemma workDone_shape w st request clk now :
  loop st = AwaitingExecute request ->
  let st' := (workDone w st clk now).2 in
  queue st' = queue st /\ retryDelay st' = retryDelay st
  /\ ((queue st = [] /\ loop st' = Idle /\ processing st' = false)
      \/ (queue st <> [] /\ loop st' = Sleeping /\ processing st' = processing st))
  /\ (exists ev, log st' = log st ++ [ev] /\ eventId ev = id request)
  /\ (timers st' = timers st
      \/ exists delayMs request',
           timers st' = timers st ++ [(delayMs, request')]
           /\ id request' = id request
           /\ attempts request' = attempts request
           /\ maxRetries request' = maxRetries request
           /\ attempts request < maxRetries request).
Proof.
  intros Hl. cbv zeta. unfold workDone. rewrite Hl.
  pose proof (settle_shape w st request clk now) as Hs. cbv zeta in Hs.
  destruct (executeRequest_settle w st request clk now) as [w' st1].
  cbn [snd] in *. destruct Hs as (Hq & Hp & _ & Hrd & Hlog & Ht).
  destruct (afterExecute_fields st1) as (Ht' & Hlog' & Hq' & Hrd').
  rewrite Ht', Hlog', Hq', Hrd'.
  split; [exact Hq |]. split; [exact Hrd |]. split; [| by split].
  unfold afterExecute. rewrite <- Hq, <- Hp.
  destruct (queue st1); [left | right]; by repeat split.
Qed.

(** What [workDone] does with a failed execution. *)
Lemma workDone_failure w st request clk now reason :
  loop st = AwaitingExecute request ->
  raceOutcome w request clk = Rejected reason ->
  truthy reason = true ->
  let st' := (workDone w st clk now).2 in
  (attempts request < maxRetries request ->
     log st' = log st ++ [EvRetry (id request) (retryDelay st * attempts request)]
     /\ exists request',
          timers st' = timers st ++ [(retryDelay st * attempts request, request')]
          /\ id request' = id request /\ attempts request' = attempts request
          /\ maxRetries request' = maxRetries request
          /\ requestFn request' = requestFn request
          /\ timeout request' = timeout request)
  /\ (maxRetries request <= attempts request ->
     log st' = log st ++ [EvReject (id request) reason]
     /\ timers st' = timers st).
Proof.
  intros Hl Hfail Htruthy. cbv zeta. unfold workDone. rewrite Hl.
  pose proof (settle_failure w st request clk now reason Hfail Htruthy) as Hs.
  cbv zeta in Hs.
  destruct (executeRequest_settle w st request clk now) as [w' st1].
  cbn [snd] in *. destruct Hs as (_ & _ & _ & _ & Hretry & Hreject).
  destruct (afterExecute_fields st1) as (Ht & Hlog & _). rewrite Ht, Hlog.
  split; [| exact Hreject].
  intros Hlt.
  destruct (Hretry Hlt) as (Hlg & request' & Htm & Hid & Hat & Hmax & Hfn & Hto & _).
  split; [exact Hlg |]. by exists request'.
Qed.

Lemma sortByPriority_nonempty engine q r : sortByPriority engine (q ++ [r]) <> [].
Proof.
  intros H. pose proof (QueueProps.sortByPriority_perm engine (q ++ [r])) as Hp.
  rewrite H in Hp. apply Permutation_nil_l in Hp. symmetry in Hp.
  by apply app_eq_nil in Hp as [_ ?].
Qed.

Lemma loopConsistent_takeNext st now : loopConsistent (takeNext st now).
Proof.
  unfold loopConsistent. destruct (queue st) as [| r rest] eqn:Hq.
  - by destruct (takeNext_nil st now Hq) as (-> & -> & -> & _).
  - by destruct (takeNext_cons st now r rest Hq) as (r' & -> & _ & _ & _ & _ & _ & -> & _).
Qed.

Lemma loopConsistent_busy st st' :
  loopConsistent st -> processing st = true ->
  loop st' = loop st -> processing st' = true -> loopConsistent st'.
Proof.
  unfold loopConsistent. intros Hc Hp -> ->.
  destruct (loop st); [| done | done]. destruct Hc; congruence.
Qed.

Lemma loopConsistent_step s s' :
  step s s' -> loopConsistent s.2 -> loopConsistent s'.2.
Proof.
  intros Hstep Hc.
  destruct Hstep as [w st engine fn options newId now | w st request clk now Hl
                    | w st now Hl | w st k entry now Hk]; cbn [snd] in *.
  - unfold add. cbn [processing recordRequest update].
    destruct (processing st) eqn:Hp; cbn [negb].
    + by apply (loopConsistent_busy st).
    + unfold process. cbn [processing recordRequest update queue orb].
      rewrite bool_decide_eq_false_2 by apply sortByPriority_nonempty.
      apply loopConsistent_takeNext.
  - destruct (workDone_shape w st request clk now Hl) as (_ & _ & Hcases & _).
    unfold loopConsistent in *. rewrite Hl in Hc.
    destruct Hcases as [(Hq & -> & ->) | (_ & -> & ->)]; [| done].
    split; [done |]. by rewrite QueueProps.queue_workDone.
  - unfold sleepDone. rewrite Hl. apply loopConsistent_takeNext.
  - unfold timerFire. rewrite Hk. destruct entry as [delayMs request].
    unfold process. cbn [processing update queue].
    destruct (processing st) eqn:Hp; cbn [orb].
    + by apply (loopConsistent_busy st).
    + rewrite bool_decide_eq_false_2 by discriminate.
      apply loopConsistent_takeNext.
Qed.

Lemma reachable_loopConsistent s : reachable s -> loopConsistent s.2.
Proof.
  induction 1 as [w | s s' _ IH Hstep]; [by split | by eapply loopConsistent_step].
Qed.

Lemma retryDelay_step s s' : step s s' -> retryDelay s'.2 = retryDelay s.2.
Proof.
  intros Hstep.
  destruct Hstep as [w st engine fn options newId now | w st request clk now Hl
                    | w st now Hl | w st k entry now Hk]; cbn [snd] in *.
  - unfold add. cbn [processing recordRequest update].
    destruct (negb _); [| reflexivity].
    unfold process. destruct (_ || _); [reflexivity |].
    unfold takeNext. by destruct (queue _).
  - by destruct (workDone_shape w st request clk now Hl) as (_ & -> & _).
  - unfold sleepDone. rewrite Hl. unfold takeNext. by destruct (queue _).
  - unfold timerFire. rewrite Hk. destruct entry as [delayMs request].
    unfold process. destruct (_ || _); [reflexivity |].
    unfold takeNext. by destruct (queue _).
Qed.


(** A turn of the event loop is a step of the queue. *)
Lemma advance_step s t s' : advance s t = Some s' -> step s s'.
Proof.
  destruct s as [w st]. unfold advance.
  destruct (loop st) as [| request |] eqn:Hl.
  - destruct (timers st) as [| entry rest] eqn:Ht; [discriminate |].
    intros [= <-]. eapply step_timerFire. by rewrite Ht.
  - intros [= <-]. by eapply step_workDone.
  - intros [= <-]. by apply step_sleepDone.
Qed.

Lemma advance_None w st t :
  loopConsistent st -> advance (w, st) t = None -> quiescent st.
Proof.
  unfold advance, loopConsistent, quiescent.
  destruct (loop st); [| discriminate | discriminate].
  destruct (timers st); [| discriminate]. intros [Hp Hq] _. done.
Qed.

(** ** The event loop comes to rest *)

Lemma executionsLeft_next r r' :
  attempts r' = attempts r + 1 -> maxRetries r' = maxRetries r ->
  (2 + 3 * Z.to_nat (Z.max 0 (maxRetries r' - attempts r')) < 3 * executionsLeft r)%nat.
Proof. unfold executionsLeft. intros -> ->. lia. Qed.

Lemma sum_executionsLeft_cons r l :
  sum_list (executionsLeft <$> r :: l)
  = (executionsLeft r + sum_list (executionsLeft <$> l))%nat.
Proof. reflexivity. Qed.

Lemma turnsLeft_takeNext st now :
  (turnsLeft (takeNext st now)
   <= 3 * sum_list (executionsLeft <$> queue st)
      + 3 * sum_list (executionsLeft <$> (snd <$> timers st)))%nat
  /\ (queue st <> [] ->
      (turnsLeft (takeNext st now)
       < 3 * sum_list (executionsLeft <$> queue st)
         + 3 * sum_list (executionsLeft <$> (snd <$> timers st)))%nat).
Proof.
  unfold turnsLeft.
  destruct (queue st) as [| r rest] eqn:Hq.
  - destruct (takeNext_nil st now Hq) as (-> & _ & -> & -> & _).
    cbn [fmap list_fmap sum_list_with]. split; [lia | done].
  - destruct (takeNext_cons st now r rest Hq)
      as (r' & -> & _ & Hat & Hmax & _ & _ & _ & -> & -> & _).
    pose proof (executionsLeft_next r r' Hat Hmax) as Hlt.
    rewrite sum_executionsLeft_cons. split; [lia | intros _; lia].
Qed.

(** Every turn brings the queue closer to rest. *)
Lemma turnsLeft_advance w st t s' :
  loopConsistent st ->
  advance (w, st) t = Some s' ->
  (turnsLeft s'.2 < turnsLeft st)%nat.
Proof.
  intros Hc. unfold advance.
  destruct (loop st) as [| request |] eqn:Hl.
  - destruct (timers st) as [| [delayMs r0] rest] eqn:Ht; [discriminate |].
    intros [= <-]. cbn [snd].
    unfold loopConsistent in Hc. rewrite Hl in Hc. destruct Hc as [Hp Hq].
    unfold timerFire. rewrite Ht. cbn [lookup list_lookup].
    unfold process. cbn [processing update queue]. rewrite Hp. cbn [orb].
    rewrite bool_decide_eq_false_2 by discriminate.
    match goal with
    | |- (turnsLeft (takeNext ?st1 _) < _)%nat =>
        destruct (turnsLeft_takeNext st1 (tickNow t)) as [_ Hlt];
        specialize (Hlt ltac:(discriminate));
        eapply Nat.lt_le_trans; [exact Hlt |]
    end.
    cbn [queue timers update delete list_delete]. unfold turnsLeft.
    rewrite Hl, Ht, Hq. rewrite (fmap_cons snd), !sum_executionsLeft_cons.
    cbn [snd fmap list_fmap sum_list_with]. lia.
  - intros [= <-].
    destruct (workDone_shape w st request (tickClock t) (tickNow t) Hl)
      as (Hq & _ & Hloop & _ & Htimers).
    unfold turnsLeft. rewrite Hq, Hl.
    assert (Hw : (match loop (workDone w st (tickClock t) (tickNow t)).2 with
                  | Idle => 0
                  | Sleeping => 1
                  | AwaitingExecute r =>
                      2 + 3 * Z.to_nat (Z.max 0 (maxRetries r - attempts r))
                  end <= 1)%nat).
    { destruct Hloop as [(_ & -> & _) | (_ & -> & _)]; lia. }
    destruct Htimers as [-> | (d & r' & -> & _ & Hat & Hmax & Hlt)]; [lia |].
    rewrite !fmap_app, sum_list_with_app.
    change (executionsLeft <$> (snd <$> [(d, r')])) with (executionsLeft <$> [r']).
    rewrite sum_executionsLeft_cons.
    cbn [fmap list_fmap sum_list_with]. unfold executionsLeft.
    rewrite Hat, Hmax. lia.
  - intros [= <-]. cbn [snd]. unfold sleepDone. rewrite Hl.
    destruct (turnsLeft_takeNext st (tickNow t)) as [Hle _].
    unfold turnsLeft at 2. rewrite Hl. lia.
Qed.

Lemma run_rest fuel ticks k s :
  (forall t, advance s t = None) -> run fuel ticks k s = s.
Proof. intros H. destruct fuel; cbn [run]; [done |]. by rewrite H. Qed.

Lemma advance_None_any s t t' : advance s t = None -> advance s t' = None.
Proof.
  destruct s as [w st]. unfold advance. destruct (loop st); try discriminate.
  by destruct (timers st).
Qed.

(** With enough turns the event loop comes to rest, whatever the
    requests do. *)
Lemma run_quiescent fuel : forall ticks k w st,
  loopConsistent st -> (turnsLeft st <= fuel)%nat ->
  quiescent (run fuel ticks k (w, st)).2.
Proof.
  induction fuel as [| fuel IH]; intros ticks k w st Hc Hfuel; cbn [run].
  - destruct (advance (w, st) (ticks k)) as [s' |] eqn:Hadv.
    + pose proof (turnsLeft_advance w st _ s' Hc Hadv). lia.
    + by eapply advance_None.
  - destruct (advance (w, st) (ticks k)) as [[w' st'] |] eqn:Hadv.
    + pose proof (turnsLeft_advance w st _ _ Hc Hadv) as Hlt. cbn [snd] in Hlt.
      apply IH; [| lia].
      apply (loopConsistent_step (w, st) (w', st')); [| exact Hc].
      by eapply advance_step.
    + by eapply advance_None.
Qed.

(** ** Following one request through the queue *)

Lemma withId_cons_eq rid r l : id r = rid -> withId rid (r :: l) = r :: withId rid l.
Proof. intros H. unfold withId. by rewrite filter_cons_True. Qed.

Lemma withId_cons_ne rid r l : id r <> rid -> withId rid (r :: l) = withId rid l.
Proof. intros H. unfold withId. by rewrite filter_cons_False. Qed.

Lemma withId_app rid l1 l2 : withId rid (l1 ++ l2) = withId rid l1 ++ withId rid l2.
Proof. unfold withId. apply filter_app. Qed.

Lemma eventsOf_snoc rid l ev :
  eventsOf rid (l ++ [ev])
  = eventsOf rid l ++ (if decide (eventId ev = rid) then [ev] else []).
Proof.
  unfold eventsOf. by rewrite filter_app.
Qed.

Lemma eventsOf_snoc_own rid l ev :
  eventId ev = rid -> eventsOf rid (l ++ [ev]) = eventsOf rid l ++ [ev].
Proof. intros H. by rewrite eventsOf_snoc, decide_True. Qed.

Lemma eventsOf_snoc_other rid l ev :
  eventId ev <> rid -> eventsOf rid (l ++ [ev]) = eventsOf rid l.
Proof. intros H. by rewrite eventsOf_snoc, decide_False, app_nil_r. Qed.

Lemma retriedLog_snoc rid rd n : forall k,
  retriedLog rid rd (S n) k
  = retriedLog rid rd n k
    ++ [EvExecute rid (k + Z.of_nat n); EvRetry rid (rd * (k + Z.of_nat n))].
Proof.
  induction n as [| n IH]; intros k.
  - cbn [retriedLog app Z.of_nat]. by rewrite Z.add_0_r.
  - change (retriedLog rid rd (S (S n)) k)
      with (EvExecute rid k :: EvRetry rid (rd * k) :: retriedLog rid rd (S n) (k + 1)).
    rewrite IH. cbn [retriedLog app].
    replace (k + 1 + Z.of_nat n) with (k + Z.of_nat (S n)) by lia. reflexivity.
Qed.

Lemma retriedLog_rejected rid rd err n : forall k,
  retriedLog rid rd n k
    ++ [EvExecute rid (k + Z.of_nat n); EvReject rid (err (k + Z.of_nat n))]
  = EvExecute rid k :: failureLog rid rd err n k.
Proof.
  induction n as [| n IH]; intros k.
  - cbn [retriedLog failureLog app Z.of_nat]. by rewrite Z.add_0_r.
  - cbn [retriedLog failureLog app].
    replace (k + Z.of_nat (S n)) with (k + 1 + Z.of_nat n) by lia.
    by rewrite IH.
Qed.

Section AlwaysFailing.
Variables (rid : string) (fn : Z -> World -> World * WorkResult Result).
Variables (maxAttempts timeoutMs retryDelayMs : Z) (err : Z -> JsValue).
Variable before : list QueueEvent.
Hypothesis fails : forall n w0, raceTimeout (fn n w0).2 timeoutMs = Rejected (err n).
Hypothesis failsTruthy : forall n, truthy (err n) = true.

Let tracked := phase rid fn maxAttempts timeoutMs retryDelayMs err before.

(** A change that does not concern the request. *)
Lemma phase_frame_loop st st' :
  withId rid (queue st') = withId rid (queue st) ->
  withId rid (snd <$> timers st') = withId rid (snd <$> timers st) ->
  loop st' = loop st ->
  eventsOf rid (log st') = eventsOf rid (log st) ->
  tracked st -> tracked st'.
Proof.
  intros Hq Ht Hl Hlog Hph.
  assert (Ha : awaitedList st' = awaitedList st)
    by (unfold awaitedList; by rewrite Hl).
  destruct Hph as [a r H1 H2 H3 Hown H0 Hlt Hev | a r H1 H2 H3 Hown Hlt Hev
                  | a r H1 H2 Hl0 Hown H0 Hlt Hev | (H1 & H2 & H3) Hev].
  - eapply phase_queued; eauto; congruence.
  - eapply phase_scheduled; eauto; congruence.
  - eapply phase_awaited; eauto; congruence.
  - apply phase_done; [| congruence]. repeat split; congruence.
Qed.

Lemma phase_frame st st' :
  withId rid (queue st') = withId rid (queue st) ->
  withId rid (snd <$> timers st') = withId rid (snd <$> timers st) ->
  withId rid (awaitedList st) = [] ->
  withId rid (awaitedList st') = [] ->
  eventsOf rid (log st') = eventsOf rid (log st) ->
  tracked st -> tracked st'.
Proof.
  intros Hq Ht Ha Ha' Hlog Hph.
  destruct Hph as [a r H1 H2 H3 Hown H0 Hlt Hev | a r H1 H2 H3 Hown Hlt Hev
                  | a r H1 H2 Hl Hown H0 Hlt Hev | (H1 & H2 & H3) Hev].
  - eapply phase_queued; eauto; congruence.
  - eapply phase_scheduled; eauto; congruence.
  - unfold awaitedList in Ha. rewrite Hl in Ha.
    rewrite withId_cons_eq in Ha by apply Hown. discriminate.
  - apply phase_done; [| congruence]. repeat split; congruence.
Qed.

Lemma phase_takeNext st now :
  withId rid (awaitedList st) = [] -> tracked st -> tracked (takeNext st now).
Proof.
  intros Ha Hph. destruct (queue st) as [| r0 rest] eqn:Hq.
  - destruct (takeNext_nil st now Hq) as (Hl & _ & Hq' & Ht & Hlog & _).
    apply (phase_frame st); try congruence.
    unfold awaitedList. by rewrite Hl.
  - destruct (takeNext_cons st now r0 rest Hq)
      as (r' & Hl & Hid & Hat & Hmax & Hfn & Hto & _ & Hq' & Ht & Hlog & _).
    destruct (decide (id r0 = rid)) as [Hown0 | Hother].
    + destruct Hph as [a r H1 H2 H3 Hown H0 Hlt Hev | a r H1 H2 H3 Hown Hlt Hev
                      | a r H1 H2 Hl0 Hown H0 Hlt Hev | (H1 & H2 & H3) Hev];
        rewrite Hq, withId_cons_eq in H1 by done; try discriminate.
      injection H1 as <- Hrest.
      destruct Hown as (_ & Hfn0 & Hmax0 & Hto0 & Hat0).
      apply (phase_awaited _ _ _ _ _ _ _ _ (a + 1) r'); try congruence; try lia.
      * repeat split; congruence.
      * rewrite Hlog, eventsOf_snoc_own by done. rewrite Hev, Hown0, Hat0.
        replace (a + 1 - 1) with a by lia. by rewrite <- app_assoc.
    + apply (phase_frame st); try done.
      * by rewrite Hq', Hq, withId_cons_ne.
      * by rewrite Ht.
      * unfold awaitedList. rewrite Hl. apply withId_cons_ne. congruence.
      * rewrite Hlog. by apply eventsOf_snoc_other.
Qed.

(** A retry timer fires: its request goes to the head of the queue. *)
Lemma phase_timer st k delayMs r0 :
  timers st !! k = Some (delayMs, r0) ->
  tracked st ->
  tracked (update st (r0 :: queue st) (processing st) (activeRequests st) (loop st)
             (delete k (timers st)) (log st)).
Proof.
  intros Hk Hph.
  assert (Hsplit : timers st
                   = take k (timers st) ++ (delayMs, r0) :: drop (S k) (timers st))
    by (symmetry; by apply take_drop_middle).
  assert (Hdel : delete k (timers st) = take k (timers st) ++ drop (S k) (timers st))
    by apply delete_take_drop.
  assert (Hall : withId rid (snd <$> timers st)
                 = withId rid (snd <$> take k (timers st))
                   ++ withId rid (r0 :: (snd <$> drop (S k) (timers st)))).
  { rewrite Hsplit at 1. by rewrite fmap_app, withId_app, fmap_cons. }
  assert (Hrest : withId rid (snd <$> delete k (timers st))
                  = withId rid (snd <$> take k (timers st))
                    ++ withId rid (snd <$> drop (S k) (timers st))).
  { by rewrite Hdel, fmap_app, withId_app. }
  destruct (decide (id r0 = rid)) as [Hown0 | Hother].
  - rewrite withId_cons_eq in Hall by done.
    destruct Hph as [a r H1 H2 H3 Hown H0 Hlt Hev | a r H1 H2 H3 Hown Hlt Hev
                    | a r H1 H2 Hl0 Hown H0 Hlt Hev | (H1 & H2 & H3) Hev];
      rewrite H2 in Hall;
      try (by destruct (withId rid (snd <$> take k (timers st)))).
    destruct (withId rid (snd <$> take k (timers st))) as [| x l] eqn:Htake;
      [| by destruct l].
    cbn [app] in Hall. injection Hall as -> Hdrop.
    apply (phase_queued _ _ _ _ _ _ _ _ a r0); try done; try lia.
    + cbn [queue update]. by rewrite withId_cons_eq, H1.
    + cbn [timers update]. rewrite Hrest. cbn [app]. by rewrite <- Hdrop.
  - rewrite withId_cons_ne in Hall by done.
    apply (phase_frame_loop st); try done.
    + cbn [queue update]. by apply withId_cons_ne.
    + cbn [timers update]. by rewrite Hrest, Hall.
Qed.

Lemma phase_workDone w st clk now r0 :
  loop st = AwaitingExecute r0 ->
  retryDelay st = retryDelayMs ->
  tracked st -> tracked (workDone w st clk now).2.
Proof.
  intros Hl Hrd Hph.
  destruct (workDone_shape w st r0 clk now Hl)
    as (Hq & _ & Hloop & (ev & Hlog & Hev) & Htimers).
  assert (Ha' : withId rid (awaitedList (workDone w st clk now).2) = []).
  { unfold awaitedList. by destruct Hloop as [(_ & -> & _) | (_ & -> & _)]. }
  destruct (decide (id r0 = rid)) as [Hown0 | Hother].
  - destruct Hph as [a r H1 H2 H3 Hown H0 Hlt Hevs | a r H1 H2 H3 Hown Hlt Hevs
                    | a r H1 H2 Hl0 Hown H0 Hlt Hevs | (H1 & H2 & H3) Hevs].
    1, 2, 4: unfold awaitedList in H3; rewrite Hl, withId_cons_eq in H3 by done;
      discriminate.
    rewrite Hl in Hl0. injection Hl0 as <-.
    destruct Hown as (_ & Hfn0 & Hmax0 & Hto0 & Hat0).
    assert (Hout : raceOutcome w r0 clk = Rejected (err a)).
    { unfold raceOutcome. rewrite Hfn0, Hto0, Hat0. apply fails. }
    destruct (workDone_failure w st r0 clk now (err a) Hl Hout (failsTruthy a))
      as [Hretry Hreject].
    rewrite Hmax0, Hat0, Hown0 in Hretry, Hreject. rewrite Hrd in Hretry.
    destruct (decide (a < maxAttempts)) as [Hmore | Hlast].
    + destruct (Hretry Hmore) as (Hlog' & r' & Ht' & Hid' & Hat' & Hmax' & Hfn' & Hto').
      apply (phase_scheduled _ _ _ _ _ _ _ _ a r'); try lia.
      * by rewrite Hq.
      * rewrite Ht', fmap_app, withId_app, H2. cbn [fmap list_fmap snd app].
        by rewrite withId_cons_eq by congruence.
      * exact Ha'.
      * repeat split; congruence.
      * rewrite Hlog', eventsOf_snoc_own by done. rewrite Hevs, <- !app_assoc.
        f_equal. replace (Z.to_nat a) with (S (Z.to_nat (a - 1))) by lia.
        rewrite retriedLog_snoc. cbn [app].
        by replace (1 + Z.of_nat (Z.to_nat (a - 1))) with a by lia.
    + destruct Hreject as [Hlog' Ht']; [lia |].
      apply phase_done.
      * split; [by rewrite Hq |]. split; [by rewrite Ht' | exact Ha'].
      * rewrite Hlog', eventsOf_snoc_own by done. rewrite Hevs, <- !app_assoc.
        f_equal. cbn [app].
        assert (Ea : a = Z.max 1 maxAttempts) by lia.
        rewrite <- (retriedLog_rejected rid retryDelayMs err).
        rewrite <- Ea.
        by replace (1 + Z.of_nat (Z.to_nat (a - 1))) with a by lia.
  - apply (phase_frame st); try done.
    + by rewrite Hq.
    + destruct Htimers as [-> | (d & r' & -> & Hid' & _)]; [done |].
      rewrite fmap_app, withId_app. cbn [fmap list_fmap snd].
      rewrite withId_cons_ne by congruence. by rewrite app_nil_r.
    + unfold awaitedList. rewrite Hl. by apply withId_cons_ne.
    + rewrite Hlog. apply eventsOf_snoc_other. congruence.
Qed.

(** Another request is added. *)
Lemma phase_add_other engine st fn' options newId now :
  newId <> rid -> loopConsistent st ->
  tracked st -> tracked (add engine st fn' options newId now).
Proof.
  intros Hne Hc Hph. unfold add.
  set (request := newRequest st fn' options newId now).
  set (st2 := recordRequest _ request StQueued now).
  assert (Hq2 : withId rid (queue st2) = withId rid (queue st)).
  { assert (Hp : withId rid (queue st2) ≡ₚ withId rid (queue st ++ [request])).
    { unfold withId. cbn [st2 queue recordRequest update].
      by rewrite QueueProps.sortByPriority_perm. }
    rewrite withId_app, (withId_cons_ne rid request []), app_nil_r in Hp by done.
    destruct (withId rid (queue st)) as [| x [| y l]] eqn:E.
    - by apply Permutation_nil_r in Hp.
    - by apply Permutation_singleton_r in Hp.
    - pose proof Hph as Hph'.
      destruct Hph' as [a r H1 H2 H3 Hown H0 Hlt Hev | a r H1 H2 H3 Hown Hlt Hev
                       | a r H1 H2 Hl0 Hown H0 Hlt Hev | (H1 & H2 & H3) Hev];
        congruence. }
  assert (Hph2 : tracked st2) by (by apply (phase_frame_loop st)).
  change (processing st2) with (processing st).
  destruct (processing st) eqn:Hp; cbn [negb]; [exact Hph2 |].
  unfold process. change (processing st2) with false.
  cbn [orb]. rewrite bool_decide_eq_false_2
    by (cbn [st2 queue recordRequest update]; apply sortByPriority_nonempty).
  apply phase_takeNext; [| exact Hph2].
  unfold awaitedList. change (loop st2) with (loop st).
  unfold loopConsistent in Hc. destruct (loop st); [done | congruence | congruence].
Qed.

(** Every step of the queue keeps track of the request, as long as no
    other request is added under its id. *)
Lemma phase_step s s' :
  stepOther rid s s' ->
  loopConsistent s.2 -> retryDelay s.2 = retryDelayMs ->
  tracked s.2 -> tracked s'.2.
Proof.
  intros Hstep Hc Hrd Hph.
  destruct Hstep as [w st engine fn' options newId now Hne | w st request clk now Hl
                    | w st now Hl | w st k [delayMs r0] now Hk]; cbn [snd] in *.
  - by apply phase_add_other.
  - by apply (phase_workDone w st _ _ request).
  - unfold sleepDone. rewrite Hl.
    apply phase_takeNext; [| done]. unfold awaitedList. by rewrite Hl.
  - unfold timerFire. rewrite Hk.
    pose proof (phase_timer st k delayMs r0 Hk Hph) as Hph1.
    unfold process. cbn [processing update queue].
    destruct (processing st) eqn:Hp; cbn [orb]; [exact Hph1 |].
    rewrite bool_decide_eq_false_2 by discriminate.
    apply phase_takeNext; [| exact Hph1].
    unfold awaitedList. cbn [loop update].
    unfold loopConsistent in Hc. destruct (loop st); [done | congruence | congruence].
Qed.

Lemma stepOther_step s s' : stepOther rid s s' -> step s s'.
Proof.
  intros [w st engine fn' options newId now _ | w st request clk now Hl
         | w st now Hl | w st k entry now Hk].
  - apply step_add.
  - by eapply step_workDone.
  - by apply step_sleepDone.
  - by eapply step_timerFire.
Qed.

Lemma advance_stepOther s t s' : advance s t = Some s' -> stepOther rid s s'.
Proof.
  destruct s as [w st]. unfold advance.
  destruct (loop st) as [| request |] eqn:Hl.
  - destruct (timers st) as [| entry rest] eqn:Ht; [discriminate |].
    intros [= <-]. eapply stepOther_timerFire. by rewrite Ht.
  - intros [= <-]. by eapply stepOther_workDone.
  - intros [= <-]. by apply stepOther_sleepDone.
Qed.

Lemma reachableFrom_phase s0 s :
  reachableFrom rid s0 s ->
  loopConsistent s0.2 -> retryDelay s0.2 = retryDelayMs -> tracked s0.2 ->
  loopConsistent s.2 /\ retryDelay s.2 = retryDelayMs /\ tracked s.2.
Proof.
  intros Hreach Hc Hrd Hph.
  induction Hreach as [| s s' _ (Hc' & Hrd' & Hph') Hstep]; [done |].
  pose proof (stepOther_step _ _ Hstep) as Hstep'.
  split; [by apply (loopConsistent_step _ _ Hstep') |].
  split; [by rewrite (retryDelay_step _ _ Hstep') |].
  by apply (phase_step s s').
Qed.

Lemma run_reachableFrom fuel : forall ticks k s,
  reachableFrom rid s (run fuel ticks k s).
Proof.
  induction fuel as [| fuel IH]; intros ticks k s; cbn [run];
    [apply reachableFrom_start |].
  destruct (advance s (ticks k)) as [s' |] eqn:Hadv; [| apply reachableFrom_start].
  apply advance_stepOther in Hadv.
  assert (Htrans : forall s2, reachableFrom rid s' s2 -> reachableFrom rid s s2).
  { intros s2 H. induction H as [| s2 s3 _ IH2 Hs];
      [eapply reachableFrom_step; [apply reachableFrom_start | done] |].
    by eapply reachableFrom_step. }
  apply Htrans, IH.
Qed.

Lemma retriedLog_app n j : forall k,
  retriedLog rid retryDelayMs (n + j) k
  = retriedLog rid retryDelayMs n k
    ++ retriedLog rid retryDelayMs j (k + Z.of_nat n).
Proof.
  induction n as [| n IH]; intros k.
  - cbn [Nat.add retriedLog app Z.of_nat]. by rewrite Z.add_0_r.
  - cbn [Nat.add retriedLog app]. rewrite IH.
    by replace (k + 1 + Z.of_nat n) with (k + Z.of_nat (S n)) by lia.
Qed.

(** Wherever the request is, the log shows the beginning of its
    [max(1, maxAttempts)] attempts and nothing else. *)
Lemma phase_prefix st :
  tracked st ->
  eventsOf rid (log st)
  `prefix_of` before
              ++ EvExecute rid 1
                 :: failureLog rid retryDelayMs err
                      (Z.to_nat (Z.max 1 maxAttempts - 1)) 1.
Proof.
  intros Hph.
  set (m := Z.to_nat (Z.max 1 maxAttempts - 1)).
  rewrite <- (retriedLog_rejected rid retryDelayMs err m 1).
  destruct Hph as [a r H1 H2 H3 Hown H0 Hlt Hev | a r H1 H2 H3 Hown Hlt Hev
                  | a r H1 H2 Hl0 Hown H0 Hlt Hev | _ Hev].
  - rewrite Hev. apply prefix_app, prefix_app_r.
    replace m with (Z.to_nat a + (m - Z.to_nat a))%nat by lia.
    rewrite retriedLog_app. by apply prefix_app_r.
  - rewrite Hev. apply prefix_app, prefix_app_r.
    replace m with (Z.to_nat a + (m - Z.to_nat a))%nat by lia.
    rewrite retriedLog_app. by apply prefix_app_r.
  - rewrite Hev. apply prefix_app.
    destruct (decide (Z.to_nat (a - 1) = m)) as [E | E].
    + rewrite E. apply prefix_app.
      replace (1 + Z.of_nat m) with a by lia. by exists [EvReject rid (err a)].
    + apply prefix_app_r.
      replace m with (Z.to_nat (a - 1) + S (m - Z.to_nat (a - 1) - 1))%nat by lia.
      rewrite retriedLog_app. apply prefix_app. cbn [retriedLog].
      replace (1 + Z.of_nat (Z.to_nat (a - 1))) with a by lia.
      by eexists.
  - rewrite Hev. fold m.
    by rewrite <- (retriedLog_rejected rid retryDelayMs err m 1).
Qed.

(** At rest the request has been rejected, after [max(1, maxAttempts)]
    executions. *)
Lemma phase_at_rest st :
  quiescent st -> tracked st ->
  eventsOf rid (log st)
  = before
    ++ EvExecute rid 1
       :: failureLog rid retryDelayMs err (Z.to_nat (Z.max 1 maxAttempts - 1)) 1.
Proof.
  intros (Hl & _ & Hq & Ht) Hph.
  destruct Hph as [a r H1 H2 H3 Hown H0 Hlt Hev | a r H1 H2 H3 Hown Hlt Hev
                  | a r H1 H2 Hl0 Hown H0 Hlt Hev | _ Hev]; [| | | exact Hev].
  - by rewrite Hq in H1.
  - by rewrite Ht in H2.
  - congruence.
Qed.

End AlwaysFailing.

(** ** A request that fails at every attempt *)

(** [add] puts the request into the queue, or starts it at once. *)
Lemma phase_add engine st fn options newId now err :
  loopConsistent st -> noLiveRequest newId st ->
  phase newId fn (default (defaultMaxRetries st) (optRetries options))
    (default 10000 (optTimeout options)) (retryDelay st) err
    (eventsOf newId (log st)) (add engine st fn options newId now).
Proof.
  intros Hc (H1 & H2 & H3). unfold add.
  set (request := newRequest st fn options newId now).
  set (st2 := recordRequest _ request StQueued now).
  assert (Hph : phase newId fn (default (defaultMaxRetries st) (optRetries options))
                  (default 10000 (optTimeout options)) (retryDelay st) err
                  (eventsOf newId (log st)) st2).
  { apply (phase_queued _ _ _ _ _ _ _ _ 0 request); try done.
    - assert (Hp : withId newId (queue st2) ≡ₚ withId newId (queue st ++ [request])).
      { unfold withId. cbn [st2 queue recordRequest update].
        by rewrite QueueProps.sortByPriority_perm. }
      rewrite withId_app, H1, withId_cons_eq in Hp by reflexivity.
      by apply Permutation_singleton_r in Hp.
    - by left.
    - cbn [retriedLog Z.to_nat]. by rewrite app_nil_r. }
  change (processing st2) with (processing st).
  destruct (processing st) eqn:Hp; cbn [negb]; [exact Hph |].
  unfold process. change (processing st2) with false.
  cbn [orb]. rewrite bool_decide_eq_false_2
    by (cbn [st2 queue recordRequest update]; apply sortByPriority_nonempty).
  apply phase_takeNext; [exact H3 | exact Hph].
Qed.

(** A request whose work is rejected at every attempt, added under an
    id that no live request has: whatever the queue does from then on
    (other requests added, executions settling, sleeps ending, retry
    timers firing in any order), the log shows the beginning of its
    [max(1, maxRetries)] executions, with a retry after each but the
    last and then the rejection, and it shows all of them when the
    queue is at rest. *)
Lemma always_failing_traffic engine fn options newId now w st err s' :
  loopConsistent st -> noLiveRequest newId st ->
  (forall n w0,
     raceTimeout (fn n w0).2 (default 10000 (optTimeout options)) = Rejected (err n)) ->
  (forall n, truthy (err n) = true) ->
  reachableFrom newId (w, add engine st fn options newId now) s' ->
  loopConsistent s'.2
  /\ eventsOf newId (log s'.2)
     `prefix_of` eventsOf newId (log st)
                 ++ EvExecute newId 1
                    :: failureLog newId (retryDelay st) err
                         (Z.to_nat (Z.max 1 (default (defaultMaxRetries st)
                                               (optRetries options)) - 1)) 1
  /\ (quiescent s'.2 ->
      eventsOf newId (log s'.2)
      = eventsOf newId (log st)
        ++ EvExecute newId 1
           :: failureLog newId (retryDelay st) err
                (Z.to_nat (Z.max 1 (default (defaultMaxRetries st)
                                      (optRetries options)) - 1)) 1).
Proof.
  intros Hc Hfresh Hfails Htruthy Hreach.
  pose proof (loopConsistent_step (w, st) (w, add engine st fn options newId now)
                (step_add w st engine fn options newId now) Hc) as Hc1.
  pose proof (retryDelay_step (w, st) (w, add engine st fn options newId now)
                (step_add w st engine fn options newId now)) as Hrd.
  cbn [snd] in Hc1, Hrd.
  destruct (reachableFrom_phase newId fn
              (default (defaultMaxRetries st) (optRetries options))
              (default 10000 (optTimeout options)) (retryDelay st) err
              (eventsOf newId (log st)) Hfails Htruthy _ _ Hreach Hc1 Hrd
              (phase_add engine st fn options newId now err Hc Hfresh))
    as (Hc' & _ & Hph).
  split; [exact Hc' |]. split.
  - by eapply phase_prefix.
  - intros Hq. by eapply phase_at_rest.
Qed.

(** With enough turns of the event loop and no other request added,
    the queue comes to rest. *)
Lemma always_failing_run engine fn options newId now ticks w st err fuel :
  loopConsistent st -> noLiveRequest newId st ->
  (forall n w0,
     raceTimeout (fn n w0).2 (default 10000 (optTimeout options)) = Rejected (err n)) ->
  (forall n, truthy (err n) = true) ->
  (turnsLeft (add engine st fn options newId now) <= fuel)%nat ->
  quiescent (run fuel ticks 0 (w, add engine st fn options newId now)).2
  /\ eventsOf newId (log (run fuel ticks 0 (w, add engine st fn options newId now)).2)
     = eventsOf newId (log st)
       ++ EvExecute newId 1
          :: failureLog newId (retryDelay st) err
               (Z.to_nat (Z.max 1 (default (defaultMaxRetries st) (optRetries options))
                          - 1)) 1.
Proof.
  intros Hc Hfresh Hfails Htruthy Hfuel.
  pose proof (loopConsistent_step (w, st) (w, add engine st fn options newId now)
                (step_add w st engine fn options newId now) Hc) as Hc1.
  cbn [snd] in Hc1.
  pose proof (run_quiescent fuel ticks 0%nat w _ Hc1 Hfuel) as Hq.
  split; [exact Hq |].
  destruct (always_failing_traffic engine fn options newId now w st err _
              Hc Hfresh Hfails Htruthy
              (run_reachableFrom newId fuel ticks 0%nat _)) as (_ & _ & Hrest).
  by apply Hrest.
Qed.

Lemma executions_failureLog rid retryDelayMs err n : forall k,
  executions rid (failureLog rid retryDelayMs err n k) = n.
Proof.
  unfold executions.
  induction n as [| n IH]; intros k; cbn [failureLog List.filter isExecutionOf].
  - reflexivity.
  - rewrite String.eqb_refl. cbn [List.length]. by rewrite IH.
Qed.

Lemma last_failureLog rid retryDelayMs err n : forall k,
  last (failureLog rid retryDelayMs err n k) = Some (EvReject rid (err (k + Z.of_nat n))).
Proof.
  induction n as [| n IH]; intros k; cbn [failureLog].
  - by rewrite Z.add_0_r.
  - rewrite !last_cons, IH. do 3 f_equal. lia.
Qed.

(** C6 (as amended).  A request added with [retries = N] under an id
    that no live request has, to a queue in any state that it can reach
    (idle or busy with other requests), whose work is rejected at every
    attempt with a truthy reason (timeouts included, whatever the
    classification): when the event loop has run until nothing is
    pending, the log shows exactly [max(1, N)] executions of the
    request, a retry scheduled after each but the last, and then one
    rejection with the reason of the last attempt.  Whatever else the
    queue does in between (other requests added under other ids, timers
    firing in any order), the log never shows more than the beginning
    of these events, and shows all of them whenever the queue is at
    rest. *)
Theorem retry_bound engine fn options newId now ticks w st err fuel :
  reachable (w, st) ->
  noLiveRequest newId st ->
  (forall n w0,
     raceTimeout (fn n w0).2 (default 10000 (optTimeout options)) = Rejected (err n)) ->
  (forall n, truthy (err n) = true) ->
  (turnsLeft (add engine st fn options newId now) <= fuel)%nat ->
  let N := default (defaultMaxRetries st) (optRetries options) in
  let final := (run fuel ticks 0 (w, add engine st fn options newId now)).2 in
  let attemptsLog :=
    EvExecute newId 1
      :: failureLog newId (retryDelay st) err (Z.to_nat (Z.max 1 N - 1)) 1 in
  eventsOf newId (log final) = eventsOf newId (log st) ++ attemptsLog
  /\ executions newId attemptsLog = Z.to_nat (Z.max 1 N)
  /\ last attemptsLog = Some (EvReject newId (err (Z.max 1 N)))
  /\ quiescent final
  /\ (forall s',
        reachableFrom newId (w, add engine st fn options newId now) s' ->
        eventsOf newId (log s'.2) `prefix_of` eventsOf newId (log st) ++ attemptsLog
        /\ (quiescent s'.2 ->
            eventsOf newId (log s'.2) = eventsOf newId (log st) ++ attemptsLog)).
Proof.
  intros Hreach Hfresh Hfails Htruthy Hfuel. cbv zeta.
  pose proof (reachable_loopConsistent _ Hreach) as Hc. cbn [snd] in Hc.
  destruct (always_failing_run engine fn options newId now ticks w st err fuel
              Hc Hfresh Hfails Htruthy Hfuel) as [Hq Hlog].
  split; [exact Hlog |]. split; [| split; [| split; [exact Hq |]]].
  3: { intros s' Hs'.
       by destruct (always_failing_traffic engine fn options newId now w st err s'
                      Hc Hfresh Hfails Htruthy Hs') as (_ & Hpre & Hrest). }
  - unfold executions. cbn [List.filter isExecutionOf].
    rewrite String.eqb_refl. cbn [List.length].
    match goal with
    | |- S (List.length (List.filter _ ?l)) = _ =>
        change (List.length (List.filter (isExecutionOf newId) l))
          with (executions newId l)
    end.
    rewrite executions_failureLog. lia.
  - rewrite last_cons, last_failureLog. do 3 f_equal. lia.
Qed.

Lemma oneRunning_reachable : reachable (initWorld, Scenarios.oneRunning).
Proof. eapply reachable_step; [apply reachable_init | apply step_add]. Qed.

Lemma retry_bound_witness :
  reachable (initWorld, Scenarios.oneRunning)
  /\ queue Scenarios.oneRunning = [] /\ processing Scenarios.oneRunning = true
  /\ noLiveRequest "req_2" Scenarios.oneRunning
  /\ eventsOf "req_2"
       (log (run 40 Scenarios.ticks 0
               (initWorld,
                add Scenarios.lazyEngine Scenarios.oneRunning
                  (Scenarios.alwaysRejected "Operation timed out")
                  (Scenarios.options None (Some 2)) "req_2" 10)).2)
     = [EvExecute "req_2" 1; EvRetry "req_2" 2000; EvExecute "req_2" 2;
        EvReject "req_2" (JsError (ErrPlain "Operation timed out"))]%string.
Proof.
  assert (H2 : noLiveRequest "req_2" Scenarios.oneRunning)
    by (vm_compute; repeat split).
  split; [exact oneRunning_reachable |].
  split; [vm_compute; reflexivity |]. split; [vm_compute; reflexivity |].
  split; [exact H2 |].
  pose proof (retry_bound Scenarios.lazyEngine
                (Scenarios.alwaysRejected "Operation timed out")
                (Scenarios.options None (Some 2)) "req_2" 10 Scenarios.ticks initWorld
                Scenarios.oneRunning (fun _ => JsError (ErrPlain "Operation timed out"))
                40 oneRunning_reachable H2 (fun _ _ => eq_refl) (fun _ => eq_refl)
                ltac:(apply Nat.leb_le; vm_compute; reflexivity)) as H.
  cbv zeta in H. destruct H as [H _].
  rewrite H. vm_compute. reflexivity.
Defined.

(** C6 (as stated) fails for [N = 0]: the request is executed once all
    the same. *)
Lemma zero_retries_counterexample :
  log (Scenarios.failingRun "Operation timed out" 0).2
  = [EvExecute "req_1" 1;
     EvReject "req_1"
       (JsError (ErrEnhanced (newEnhancedError "Operation timed out" (Some TIMEOUT))))]%string
  /\ executions "req_1" (log (Scenarios.failingRun "Operation timed out" 0).2) = 1%nat
  /\ 1%nat <> Z.to_nat 0.
Proof. split; [vm_compute; reflexivity |]. split; [vm_compute; reflexivity | discriminate]. Qed.

(** C3 (as stated) fails: a failure classified as VALIDATION, which is
    not retryable, is retried all the same while attempts remain. *)
Lemma validation_failure_counterexample :
  type (EnhancedErrorHandler.classify (JsError (ErrPlain "Invalid input"))) = VALIDATION
  /\ EnhancedErrorHandler.shouldRetry
       (EnhancedErrorHandler.classify (JsError (ErrPlain "Invalid input"))) = false
  /\ log (Scenarios.firstFailure "Invalid input" 3).2
     = [EvExecute "req_1" 1; EvRetry "req_1" 2000]%string
  /\ executions "req_1" (log (Scenarios.failingRun "Invalid input" 3).2) = 3%nat.
Proof. vm_compute. repeat split. Qed.

Lemma invalidRunning_reachable : reachable (initWorld, Scenarios.invalidRunning).
Proof. eapply reachable_step; [apply reachable_init | apply step_add]. Qed.

Lemma failure_retry_rule_witness :
  reachable (initWorld, Scenarios.invalidRunning)
  /\ processing Scenarios.invalidRunning = true
  /\ exists started,
       loop Scenarios.invalidRunning = AwaitingExecute started
       /\ raceOutcome initWorld started Scenarios.clock0
          = Rejected (JsError (ErrPlain "Invalid input"))
       /\ attempts started < maxRetries started
       /\ log (workDone initWorld Scenarios.invalidRunning Scenarios.clock0 100).2
          = log Scenarios.invalidRunning
            ++ [EvRetry (id started) (retryDelay Scenarios.invalidRunning
                                      * attempts started)].
Proof.
  split; [exact invalidRunning_reachable |]. split; [vm_compute; reflexivity |].
  destruct (loop Scenarios.invalidRunning) as [| started |] eqn:Hl;
    pose proof Hl as Hnf; vm_compute in Hnf; try discriminate Hnf.
  injection Hnf as <-.
  eexists. split; [reflexivity |].
  assert (H2 : raceOutcome initWorld
                 (mkRequest "req_1"
                    (fun _ w => (w, Settles 50 (Rejected (JsError (ErrPlain "Invalid input")))))
                    (Num 3) "normal" 3 3 10000 "unknown" "Unknown operation" 0 1
                    StProcessing (Some 0) None None None)
                 Scenarios.clock0
               = Rejected (JsError (ErrPlain "Invalid input")))
    by (vm_compute; reflexivity).
  split; [exact H2 |].
  assert (H4 : 1 < 3) by lia.
  split; [exact H4 |].
  exact (proj1 (proj1 (failure_retry_rule initWorld Scenarios.invalidRunning _
                         Scenarios.clock0 100 _ Hl H2 eq_refl) H4)).
Defined.

End RetryProps.

(* ===================================================================== *)
(** * Retry delays *)
(* ===================================================================== *)

Module BackoffProps.
Import EnhancedErrorHandler AIRequestQueue.



(** The test of the repository: the delay does not decrease from
    attempt 1 to attempt 2 (with the same jitter). *)
Example backoff_test :
  backoffDelayMs (newEnhancedError "x" (Some RATE_LIMIT)) 1 500 (75 # 1) = 1075
  /\ backoffDelayMs (newEnhancedError "x" (Some RATE_LIMIT)) 2 500 (75 # 1) = 2075.
Proof. split; reflexivity. Qed.


End BackoffProps.

(* ===================================================================== *)
(** * Properties of [withAISession] *)
(* ===================================================================== *)

Module ServiceProps.
Import AIRequestQueue AIService.

(** [measureOperation] touches nothing but the monitor. *)
Lemma measureShared_frame {A} operationName (fn : World -> World * Outcome A)
    opts clk w :
  let entered :=
    setMonitor (PerformanceMonitor.addActiveOperation (monitor w) operationName
                  (PerformanceMonitor.dateStart clk) (PerformanceMonitor.memActive clk))
      w in
  (measureShared operationName fn opts clk w).2 = handedBack (fn entered).2
  /\ rateLimiter (measureShared operationName fn opts clk w).1
     = rateLimiter (fn entered).1
  /\ activeSessions (measureShared operationName fn opts clk w).1
     = activeSessions (fn entered).1
  /\ trace (measureShared operationName fn opts clk w).1 = trace (fn entered).1.
Proof.
  cbv zeta. split; [apply MonitorProps.measureOperation_outcome |].
  unfold measureShared, PerformanceMonitor.measureOperation.
  destruct (fn _) as [w2 [v | [| | b | n Hn | s | e]]]; repeat split.
Qed.

Lemma createSession_effect apiType primary hasFallback fallback w :
  let r := createSession apiType primary hasFallback fallback w in
  rateLimiter r.1 = rateLimiter w
  /\ match acquired apiType primary hasFallback fallback with
     | Some session =>
         r.2 = Resolved session
         /\ trace r.1 = trace w ++ [EvSessionCreated apiType (sessionId session)]
         /\ activeSessions r.1 = {[sessionId session]} ∪ activeSessions w
     | None =>
         (exists reason, r.2 = Rejected reason) /\ trace r.1 = trace w
         /\ activeSessions r.1 = activeSessions w
     end.
Proof.
  cbv zeta. unfold createSession, acquired.
  destruct (isKnownApi apiType); [| repeat split; by eexists].
  destruct (tryCreate primary hasFallback fallback) as [session | e];
    repeat split; by eexists.
Qed.

Lemma destroySession_effect session w :
  let r := destroySession session w in
  rateLimiter r.1 = rateLimiter w
  /\ trace r.1 = trace w ++ releaseTrace session
  /\ (destroyBehaviour session <> DestroyThrows ->
      activeSessions r.1 = activeSessions w ∖ {[sessionId session]}).
Proof.
  cbv zeta. unfold destroySession, releaseTrace.
  destruct (destroyBehaviour session); cbn [fst]; rewrite <- ?app_assoc;
    repeat split; done.
Qed.

Lemma releases_app sid l1 l2 :
  releases sid (l1 ++ l2) = (releases sid l1 + releases sid l2)%nat.
Proof. unfold releases. by rewrite filter_app, length_app. Qed.

Lemma releases_releaseTrace sid session :
  releases sid (releaseTrace session)
  = if decide (sid = sessionId session) then 1%nat else 0%nat.
Proof.
  unfold releases, releaseTrace.
  destruct (destroyBehaviour session); cbn [app]; rewrite ?filter_cons, filter_nil;
    repeat case_decide; try congruence; reflexivity.
Qed.

(** C1 (as amended).  In every call of the request function of
    [withAISession] whose callback settles, a session that was acquired
    is handed to [destroySession] exactly once, whether the callback
    resolved or rejected and however late it settled, and it leaves
    [activeSessions] unless its own [destroy()] throws; when no session
    was acquired nothing is released; the rate limiter is only read,
    never updated. *)
Theorem session_released_once apiType env w :
  (forall session, envCallback env session <> Hangs) ->
  let w' := (sessionRequestFn apiType env w).1 in
  rateLimiter w' = rateLimiter w
  /\ match acquired apiType (envPrimary env) (envHasFallback env) (envFallback env) with
     | Some session =>
         trace w' = trace w ++ EvSessionCreated apiType (sessionId session)
                               :: releaseTrace session
         /\ releases (sessionId session) (trace w')
            = S (releases (sessionId session) (trace w))
         /\ (destroyBehaviour session <> DestroyThrows ->
             sessionId session ∉ activeSessions w')
     | None => trace w' = trace w /\ activeSessions w' = activeSessions w
     end.
Proof.
  intros Hsettles. cbv zeta. unfold sessionRequestFn.
  pose proof (measureShared_frame (String.append apiType "_createSession")
                (createSession apiType (envPrimary env) (envHasFallback env)
                   (envFallback env)) [] (envClockCreate env) w) as Hm.
  cbv zeta in Hm.
  pose proof (createSession_effect apiType (envPrimary env) (envHasFallback env)
                (envFallback env)
                (setMonitor
                   (PerformanceMonitor.addActiveOperation (monitor w)
                      (String.append apiType "_createSession")
                      (PerformanceMonitor.dateStart (envClockCreate env))
                      (PerformanceMonitor.memActive (envClockCreate env))) w)) as Hc.
  cbv zeta in Hc.
  destruct (measureShared (String.append apiType "_createSession") _ _ _ w)
    as [w1 created].
  cbn [fst snd] in Hm. destruct Hm as (Hout & Hrl & Hact & Htr).
  destruct Hc as [Hrl0 Hc]. rewrite <- Hrl, <- Hact, <- Htr in *.
  cbn [rateLimiter setMonitor trace activeSessions] in *.
  destruct (acquired apiType _ _ _) as [session |].
  - destruct Hc as (Hres & Htr1 & Hact1).
    rewrite Hres in Hout. cbn [handedBack] in Hout. subst created.
    specialize (Hsettles session).
    destruct (envCallback env session) as [elapsed out |]; [| done].
    pose proof (measureShared_frame (String.append apiType "_execute")
                  (fun w0 => (w0, out)) [] (envClockExecute env) w1) as Hm2.
    cbv zeta in Hm2.
    destruct (measureShared (String.append apiType "_execute") _ _ _ w1)
      as [w2 result].
    cbn [fst snd rateLimiter setMonitor trace activeSessions] in Hm2.
    destruct Hm2 as (_ & Hrl2 & Hact2 & Htr2).
    pose proof (measureShared_frame (String.append apiType "_destroySession")
                  (destroySession session) [] (envClockDestroy env) w2) as Hm3.
    cbv zeta in Hm3.
    pose proof (destroySession_effect session
                  (setMonitor
                     (PerformanceMonitor.addActiveOperation (monitor w2)
                        (String.append apiType "_destroySession")
                        (PerformanceMonitor.dateStart (envClockDestroy env))
                        (PerformanceMonitor.memActive (envClockDestroy env))) w2)) as Hd.
    cbv zeta in Hd.
    destruct (measureShared (String.append apiType "_destroySession") _ _ _ w2)
      as [w3 destroyed].
    cbn [fst snd] in Hm3 |- *. destruct Hm3 as (_ & Hrl3 & Hact3 & Htr3).
    destruct Hd as (Hrl4 & Htr4 & Hact4).
    cbn [rateLimiter setMonitor trace activeSessions] in Hrl4, Htr4, Hact4.
    assert (Htrace : trace w3 = trace w ++ EvSessionCreated apiType (sessionId session)
                                          :: releaseTrace session).
    { rewrite Htr3, Htr4, Htr2, Htr1, <- app_assoc. reflexivity. }
    split; [congruence |]. split; [exact Htrace |]. split.
    + rewrite Htrace.
      change (EvSessionCreated apiType (sessionId session) :: releaseTrace session)
        with ([EvSessionCreated apiType (sessionId session)] ++ releaseTrace session).
      rewrite !releases_app, releases_releaseTrace.
      rewrite decide_True by done.
      unfold releases at 2. rewrite filter_cons, decide_False by discriminate.
      rewrite filter_nil. cbn [List.length]. lia.
    + intros Hthrow. rewrite Hact3, (Hact4 Hthrow).
      apply not_elem_of_difference. right. by apply elem_of_singleton.
  - destruct Hc as ([reason Hres] & Htr1 & Hact1).
    rewrite Hres in Hout. subst created. unfold handedBack.
    destruct (surfaced reason) as [thrown |]; cbn [fst];
      [split; [congruence |]; split; congruence |].
    destruct (envCallbackUndefined env) as [elapsed out |];
      [| cbn [fst rateLimiter setMonitor trace activeSessions];
         split; [congruence |]; split; congruence].
    pose proof (measureShared_frame (String.append apiType "_execute")
                  (fun w0 => (w0, out)) [] (envClockExecute env) w1) as Hm2.
    cbv zeta in Hm2.
    destruct (measureShared (String.append apiType "_execute") _ _ _ w1)
      as [w2 result].
    cbn [fst snd rateLimiter setMonitor trace activeSessions] in Hm2 |- *.
    destruct Hm2 as (_ & Hrl2 & Hact2 & Htr2).
    split; [congruence |]. split; congruence.
Qed.

Lemma session_released_once_witness :
  (forall session, envCallback (Scenarios.succeedingEnv "ok" 1) session <> Hangs)
  /\ rateLimiter (sessionRequestFn "Rewriter" (Scenarios.succeedingEnv "ok" 1)
                    initWorld).1
     = rateLimiter initWorld.
Proof.
  assert (H : forall session,
            envCallback (Scenarios.succeedingEnv "ok" 1) session <> Hangs)
    by (intros session; discriminate).
  split; [exact H |].
  exact (proj1 (session_released_once "Rewriter" (Scenarios.succeedingEnv "ok" 1)
                  initWorld H)).
Defined.

(** A rejecting callback: the session is released once all the same,
    and the caller gets the classified error. *)
Example failing_callback_releases_session :
  let r := sessionRequestFn "Rewriter" (Scenarios.failingEnv "Invalid input" 1)
             initWorld in
  trace r.1 = [EvSessionCreated "Rewriter" 1; EvDestroySession 1; EvSessionDestroy 1]
  /\ activeSessions r.1 = ∅
  /\ r.2 = Settles 60 (Rejected (JsError (ErrEnhanced
               (newEnhancedError "Invalid input" (Some VALIDATION))))).
Proof. cbv zeta. repeat split; vm_compute; reflexivity. Qed.

(** When the callback never settles, the [finally] block is never
    reached: the session stays in [activeSessions]. *)
Remark hanging_callback_keeps_session apiType env w session :
  acquired apiType (envPrimary env) (envHasFallback env) (envFallback env)
    = Some session ->
  envCallback env session = Hangs ->
  (sessionRequestFn apiType env w).2 = Hangs
  /\ trace (sessionRequestFn apiType env w).1
     = trace w ++ [EvSessionCreated apiType (sessionId session)]
  /\ sessionId session ∈ activeSessions (sessionRequestFn apiType env w).1.
Proof.
  intros Hacq Hhang. unfold sessionRequestFn.
  pose proof (measureShared_frame (String.append apiType "_createSession")
                (createSession apiType (envPrimary env) (envHasFallback env)
                   (envFallback env)) [] (envClockCreate env) w) as Hm.
  cbv zeta in Hm.
  pose proof (createSession_effect apiType (envPrimary env) (envHasFallback env)
                (envFallback env)
                (setMonitor
                   (PerformanceMonitor.addActiveOperation (monitor w)
                      (String.append apiType "_createSession")
                      (PerformanceMonitor.dateStart (envClockCreate env))
                      (PerformanceMonitor.memActive (envClockCreate env))) w)) as Hc.
  cbv zeta in Hc. rewrite Hacq in Hc.
  destruct (measureShared (String.append apiType "_createSession") _ _ _ w)
    as [w1 created].
  cbn [fst snd] in Hm. destruct Hm as (Hout & _ & Hact & Htr).
  destruct Hc as (_ & Hres & Htr1 & Hact1).
  rewrite Hres in Hout. cbn [handedBack] in Hout. rewrite Hout, Hhang.
  cbn [fst snd].
  cbn [trace activeSessions setMonitor].
  rewrite Htr, Htr1, Hact, Hact1. cbn [trace setMonitor activeSessions].
  repeat split. apply elem_of_union_l. by apply elem_of_singleton.
Qed.

(** C1 (as stated) fails on the bookkeeping: an execution that acquires
    and releases a session leaves the rate limiter exactly as it was, so
    neither an admission nor a completion has been recorded for it. *)
Lemma completion_record_counterexample :
  trace (sessionRequestFn "Rewriter" (Scenarios.succeedingEnv "ok" 1) initWorld).1
    = [EvSessionCreated "Rewriter" 1; EvDestroySession 1; EvSessionDestroy 1]
  /\ rateLimiter (sessionRequestFn "Rewriter" (Scenarios.succeedingEnv "ok" 1)
                    initWorld).1
     = RateLimiter.init
  /\ RateLimiter.init <> RateLimiter.executeRequest_finally RateLimiter.init "Rewriter"
  /\ forall now,
       RateLimiter.init
       <> RateLimiter.executeRequest_finally
            (RateLimiter.executeRequest_begin RateLimiter.init "Rewriter" now)
            "Rewriter".
Proof.
  split; [vm_compute; reflexivity |]. split; [vm_compute; reflexivity |].
  split.
  - intros H.
    apply (f_equal (fun st => RateLimiter.activeRequests st !! "Rewriter"%string)) in H.
    cbn [RateLimiter.activeRequests RateLimiter.executeRequest_finally
           RateLimiter.init] in H.
    rewrite lookup_insert_eq, lookup_empty in H. discriminate.
  - intros now H.
    apply (f_equal (fun st => RateLimiter.requestHistory st !! "Rewriter"%string)) in H.
    cbn [RateLimiter.requestHistory RateLimiter.executeRequest_finally
           RateLimiter.executeRequest_begin RateLimiter.init] in H.
    rewrite lookup_insert_eq, lookup_empty in H. discriminate.
Qed.

End ServiceProps.

(* ===================================================================== *)
(** * The error handler: what the classification depends on *)
(* ===================================================================== *)

Module ErrorHandlerProps.
Import EnhancedErrorHandler.

Lemma lower_idem c : Regex.lower (Regex.lower c) = Regex.lower c.
Proof. destruct c as [[] [] [] [] [] [] [] []]; reflexivity. Qed.

Lemma is_line_terminator_lower c :
  Regex.is_line_terminator (Regex.lower c) = Regex.is_line_terminator c.
Proof. destruct c as [[] [] [] [] [] [] [] []]; reflexivity. Qed.

Lemma prefix_ci_fold p : forall s,
  Regex.prefix_ci p (Regex.fold_case s) = Regex.prefix_ci p s.
Proof.
  induction p as [| a p IH]; intros s; [done |].
  destruct s as [| b s]; [done |]. simpl.
  unfold Regex.eq_ci. by rewrite lower_idem, IH.
Qed.

Lemma contains_ci_fold p s :
  Regex.contains_ci p (Regex.fold_case s) = Regex.contains_ci p s.
Proof.
  induction s as [| b s IH].
  - by destruct p.
  - change (Regex.fold_case (String b s))
      with (String (Regex.lower b) (Regex.fold_case s)).
    pose proof (prefix_ci_fold p (String b s)) as Hp.
    change (Regex.fold_case (String b s))
      with (String (Regex.lower b) (Regex.fold_case s)) in Hp.
    destruct p as [| a p]; [done |].
    cbn [Regex.contains_ci]. by rewrite Hp, IH.
Qed.

Lemma existsb_ext_fold {A} (f g : A -> bool) l :
  (forall x, f x = g x) -> existsb f l = existsb g l.
Proof. intros H. induction l as [| x l IH]; simpl; [done |]. by rewrite H, IH. Qed.

Lemma test_alternatives_fold alts s :
  Regex.test_alternatives alts (Regex.fold_case s) = Regex.test_alternatives alts s.
Proof. apply existsb_ext_fold. intros p. apply contains_ci_fold. Qed.

Lemma dotstar_then_fold alts s :
  Regex.dotstar_then alts (Regex.fold_case s) = Regex.dotstar_then alts s.
Proof.
  induction s as [| b s IH].
  - simpl. f_equal.
  - change (Regex.fold_case (String b s))
      with (String (Regex.lower b) (Regex.fold_case s)).
    cbn [Regex.dotstar_then].
    rewrite is_line_terminator_lower, IH. f_equal.
    apply existsb_ext_fold. intros p.
    apply (prefix_ci_fold p (String b s)).
Qed.

Lemma drop_chars_fold n : forall s,
  Regex.drop_chars n (Regex.fold_case s) = Regex.fold_case (Regex.drop_chars n s).
Proof. induction n as [| n IH]; intros [| b s]; simpl; try done. Qed.

Lemma test_prefix_dotstar_fold pre alts s :
  Regex.test_prefix_dotstar pre alts (Regex.fold_case s)
  = Regex.test_prefix_dotstar pre alts s.
Proof.
  induction s as [| b s IH].
  - simpl. by rewrite (drop_chars_fold _ EmptyString), (dotstar_then_fold _ _).
  - change (Regex.fold_case (String b s))
      with (String (Regex.lower b) (Regex.fold_case s)).
    cbn [Regex.test_prefix_dotstar]. rewrite IH. f_equal.
    change (String (Regex.lower b) (Regex.fold_case s))
      with (Regex.fold_case (String b s)).
    by rewrite prefix_ci_fold, drop_chars_fold, dotstar_then_fold.
Qed.

Lemma first_match_fold msg :
  first_match spec_rules (Regex.fold_case msg) = first_match spec_rules msg.
Proof.
  unfold spec_rules, first_match, re_rate_limit, re_network, re_timeout,
    re_validation, re_ai_unavailable.
  by rewrite !test_alternatives_fold, test_prefix_dotstar_fold.
Qed.

(** The kind that [classify] gives to a value that is not an
    [EnhancedError]. *)
Lemma type_classify v :
  isEnhanced v = false ->
  type (classify v) = first_match spec_rules (rawMessage v).
Proof.
  intros Hne. unfold classify.
  destruct (truthy v) eqn:Ht; cbn [negb].
  - destruct v as [| | b | n Hn | s | [msg | e | msg]]; try discriminate Hne;
      apply ClassifierProps.cascade_first_match.
  - by rewrite ClassifierProps.falsy_first_match.
Qed.

Lemma fold_case_empty s : Regex.fold_case s = EmptyString -> s = EmptyString.
Proof. by destruct s. Qed.

(** X1.  The classification does not depend on the case of ASCII
    letters: two messages that agree after case folding get the same
    kind, as strings and as messages of plain [Error] objects. *)
Theorem classify_case_insensitive (m1 m2 : string) :
  Regex.fold_case m1 = Regex.fold_case m2 ->
  type (classify (JsString m1)) = type (classify (JsString m2))
  /\ type (classify (JsError (ErrPlain m1))) = type (classify (JsError (ErrPlain m2))).
Proof.
  intros Hfold.
  assert (Hempty : m1 = EmptyString <-> m2 = EmptyString).
  { split; intros ->; apply fold_case_empty; [by rewrite <- Hfold | by rewrite Hfold]. }
  rewrite !type_classify by reflexivity.
  assert (Hmatch : first_match spec_rules m1 = first_match spec_rules m2).
  { by rewrite <- (first_match_fold m1), <- (first_match_fold m2), Hfold. }
  split; [exact Hmatch |].
  cbn [rawMessage errorMessage].
  destruct (String.eqb m1 "") eqn:E1; destruct (String.eqb m2 "") eqn:E2;
    [| | | exact Hmatch].
  - apply String.eqb_eq in E1, E2. by subst.
  - apply String.eqb_eq in E1. apply Hempty in E1. subst m2. discriminate.
  - apply String.eqb_eq in E2. apply Hempty in E2. subst m1. discriminate.
Qed.

Lemma classify_case_insensitive_witness :
  type (classify (JsString "RATE LIMIT exceeded"))
    = type (classify (JsString "Rate Limit Exceeded"))
  /\ type (classify (JsError (ErrPlain "RATE LIMIT exceeded")))
     = type (classify (JsError (ErrPlain "Rate Limit Exceeded"))).
Proof.
  exact (classify_case_insensitive "RATE LIMIT exceeded" "Rate Limit Exceeded" eq_refl).
Defined.

(** X2.  A value that is not an [EnhancedError] is classified as
    retryable exactly when its raw message matches the rate-limit, the
    network or the timeout pattern, whatever else it matches. *)
Theorem retryable_by_message (v : JsValue) :
  isEnhanced v = false ->
  shouldRetry (classify v)
  = re_rate_limit (rawMessage v) || re_network (rawMessage v)
    || re_timeout (rawMessage v).
Proof.
  intros Hne. unfold shouldRetry. rewrite (type_classify v Hne).
  unfold spec_rules; cbn [first_match].
  destruct (re_rate_limit (rawMessage v)); [done |].
  destruct (re_network (rawMessage v)); [done |].
  destruct (re_timeout (rawMessage v)); [done |].
  destruct (re_validation (rawMessage v)); [done |].
  destruct (re_ai_unavailable (rawMessage v)); done.
Qed.

Lemma retryable_by_message_witness :
  shouldRetry (classify (JsString "invalid response: network down"))
  = re_rate_limit (rawMessage (JsString "invalid response: network down"))
    || re_network (rawMessage (JsString "invalid response: network down"))
    || re_timeout (rawMessage (JsString "invalid response: network down")).
Proof.
  exact (retryable_by_message (JsString "invalid response: network down") eq_refl).
Defined.

(** X3.  [backoffDelayMs] and [shouldRetry] agree: for a base delay of
    at least 1 ms the delay is 0 exactly for the kinds that
    [shouldRetry] refuses, and positive for the others. *)
Theorem backoff_zero_iff_not_retryable e attempt baseMs product :
  (0 <= product)%Q -> (product < 150)%Q -> 1 <= baseMs ->
  0 <= backoffDelayMs e attempt baseMs product
  /\ (backoffDelayMs e attempt baseMs product = 0 <-> shouldRetry e = false).
Proof.
  intros H0 H1 Hbase.
  pose proof (ClassifierProps.jitterOf_bounds product H0 H1) as Hj.
  assert (Hpow : 0 < 2 ^ Z.of_nat attempt) by (apply Z.pow_pos_nonneg; lia).
  assert (Hterm : 1 <= baseMs * 2 ^ Z.of_nat attempt) by nia.
  unfold backoffDelayMs, shouldRetry.
  destruct (type e); simpl; (split; [lia |]); split; intros H;
    try discriminate; try reflexivity; lia.
Qed.

Lemma backoff_zero_iff_not_retryable_witness :
  0 <= backoffDelayMs (newEnhancedError "bad input" (Some VALIDATION)) 3 500 (50 # 1)
  /\ (backoffDelayMs (newEnhancedError "bad input" (Some VALIDATION)) 3 500 (50 # 1) = 0
      <-> shouldRetry (newEnhancedError "bad input" (Some VALIDATION)) = false).
Proof.
  apply (backoff_zero_iff_not_retryable
           (newEnhancedError "bad input" (Some VALIDATION)) 3 500 (50 # 1)).
  - discriminate.
  - reflexivity.
  - lia.
Defined.

End ErrorHandlerProps.

(* ===================================================================== *)
(** * The rate limiter: waiting times, the queue loop, history cleaning *)
(* ===================================================================== *)

Module RateLimiterWaitProps.
Import RateLimiter.

Lemma recentRequests_elem history now t :
  t ∈ recentRequests history now <-> now - 60000 < t /\ t ∈ history.
Proof. unfold recentRequests. cbv zeta. by rewrite list_elem_of_filter. Qed.

Lemma recentRequests_hd history now t rest :
  recentRequests history now = t :: rest -> now - 60000 < t.
Proof.
  intros H. apply (recentRequests_elem history now t). rewrite H. left.
Qed.

(** A later window holds no more timestamps, and strictly fewer when it
    has lost one. *)
Lemma recentRequests_later history now now' :
  now <= now' ->
  (List.length (recentRequests history now') <= List.length (recentRequests history now))%nat.
Proof.
  intros Hle. unfold recentRequests. cbv zeta.
  induction history as [| t history IH]; [done |].
  rewrite !filter_cons.
  repeat case_decide; simpl; lia.
Qed.

Lemma recentRequests_later_lost history now now' t :
  now <= now' ->
  t ∈ recentRequests history now -> t <= now' - 60000 ->
  (List.length (recentRequests history now') < List.length (recentRequests history now))%nat.
Proof.
  intros Hle Hin Hold. apply recentRequests_elem in Hin as [Hrecent Hin].
  induction history as [| x history IH]; [by apply elem_of_nil in Hin |].
  pose proof (recentRequests_later history now now' Hle) as Hmono.
  unfold recentRequests in *. cbv zeta in *.
  rewrite !filter_cons.
  apply elem_of_cons in Hin as [-> | Hin].
  - repeat case_decide; simpl; lia.
  - specialize (IH Hin). repeat case_decide; simpl; lia.
Qed.

Lemma lastRequest_begin st apiType now :
  lastRequest (executeRequest_begin st apiType now) apiType = now.
Proof. unfold lastRequest, executeRequest_begin; simpl. by rewrite lookup_insert_eq. Qed.

(** For a configured type [getWaitTime] is a number: the larger of the
    two waits. *)
Lemma getWaitTime_configured st apiType cfg now :
  config !! apiType = Some cfg ->
  getWaitTime st apiType now =
  Num (Z.max (Z.max 0 (minInterval cfg - (now - lastRequest st apiType)))
             (if maxPerMinute cfg <=?
                   Z.of_nat (List.length (recentRequests (historyOf st apiType) now))
              then (hd 0 (recentRequests (historyOf st apiType) now) + 60000) - now
              else 0)).
Proof.
  intros Hcfg. unfold getWaitTime.
  by rewrite (RateLimiterProps.configEntry_configured _ _ Hcfg).
Qed.

(** X4.  For a configured type the waiting time is never negative, and
    [canMakeRequest] holds exactly when a concurrency slot is free and
    [getWaitTime] is 0: the waiting time covers the interval and the
    per-minute limit, never the concurrency limit. *)
Theorem canMakeRequest_wait_zero st apiType cfg now :
  config !! apiType = Some cfg ->
  exists wait,
    getWaitTime st apiType now = Num wait
    /\ 0 <= wait
    /\ (canMakeRequest st apiType now = true <->
        activeCount st apiType < maxConcurrent cfg
        /\ getWaitTime st apiType now = Num 0).
Proof.
  intros Hcfg. pose proof (RateLimiterProps.config_bounds _ _ Hcfg) as (_ & Hpm & _).
  rewrite (getWaitTime_configured _ _ _ _ Hcfg).
  eexists. split; [reflexivity |].
  assert (Hnum : forall z, Num z = Num 0 <-> z = 0).
  { intros z. split; [by intros [= ->] | by intros ->]. }
  rewrite Hnum.
  unfold canMakeRequest.
  rewrite (RateLimiterProps.configEntry_configured _ _ Hcfg). cbv zeta.
  set (recent := recentRequests (historyOf st apiType) now).
  assert (Hrate : maxPerMinute cfg <= Z.of_nat (List.length recent) ->
                  0 < hd 0 recent + 60000 - now).
  { intros Hfull. destruct recent as [| t rest] eqn:Hrecent; [simpl in Hfull; lia |].
    apply recentRequests_hd in Hrecent. simpl. lia. }
  split; [lia |].
  destruct (maxConcurrent cfg <=? activeCount st apiType) eqn:H1;
    [apply Z.leb_le in H1 | apply Z.leb_gt in H1].
  { split; [discriminate | lia]. }
  destruct (now - lastRequest st apiType <? minInterval cfg) eqn:H2;
    [apply Z.ltb_lt in H2 | apply Z.ltb_ge in H2].
  { split; [discriminate | lia]. }
  destruct (maxPerMinute cfg <=? Z.of_nat (List.length recent)) eqn:H3;
    [apply Z.leb_le in H3 | apply Z.leb_gt in H3].
  { specialize (Hrate H3). split; [discriminate | lia]. }
  split; [intros _; lia | reflexivity].
Qed.

Lemma canMakeRequest_wait_zero_witness :
  exists wait,
    getWaitTime Scenarios.ten_admissions "Proofreader" 100000 = Num wait
    /\ 0 <= wait
    /\ (canMakeRequest Scenarios.ten_admissions "Proofreader" 100000 = true <->
        activeCount Scenarios.ten_admissions "Proofreader"
        < maxConcurrent (mkPolicy 1 2000 10)
        /\ getWaitTime Scenarios.ten_admissions "Proofreader" 100000 = Num 0).
Proof.
  exact (canMakeRequest_wait_zero Scenarios.ten_admissions "Proofreader"
           (mkPolicy 1 2000 10) 100000 eq_refl).
Defined.

(** X5.  Waiting for [getWaitTime] is enough: when a concurrency slot
    is free and the last minute holds at most [maxPerMinute]
    admissions, [canMakeRequest] holds once the waiting time has
    passed. *)
Theorem waiting_suffices st apiType cfg now :
  config !! apiType = Some cfg ->
  activeCount st apiType < maxConcurrent cfg ->
  Z.of_nat (List.length (recentRequests (historyOf st apiType) now)) <= maxPerMinute cfg ->
  exists wait,
    getWaitTime st apiType now = Num wait
    /\ canMakeRequest st apiType (now + wait) = true.
Proof.
  intros Hcfg Hslot Hfull.
  pose proof (RateLimiterProps.config_bounds _ _ Hcfg) as (_ & Hpm & _).
  eexists. split; [by apply getWaitTime_configured |].
  unfold canMakeRequest.
  rewrite (RateLimiterProps.configEntry_configured _ _ Hcfg). cbv zeta.
  set (recent := recentRequests (historyOf st apiType) now) in *.
  set (wait := Z.max (Z.max 0 _) _).
  assert (Hnonneg : 0 <= wait) by (unfold wait; lia).
  assert (Hinterval : minInterval cfg - (now - lastRequest st apiType) <= wait)
    by (unfold wait; lia).
  assert (Hrecent' :
    Z.of_nat (List.length (recentRequests (historyOf st apiType) (now + wait)))
    < maxPerMinute cfg).
  { pose proof (recentRequests_later (historyOf st apiType) now (now + wait)
                  ltac:(lia)) as Hmono. fold recent in Hmono.
    destruct (decide (Z.of_nat (List.length recent) < maxPerMinute cfg)) as [| Hmax];
      [lia |].
    destruct recent as [| t rest] eqn:Hrecent; [simpl in *; lia |].
    assert (Hwait : t + 60000 - now <= wait).
    { unfold wait.
      destruct (maxPerMinute cfg <=? Z.of_nat (List.length (t :: rest))) eqn:E;
        [simpl hd; lia | apply Z.leb_gt in E; lia]. }
    pose proof (recentRequests_later_lost (historyOf st apiType) now (now + wait) t
                  ltac:(lia)) as Hlost.
    fold recent in Hlost. rewrite Hrecent in Hlost.
    specialize (Hlost ltac:(left) ltac:(lia)). lia. }
  destruct (maxConcurrent cfg <=? activeCount st apiType) eqn:H1;
    [apply Z.leb_le in H1; lia |].
  destruct (now + wait - lastRequest st apiType <? minInterval cfg) eqn:H2;
    [apply Z.ltb_lt in H2; lia |].
  destruct (maxPerMinute cfg <=?
              Z.of_nat (List.length (recentRequests (historyOf st apiType) (now + wait))))
    eqn:H3; [apply Z.leb_le in H3; lia | done].
Qed.

Lemma waiting_suffices_witness :
  exists wait,
    getWaitTime Scenarios.ten_admissions "Proofreader" 59000 = Num wait
    /\ canMakeRequest Scenarios.ten_admissions "Proofreader" (59000 + wait) = true.
Proof.
  apply (waiting_suffices Scenarios.ten_admissions "Proofreader" (mkPolicy 1 2000 10) 59000).
  - reflexivity.
  - vm_compute; reflexivity.
  - vm_compute. discriminate.
Defined.

(** X6.  The admission record of [executeRequest] closes the type for
    [minInterval]: until that much time has passed since the admission,
    [canMakeRequest] is false and [getWaitTime] is at least what is
    left of the interval (so [executeRequest] itself, which reads
    [getWaitTime] right after the record, sleeps before it runs the
    request). *)
Theorem interval_after_admission st apiType cfg now now' :
  config !! apiType = Some cfg ->
  now' - now < minInterval cfg ->
  canMakeRequest (executeRequest_begin st apiType now) apiType now' = false
  /\ exists wait,
       getWaitTime (executeRequest_begin st apiType now) apiType now' = Num wait
       /\ minInterval cfg - (now' - now) <= wait.
Proof.
  intros Hcfg Hearly. split.
  2: { eexists. split; [by apply getWaitTime_configured |].
       rewrite lastRequest_begin. lia. }
  unfold canMakeRequest.
  rewrite (RateLimiterProps.configEntry_configured _ _ Hcfg), lastRequest_begin.
  cbv zeta.
  destruct (maxConcurrent cfg <=? _); [done |].
  destruct (now' - now <? minInterval cfg) eqn:H2; [done |].
  apply Z.ltb_ge in H2. lia.
Qed.

Lemma interval_after_admission_witness :
  canMakeRequest (executeRequest_begin init "Summarizer" 5000) "Summarizer" 6499 = false
  /\ exists wait,
       getWaitTime (executeRequest_begin init "Summarizer" 5000) "Summarizer" 6499
       = Num wait
       /\ minInterval (mkPolicy 2 1500 20) - (6499 - 5000) <= wait.
Proof.
  apply (interval_after_admission init "Summarizer" (mkPolicy 2 1500 20) 5000 6499).
  - reflexivity.
  - simpl. lia.
Defined.

Lemma historyOf_cleanupHistory st now apiType :
  historyOf (cleanupHistory st now) apiType =
  filter (fun time => now - 3600000 < time) (historyOf st apiType).
Proof.
  unfold historyOf, cleanupHistory; simpl. rewrite lookup_fmap.
  by destruct (requestHistory st !! apiType).
Qed.

Lemma recentRequests_cleaned history now now' :
  now - 3540000 <= now' ->
  recentRequests (filter (fun time => now - 3600000 < time) history) now' =
  recentRequests history now'.
Proof.
  intros Hle. unfold recentRequests. cbv zeta.
  induction history as [| t history IH]; [done |].
  rewrite !filter_cons.
  destruct (decide (now - 3600000 < t)) as [Hkeep | Hdrop].
  - rewrite filter_cons. case_decide; by rewrite IH.
  - rewrite IH. case_decide; [lia | done].
Qed.

(** X7.  [cleanupHistory] is invisible to admission: at the time of the
    cleaning and at any later time (in fact from 59 minutes before it
    on), [canMakeRequest] and [getWaitTime] answer as they would have
    without it. *)
Theorem cleanupHistory_preserves_admission st apiType now now' :
  now - 3540000 <= now' ->
  canMakeRequest (cleanupHistory st now) apiType now' = canMakeRequest st apiType now'
  /\ getWaitTime (cleanupHistory st now) apiType now' = getWaitTime st apiType now'.
Proof.
  intros Hle. unfold canMakeRequest, getWaitTime.
  rewrite historyOf_cleanupHistory, recentRequests_cleaned by done.
  split; reflexivity.
Qed.

Lemma cleanupHistory_preserves_admission_witness :
  canMakeRequest (cleanupHistory Scenarios.ten_admissions 3650000) "Proofreader" 3650000
  = canMakeRequest Scenarios.ten_admissions "Proofreader" 3650000
  /\ getWaitTime (cleanupHistory Scenarios.ten_admissions 3650000) "Proofreader" 3650000
     = getWaitTime Scenarios.ten_admissions "Proofreader" 3650000.
Proof.
  apply (cleanupHistory_preserves_admission Scenarios.ten_admissions "Proofreader"
           3650000 3650000).
  lia.
Defined.

End RateLimiterWaitProps.

(* ===================================================================== *)
(** * The rate limiter: what one [processQueue] call starts *)
(* ===================================================================== *)

Module RateLimiterQueueProps.
Import RateLimiter.

Lemma queues_begin st apiType now :
  queues (executeRequest_begin st apiType now) = queues st.
Proof. reflexivity. Qed.

(** The loop counter goes up while the queue goes down, so the loop
    stops at the smaller of the free slots and half of the queue. *)
Lemma processQueue_loop_take apiType now slots q : forall i st,
  0 <= i ->
  processQueue_loop apiType now slots i q st =
  ((processQueue_loop apiType now slots i q st).1.1,
   drop (Z.to_nat (Z.min (slots - i) ((Z.of_nat (List.length q) - i + 1) / 2))) q,
   take (Z.to_nat (Z.min (slots - i) ((Z.of_nat (List.length q) - i + 1) / 2))) q)
  /\ queues (processQueue_loop apiType now slots i q st).1.1 = queues st.
Proof.
  induction q as [| request q IH]; intros i st Hi.
  - simpl. by rewrite drop_nil, take_nil.
  - cbn [processQueue_loop].
    destruct (i <? Z.min slots (Z.of_nat (List.length (request :: q)))) eqn:Hlt;
      [apply Z.ltb_lt in Hlt | apply Z.ltb_ge in Hlt]; simpl List.length in *.
    + destruct (IH (i + 1) (executeRequest_begin st apiType now) ltac:(lia)) as [E Hq].
      destruct (processQueue_loop apiType now slots (i + 1) q
                  (executeRequest_begin st apiType now)) as [[st2 rest] started].
      simpl in E, Hq. inversion E as [[Hrest Hstarted]]. clear E.
      assert (Hk : Z.to_nat (Z.min (slots - i) ((Z.of_nat (S (List.length q)) - i + 1) / 2))
                   = S (Z.to_nat (Z.min (slots - (i + 1))
                                    ((Z.of_nat (List.length q) - (i + 1) + 1) / 2)))).
      { Z.div_mod_to_equations. lia. }
      rewrite Hk. simpl. rewrite <- Hrest, <- Hstarted. split; [done |].
      by rewrite Hq.
    + assert (Hk : Z.to_nat (Z.min (slots - i) ((Z.of_nat (S (List.length q)) - i + 1) / 2))
                   = O).
      { Z.div_mod_to_equations. lia. }
      rewrite Hk. simpl. done.
Qed.

(** X8.  One [processQueue] call for a configured type starts the
    requests at the front of the queue, in queue order, and leaves the
    others queued; it starts as many as there are free slots, but never
    more than half of the queue (rounded up), because the loop counter
    is compared with the length of the queue that the loop shortens. *)
Theorem processQueue_starts_front st apiType cfg now :
  config !! apiType = Some cfg ->
  let q := default [] (queues st !! apiType) in
  let k := Z.to_nat (Z.min (maxConcurrent cfg - activeCount st apiType)
                       ((Z.of_nat (List.length q) + 1) / 2)) in
  (processQueue st apiType now).2 = take k q
  /\ queues (processQueue st apiType now).1 !! apiType = Some (drop k q).
Proof.
  intros Hcfg. cbv zeta. unfold processQueue.
  remember (default [] (queues st !! apiType)) as q eqn:Hq.
  assert (Hget : exists st1, getQueue st apiType = (st1, q)
                   /\ queues st1 !! apiType = Some q
                   /\ activeCount st1 apiType = activeCount st apiType).
  { unfold getQueue. subst q. destruct (queues st !! apiType) as [q0 |] eqn:Hq0.
    - exists st. by rewrite Hq0.
    - eexists. split; [reflexivity |]. simpl. by rewrite lookup_insert_eq. }
  destruct Hget as (st1 & -> & Hq1 & Hact).
  rewrite (RateLimiterProps.configEntry_configured _ _ Hcfg). clear Hq.
  destruct q as [| request q'].
  { simpl List.length.
    replace (Z.to_nat _) with O by (Z.div_mod_to_equations; lia).
    simpl. done. }
  destruct (processQueue_loop_take apiType now
              (maxConcurrent cfg - activeCount st1 apiType) (request :: q') 0 st1
              ltac:(lia)) as [E Hqueues].
  destruct (processQueue_loop apiType now (maxConcurrent cfg - activeCount st1 apiType)
              0 (request :: q') st1) as [[st2 rest] started].
  cbn [fst snd] in E, Hqueues. inversion E as [[Hrest Hstarted]]. clear E.
  rewrite Hact, !Z.sub_0_r in *.
  cbn [fst snd setQueue queues]. rewrite lookup_insert_eq.
  split; reflexivity.
Qed.

Lemma processQueue_starts_front_witness :
  (processQueue Scenarios.two_waiting "LanguageModel" 9000).2
  = [mkQueuedRequest 3 5000]
  /\ queues (processQueue Scenarios.two_waiting "LanguageModel" 9000).1
       !! "LanguageModel"%string
     = Some [mkQueuedRequest 4 5000].
Proof.
  destruct (processQueue_starts_front Scenarios.two_waiting "LanguageModel"
              (mkPolicy 2 1000 30) 9000 eq_refl) as [Hstarted Hqueue].
  rewrite Hstarted, Hqueue. split; vm_compute; reflexivity.
Defined.

Lemma queueOf_getQueue st apiType other :
  default [] (queues (getQueue st apiType).1 !! other) = default [] (queues st !! other).
Proof.
  unfold getQueue. destruct (queues st !! apiType) eqn:Hq; [done |]. simpl.
  destruct (decide (apiType = other)) as [<- | Hne].
  - by rewrite lookup_insert_eq, Hq.
  - by rewrite lookup_insert_ne.
Qed.

Lemma processQueue_other st apiType now other :
  apiType <> other ->
  default [] (queues (processQueue st apiType now).1 !! other)
  = default [] (queues st !! other).
Proof.
  intros Hne. unfold processQueue.
  pose proof (queueOf_getQueue st apiType other) as Hget.
  destruct (getQueue st apiType) as [st1 queue]. simpl in Hget.
  destruct (configEntry apiType) as [p | |]; [| done | done].
  destruct queue as [| request queue]; [done |].
  pose proof (processQueue_loop_take apiType now
                (maxConcurrent p - activeCount st1 apiType) (request :: queue) 0 st1
                ltac:(lia)) as [_ Hqueues].
  destruct (processQueue_loop _ _ _ _ _ _) as [[st2 rest] started].
  simpl in *. by rewrite lookup_insert_ne, Hqueues.
Qed.

Lemma processQueue_unconfigured st apiType now :
  config !! apiType = None ->
  (processQueue st apiType now).2 = []
  /\ default [] (queues (processQueue st apiType now).1 !! apiType)
     = default [] (queues st !! apiType).
Proof.
  intros Hcfg. unfold processQueue.
  pose proof (queueOf_getQueue st apiType apiType) as Hget.
  destruct (getQueue st apiType) as [st1 queue]. simpl in Hget.
  rewrite (RateLimiterProps.configEntry_unconfigured _ Hcfg).
  by destruct (isInheritedName apiType).
Qed.

Lemma queueRequest_queue st apiType requestId now :
  config !! apiType = None ->
  (queueRequest st apiType requestId now).2 = []
  /\ default [] (queues (queueRequest st apiType requestId now).1 !! apiType)
     = default [] (queues st !! apiType) ++ [mkQueuedRequest requestId now].
Proof.
  intros Hcfg. unfold queueRequest.
  assert (Hget : (getQueue st apiType).2 = default [] (queues st !! apiType)).
  { unfold getQueue. by destruct (queues st !! apiType). }
  destruct (getQueue st apiType) as [st1 queue]. simpl in Hget. subst queue.
  destruct (processQueue_unconfigured
              (setQueue st1 apiType
                 (default [] (queues st !! apiType) ++ [mkQueuedRequest requestId now]))
              apiType now Hcfg) as [-> ->].
  split; [done |]. simpl. by rewrite lookup_insert_eq.
Qed.

Lemma queueRequest_other st apiType requestId now other :
  apiType <> other ->
  default [] (queues (queueRequest st apiType requestId now).1 !! other)
  = default [] (queues st !! other).
Proof.
  intros Hne. unfold queueRequest.
  pose proof (queueOf_getQueue st apiType other) as Hget.
  destruct (getQueue st apiType) as [st1 queue]. simpl in Hget.
  rewrite processQueue_other by done. simpl. by rewrite lookup_insert_ne.
Qed.

Lemma started_as_other apiType other x l :
  (other, x) ∈ started_as apiType l -> apiType = other.
Proof.
  unfold started_as. intros H. apply list_elem_of_fmap in H as (y & E & _).
  by inversion E.
Qed.

(** X9.  A request queued for a type without a configured policy is
    never run: [queueRequest] puts it into the queue of its type and
    starts nothing, and no operation of the limiter's queued path
    ([queueRequest], [processQueue], a completion, [cleanupHistory],
    [getStatus]) ever takes a request out of that queue or starts one
    of that type. *)
Theorem unconfigured_request_stays_queued sys sys' apiType :
  config !! apiType = None ->
  queueStep sys sys' ->
  (forall requestId now,
     (queueRequest (limiter sys) apiType requestId now).2 = []
     /\ mkQueuedRequest requestId now
          ∈ default [] (queues (queueRequest (limiter sys) apiType requestId now).1
                          !! apiType))
  /\ (forall x, x ∈ default [] (queues (limiter sys) !! apiType) ->
                x ∈ default [] (queues (limiter sys') !! apiType))
  /\ (forall x, (apiType, x) ∈ running sys' -> (apiType, x) ∈ running sys).
Proof.
  intros Hcfg Hstep. split.
  { intros requestId now.
    destruct (queueRequest_queue (limiter sys) apiType requestId now Hcfg) as [-> ->].
    split; [done |]. apply elem_of_app. right. left. }
  destruct Hstep as [sys other requestId now | sys other request before after Hrun
                    | sys other now | sys now | sys other]; cbn [limiter running].
  - destruct (decide (other = apiType)) as [-> | Hne].
    + destruct (queueRequest_queue (limiter sys) apiType requestId now Hcfg) as [-> ->].
      split.
      * intros x Hx. apply elem_of_app. by left.
      * intros x Hx. simpl in Hx. by rewrite app_nil_r in Hx.
    + rewrite queueRequest_other by done. split; [done |].
      intros x Hx. apply elem_of_app in Hx as [Hx | Hx]; [done |].
      by apply started_as_other in Hx.
  - split; [done |]. intros x Hx. rewrite Hrun.
    apply elem_of_app in Hx as [Hx | Hx]; apply elem_of_app; [by left |].
    right. by right.
  - destruct (decide (other = apiType)) as [-> | Hne].
    + destruct (processQueue_unconfigured (limiter sys) apiType now Hcfg) as [-> ->].
      split; [done |]. intros x Hx. simpl in Hx. by rewrite app_nil_r in Hx.
    + rewrite processQueue_other by done. split; [done |].
      intros x Hx. apply elem_of_app in Hx as [Hx | Hx]; [done |].
      by apply started_as_other in Hx.
  - split; done.
  - rewrite queueOf_getQueue. split; done.
Qed.

Lemma unconfigured_request_stays_queued_witness :
  (forall requestId now,
     (queueRequest (limiter initSystem) "unknown" requestId now).2 = []
     /\ mkQueuedRequest requestId now
          ∈ default [] (queues (queueRequest (limiter initSystem) "unknown" requestId now).1
                          !! "unknown"%string))
  /\ (forall x, x ∈ default [] (queues (limiter initSystem) !! "unknown"%string) ->
        x ∈ default []
              (queues (limiter
                 {| limiter := (processQueue (limiter initSystem) "unknown" 5000).1;
                    running := running initSystem ++
                      started_as "unknown"
                        (processQueue (limiter initSystem) "unknown" 5000).2 |})
               !! "unknown"%string))
  /\ (forall x,
        ("unknown"%string, x)
          ∈ running
              {| limiter := (processQueue (limiter initSystem) "unknown" 5000).1;
                 running := running initSystem ++
                   started_as "unknown"
                     (processQueue (limiter initSystem) "unknown" 5000).2 |} ->
        ("unknown"%string, x) ∈ running initSystem).
Proof.
  exact (unconfigured_request_stays_queued initSystem _ "unknown" eq_refl
           (step_processQueue initSystem "unknown" 5000)).
Defined.

End RateLimiterQueueProps.

(* ===================================================================== *)
(** * The performance monitor: history, statistics, listings *)
(* ===================================================================== *)

Module MonitorHistoryProps.
Import PerformanceMonitor.

Lemma length_sliceLast {A} (n : nat) (l : list A) :
  List.length (sliceLast n l)
  = match n with O => List.length l | _ => Nat.min n (List.length l) end.
Proof. unfold sliceLast. destruct n; [done |]. rewrite length_drop. lia. Qed.

Lemma sliceLast_drop {A} (n : nat) (l : list A) : exists k, sliceLast n l = drop k l.
Proof.
  unfold sliceLast. destruct n; [by exists O | by eexists].
Qed.

Lemma sliceLast_snoc {A} (n : nat) (l : list A) (x : A) :
  exists l', sliceLast n (l ++ [x]) = l' ++ [x].
Proof.
  unfold sliceLast. destruct n as [| n]; [by exists l |].
  rewrite length_app; simpl.
  replace (List.length l + 1 - S n)%nat with (List.length l - n)%nat by lia.
  rewrite drop_app_le by lia. by eexists.
Qed.

Lemma length_filter_drop {A} (P : A -> Prop) `{forall x, Decision (P x)}
    (l : list A) : forall k,
  (List.length (filter P (drop k l)) <= List.length (filter P l))%nat.
Proof.
  induction l as [| x l IH]; intros [| k]; simpl; try done.
  rewrite filter_cons. specialize (IH k). case_decide; simpl; lia.
Qed.

(** The history after [recordOperation]: the old history with the new
    record at its end, cut at the front. *)
Lemma recordOperation_history st operationName m now :
  exists k,
    operationHistory (recordOperation st operationName m now)
    = drop k (operationHistory st ++ [mkOperationRecord operationName m now])
    /\ ((0 < maxHistorySize st)%nat ->
        (List.length (operationHistory (recordOperation st operationName m now))
         <= maxHistorySize st)%nat).
Proof.
  unfold recordOperation, updateAggregatedMetrics. cbn [operationHistory].
  destruct (_ <? _)%nat eqn:Hlong;
    [apply Nat.ltb_lt in Hlong | apply Nat.ltb_ge in Hlong].
  - destruct (sliceLast_drop (maxHistorySize st)
                (operationHistory st ++ [mkOperationRecord operationName m now]))
      as [k Hk].
    exists k. split; [exact Hk |]. intros Hpos. rewrite length_sliceLast.
    destruct (maxHistorySize st); lia.
  - exists O. split; [done |]. intros _. exact Hlong.
Qed.

(** ** The sort of [getSlowestOperations] *)

Lemma insertByDuration_perm r l : insertByDuration r l ≡ₚ r :: l.
Proof.
  induction l as [| x l IH]; cbn [insertByDuration]; [done |].
  destruct (_ <? _); [done |]. rewrite IH. apply Permutation_swap.
Qed.

Lemma fold_insertByDuration_perm l : forall acc,
  fold_left (fun sorted r => insertByDuration r sorted) l acc ≡ₚ acc ++ l.
Proof.
  induction l as [| x l IH]; intros acc; cbn [fold_left].
  - by rewrite app_nil_r.
  - rewrite IH, insertByDuration_perm. cbn [app]. apply Permutation_middle.
Qed.

Lemma sortByDuration_perm l : sortByDuration l ≡ₚ l.
Proof. unfold sortByDuration. by rewrite fold_insertByDuration_perm. Qed.

Lemma Forall_insertByDuration (P : OperationRecord -> Prop) r l :
  P r -> Forall P l -> Forall P (insertByDuration r l).
Proof.
  intros Hr. induction 1 as [| x l Hx Hl IH]; cbn [insertByDuration].
  - by constructor.
  - destruct (_ <? _); repeat constructor; done.
Qed.

Lemma insertByDuration_sorted r l :
  longestFirst l -> longestFirst (insertByDuration r l).
Proof.
  unfold longestFirst. induction l as [| x l IH]; intros Hs; cbn [insertByDuration].
  - repeat constructor.
  - destruct (duration (recorded x) <? duration (recorded r)) eqn:Hlt;
      [apply Z.ltb_lt in Hlt | apply Z.ltb_ge in Hlt].
    + constructor; [exact Hs |].
      apply StronglySorted_inv in Hs as [_ Hx].
      constructor; [lia |]. eapply Forall_impl; [exact Hx |]. simpl. intros; lia.
    + apply StronglySorted_inv in Hs as [Hs Hx].
      constructor; [by apply IH |].
      by apply Forall_insertByDuration.
Qed.

Lemma sortByDuration_sorted l : longestFirst (sortByDuration l).
Proof.
  unfold sortByDuration.
  assert (H : forall acc, longestFirst acc ->
            longestFirst (fold_left (fun sorted r => insertByDuration r sorted) l acc)).
  { induction l as [| x l IH]; intros acc Hacc; cbn [fold_left]; [done |].
    apply IH. by apply insertByDuration_sorted. }
  apply H. constructor.
Qed.

Lemma sorted_suffix {A} (R : A -> A -> Prop) (l1 l2 : list A) :
  StronglySorted R (l1 ++ l2) -> StronglySorted R l2.
Proof.
  induction l1 as [| x l1 IH]; [done |]. cbn [app]. intros Hs.
  apply StronglySorted_inv in Hs as [Hs _]. by apply IH.
Qed.

Lemma sorted_snoc {A} (R : A -> A -> Prop) (l : list A) (x : A) :
  StronglySorted R l -> Forall (fun y => R y x) l -> StronglySorted R (l ++ [x]).
Proof.
  induction 1 as [| y l Hs IH Hy]; intros Hall; cbn [app].
  - repeat constructor.
  - apply Forall_cons in Hall as [Hyx Hall].
    constructor; [by apply IH |].
    apply Forall_app. split; [done |]. by repeat constructor.
Qed.

Lemma sorted_reverse {A} (R : A -> A -> Prop) (l : list A) :
  StronglySorted R l -> StronglySorted (fun a b => R b a) (reverse l).
Proof.
  induction 1 as [| y l Hs IH Hy]; [constructor |].
  rewrite reverse_cons. apply sorted_snoc; [done |].
  apply Forall_reverse. exact Hy.
Qed.

Lemma recordsOf_perm operationName l l' :
  l ≡ₚ l' ->
  List.length (recordsOf operationName l) = List.length (recordsOf operationName l').
Proof.
  unfold recordsOf.
  induction 1 as [| x l l' _ IH | x y l | l l' l'' _ IH1 _ IH2];
    rewrite ?filter_cons; repeat case_decide; simpl; congruence.
Qed.

(** ** Invariants of the monitor *)

Lemma consistent_update a m :
  a = freshAggregated \/ consistent a -> consistent (updateAggregated a m).
Proof.
  intros [-> | (Hcount & Hs & Hf & Hsum & shortest & Hmin & Hle & Hlo & Hhi)];
    unfold consistent, updateAggregated; cbn.
  - destruct (success m); (split; [lia |]); (split; [lia |]); (split; [lia |]);
      (split; [lia |]); exists (duration m); (split; [done |]); lia.
  - rewrite Hmin.
    assert (Hparts : 1 <= count a + 1
                     /\ 0 <= (if success m then successCount a + 1 else successCount a)
                     /\ 0 <= (if success m then failureCount a else failureCount a + 1)
                     /\ count a + 1
                        = (if success m then successCount a + 1 else successCount a)
                          + (if success m then failureCount a else failureCount a + 1))
      by (destruct (success m); lia).
    destruct Hparts as (H1 & H2 & H3 & H4).
    do 4 (split; [assumption |]).
    exists (Z.min shortest (duration m)). split; [done |]. nia.
Qed.

(** How the statistics and the history fit together. *)
Lemma monitor_invariant st :
  reachable st ->
  maxHistorySize st = 1000%nat
  /\ (List.length (operationHistory st) <= 1000)%nat
  /\ (forall operationName a, metrics st !! operationName = Some a -> consistent a)
  /\ (forall operationName,
        Z.of_nat (List.length (recordsOf operationName (operationHistory st)))
        <= count (default freshAggregated (metrics st !! operationName))).
Proof.
  induction 1 as [| st st' _ (Hmax & Hlen & Hcons & Hrec) Hstep].
  - split; [done |]. split; [simpl; lia |]. split; [| done].
    intros operationName a H. unfold init in H; cbn [metrics] in H.
    by rewrite lookup_empty in H.
  - destruct Hstep as [st operationName m now | st operationName startTime startMemory
                      | st operationName startTime | st limit | st].
    + destruct (recordOperation_history st operationName m now) as (k & Hk & Hbound).
      split; [done |]. split; [rewrite Hmax in Hbound; apply Hbound; lia |].
      split.
      * intros other a. unfold recordOperation, updateAggregatedMetrics.
        cbn [metrics]. destruct (decide (operationName = other)) as [<- | Hne].
        -- rewrite lookup_insert_eq. intros [= <-]. apply consistent_update.
           destruct (metrics st !! operationName) as [a0 |] eqn:Ha; simpl;
             [right; by eapply Hcons | by left].
        -- rewrite lookup_insert_ne by done. apply Hcons.
      * intros other. rewrite Hk.
        pose proof (length_filter_drop (fun op => name op = other)
                      (operationHistory st ++ [mkOperationRecord operationName m now]) k)
          as Hdrop.
        unfold recordsOf in *. rewrite filter_app, length_app in Hdrop.
        specialize (Hrec other).
        unfold recordOperation, updateAggregatedMetrics. cbn [metrics].
        destruct (decide (operationName = other)) as [<- | Hne].
        -- rewrite lookup_insert_eq.
           rewrite filter_cons, decide_True in Hdrop by done.
           simpl in Hdrop. simpl. lia.
        -- rewrite lookup_insert_ne by done.
           rewrite filter_cons, decide_False in Hdrop by done.
           simpl in Hdrop. lia.
    + done.
    + done.
    + split; [done |]. cbn [getSlowestOperations fst operationHistory metrics].
      split; [by rewrite sortByDuration_perm |]. split; [done |].
      intros operationName.
      rewrite (recordsOf_perm operationName _ _ (sortByDuration_perm _)). apply Hrec.
    + split; [done |]. split; [simpl; lia |]. split.
      * intros operationName a H. unfold clearMetrics in H; cbn [metrics] in H.
        by rewrite lookup_empty in H.
      * intros operationName. unfold clearMetrics; cbn [metrics operationHistory].
        rewrite lookup_empty. simpl. lia.
Qed.

(** X10.  However the monitor is used ([recordOperation], the
    active-operation table, [getSlowestOperations], [clearMetrics]),
    its history never holds more than 1000 records, and
    [maxHistorySize] stays 1000. *)
Theorem history_bounded st :
  reachable st ->
  (List.length (operationHistory st) <= 1000)%nat /\ maxHistorySize st = 1000%nat.
Proof. intros H. apply monitor_invariant in H as (? & ? & _). done. Qed.

Lemma history_bounded_witness :
  (List.length
     (operationHistory
        (recordOperation init "Writer_execute"
           (mkMetrics 12 0 true None 5000 []) 5012)) <= 1000)%nat
  /\ maxHistorySize
       (recordOperation init "Writer_execute" (mkMetrics 12 0 true None 5000 []) 5012)
     = 1000%nat.
Proof.
  apply (history_bounded
           (recordOperation init "Writer_execute" (mkMetrics 12 0 true None 5000 []) 5012)).
  eapply reachable_step; [apply reachable_init | apply step_recordOperation].
Defined.

(** X11.  In every state of the monitor the statistics of an operation
    name fit together: it has been counted at least once, [count] is
    [successCount + failureCount], [minDuration] is a number not above
    [maxDuration], [totalDuration] lies between [count * minDuration]
    and [count * maxDuration], and the history holds at most [count]
    records of that name. *)
Theorem stats_consistent st operationName a :
  reachable st ->
  metrics st !! operationName = Some a ->
  consistent a
  /\ Z.of_nat (List.length (recordsOf operationName (operationHistory st))) <= count a.
Proof.
  intros H Ha. apply monitor_invariant in H as (_ & _ & Hcons & Hrec).
  split; [by eapply Hcons |].
  specialize (Hrec operationName). by rewrite Ha in Hrec.
Qed.

Lemma stats_consistent_witness :
  consistent
    (updateAggregated freshAggregated (mkMetrics 12 0 false (Some "x") 5000 []))
  /\ Z.of_nat
       (List.length
          (recordsOf "Writer_execute"
             (operationHistory
                (recordOperation init "Writer_execute"
                   (mkMetrics 12 0 false (Some "x") 5000 []) 5012))))
     <= count (updateAggregated freshAggregated
                 (mkMetrics 12 0 false (Some "x") 5000 [])).
Proof.
  apply (stats_consistent
           (recordOperation init "Writer_execute"
              (mkMetrics 12 0 false (Some "x") 5000 []) 5012)
           "Writer_execute").
  - eapply reachable_step; [apply reachable_init | apply step_recordOperation].
  - vm_compute. reflexivity.
Defined.

End MonitorHistoryProps.

(* ===================================================================== *)
(** * The performance monitor: the listings *)
(* ===================================================================== *)

Module MonitorListingProps.
Import PerformanceMonitor.

(** X12.  [getSlowestOperations] returns the first [limit] entries of
    the history sorted by duration, longest first, and it leaves the
    monitor's own history in that order (same records, same
    statistics): after the call the history is no longer in the order
    of recording, and [getRecentOperations] lists operations by
    increasing duration. *)
Theorem getSlowestOperations_reorders_history st limit k :
  (getSlowestOperations st limit).2
    = take limit (operationHistory (getSlowestOperations st limit).1)
  /\ operationHistory (getSlowestOperations st limit).1 ≡ₚ operationHistory st
  /\ longestFirst (operationHistory (getSlowestOperations st limit).1)
  /\ metrics (getSlowestOperations st limit).1 = metrics st
  /\ StronglySorted (fun a b => duration (recorded a) <= duration (recorded b))
       (getRecentOperations (getSlowestOperations st limit).1 k).
Proof.
  cbn [getSlowestOperations fst snd operationHistory metrics].
  split; [done |].
  split; [apply MonitorHistoryProps.sortByDuration_perm |].
  split; [apply MonitorHistoryProps.sortByDuration_sorted |].
  split; [done |].
  unfold getRecentOperations. cbn [operationHistory].
  apply (MonitorHistoryProps.sorted_reverse
           (fun a b => duration (recorded b) <= duration (recorded a))).
  destruct (MonitorHistoryProps.sliceLast_drop k (sortByDuration (operationHistory st)))
    as [j ->].
  apply (MonitorHistoryProps.sorted_suffix _
           (take j (sortByDuration (operationHistory st)))).
  rewrite take_drop. apply MonitorHistoryProps.sortByDuration_sorted.
Qed.

Lemma fold_slowest rest : forall first,
  exists before after,
    first :: rest
    = before
      ++ fold_left
           (fun slowest current =>
              if duration (recorded slowest) <? duration (recorded current)
              then current else slowest)
           rest first
      :: after
    /\ Forall (fun x => duration (recorded x)
                        < duration (recorded
                            (fold_left
                               (fun slowest current =>
                                  if duration (recorded slowest)
                                     <? duration (recorded current)
                                  then current else slowest)
                               rest first)))
         before
    /\ Forall (fun x => duration (recorded x)
                        <= duration (recorded
                             (fold_left
                                (fun slowest current =>
                                   if duration (recorded slowest)
                                      <? duration (recorded current)
                                   then current else slowest)
                                rest first)))
         after.
Proof.
  induction rest as [| x rest IH]; intros first.
  - exists [], []. by repeat constructor.
  - cbn [fold_left].
    destruct (duration (recorded first) <? duration (recorded x)) eqn:Hlt;
      [apply Z.ltb_lt in Hlt | apply Z.ltb_ge in Hlt]; cbv iota.
    + destruct (IH x) as (before & after & Heq & Hbefore & Hafter).
      set (r := fold_left _ rest x) in *. clearbody r.
      exists (first :: before), after. split; [by rewrite Heq |].
      split; [| done]. constructor; [| done].
      destruct before as [| y before]; simpl in Heq; inversion Heq; subst.
      * lia.
      * apply Forall_cons in Hbefore as [Hy _]. lia.
    + destruct (IH first) as (before & after & Heq & Hbefore & Hafter).
      set (r := fold_left _ rest first) in *. clearbody r.
      destruct before as [| y before]; simpl in Heq; inversion Heq as [[Hr Hrest]];
        clear Heq.
      * subst r. exists [], (x :: after). split; [done |].
        split; [constructor |]. constructor; [lia | done].
      * subst y. apply Forall_cons in Hbefore as [Hy Hbefore].
        exists (first :: x :: before), after. split; [done |].
        split; [| done]. repeat constructor; [lia | lia | done].
Qed.

(** X13.  [getSlowestOperation] gives nothing exactly for an empty
    history; otherwise it gives a record of the history that no record
    exceeds in duration, and of several longest ones the earliest in
    the history. *)
Theorem getSlowestOperation_earliest_longest st :
  match getSlowestOperation st with
  | None => operationHistory st = []
  | Some r =>
      exists before after,
        operationHistory st = before ++ r :: after
        /\ Forall (fun x => duration (recorded x) < duration (recorded r)) before
        /\ Forall (fun x => duration (recorded x) <= duration (recorded r)) after
  end.
Proof.
  unfold getSlowestOperation.
  destruct (operationHistory st) as [| first rest]; [done |].
  apply fold_slowest.
Qed.

(** X14.  [getRecentOperations] lists the latest record first: right
    after [recordOperation] the new record heads the listing, whatever
    the limit; a positive limit bounds the length of the listing, and
    the limit 0 gives the whole history (it is [slice(-0)]). *)
Theorem recent_operations_latest_first st operationName m now limit :
  head (getRecentOperations (recordOperation st operationName m now) limit)
    = Some (mkOperationRecord operationName m now)
  /\ List.length (getRecentOperations st (S limit))
     = Nat.min (S limit) (List.length (operationHistory st))
  /\ getRecentOperations st 0 = reverse (operationHistory st).
Proof.
  unfold getRecentOperations. split; [| split; [| done]].
  - assert (Hlast : exists l', operationHistory (recordOperation st operationName m now)
                               = l' ++ [mkOperationRecord operationName m now]).
    { unfold recordOperation, updateAggregatedMetrics. cbn [operationHistory].
      destruct (_ <? _)%nat; [apply MonitorHistoryProps.sliceLast_snoc | by eexists]. }
    destruct Hlast as [l' ->].
    destruct (MonitorHistoryProps.sliceLast_snoc limit l'
                (mkOperationRecord operationName m now)) as [l'' ->].
    by rewrite reverse_snoc.
  - by rewrite length_reverse, MonitorHistoryProps.length_sliceLast.
Qed.

(** X15.  When a measured operation has settled, its entry is gone
    from the table of active operations, and the other entries are as
    the operation left them. *)
Theorem measure_removes_active_entry {A} operationName
    (fn : World -> World * Outcome A) opts clk w key :
  default ∅ (activeOperations (monitor (measureShared operationName fn opts clk w).1))
    !! key
  = if decide (key = activeKey operationName (dateStart clk)) then None
    else default ∅
           (activeOperations
              (monitor
                 (fn (setMonitor
                        (addActiveOperation (monitor w) operationName (dateStart clk)
                           (memActive clk)) w)).1))
           !! key.
Proof.
  unfold measureShared, measureOperation.
  destruct (fn _) as [w2 [v | [| | b | n Hn | s | e]]]; cbn [fst monitor setMonitor];
    unfold removeActiveOperation, recordOperation, updateAggregatedMetrics;
    cbn [activeOperations];
    (destruct (activeOperations (monitor w2)) as [table |]; cbn [fmap option_fmap option_map default];
     [case_decide; subst; [apply lookup_delete_eq | by apply lookup_delete_ne]
     | case_decide; apply lookup_empty]).
Qed.

End MonitorListingProps.

(* ===================================================================== *)
(** * The request queue: the drain loop and the history *)
(* ===================================================================== *)

Module QueueHistoryProps.
Import AIRequestQueue.

(** ** Counting records *)

Lemma occurrences_app s h1 h2 :
  occurrences s (h1 ++ h2) = occurrences s h1 + occurrences s h2.
Proof. unfold occurrences. rewrite filter_app, length_app. lia. Qed.

Lemma occurrences_one s x :
  occurrences s [x] = if decide (hStatus x = s) then 1 else 0.
Proof.
  unfold occurrences. rewrite filter_cons, filter_nil. by case_decide.
Qed.

Lemma occurrences_nonneg s h : 0 <= occurrences s h.
Proof. unfold occurrences. lia. Qed.

Lemma occurrences_length h :
  occurrences StCompleted h + occurrences StProcessing h <= Z.of_nat (List.length h).
Proof.
  unfold occurrences. induction h as [| x h IH]; [simpl; lia |].
  rewrite !filter_cons. repeat case_decide; simpl List.length; try lia.
  congruence.
Qed.

Lemma trimmed_drop max h : exists k, trimmed max h = drop k h.
Proof.
  unfold trimmed. destruct (_ <? _)%nat; [| by exists O].
  unfold PerformanceMonitor.sliceLast. destruct max; [by exists O | by eexists].
Qed.

Lemma cover_suffix a h k :
  attemptsCoverCompletions a h -> attemptsCoverCompletions a (drop k h).
Proof. intros H j. rewrite drop_drop. apply H. Qed.

Lemma cover_snoc a a' h x :
  attemptsCoverCompletions a h ->
  0 <= a' ->
  a + occurrences StCompleted [x] <= a' + occurrences StProcessing [x] ->
  attemptsCoverCompletions a' (h ++ [x]).
Proof.
  intros H Ha' Hx k.
  destruct (decide (k <= List.length h)%nat) as [Hk | Hk].
  - rewrite drop_app_le by done. rewrite !occurrences_app.
    specialize (H k). lia.
  - rewrite drop_ge by (rewrite length_app; simpl; lia).
    unfold occurrences. simpl. lia.
Qed.

Lemma cover_trimmed a a' h x :
  attemptsCoverCompletions a h ->
  0 <= a' ->
  a + occurrences StCompleted [x] <= a' + occurrences StProcessing [x] ->
  attemptsCoverCompletions a' (trimmed 500 (h ++ [x])).
Proof.
  intros H Ha' Hx. destruct (trimmed_drop 500 (h ++ [x])) as [k ->].
  apply cover_suffix. by eapply cover_snoc.
Qed.

Lemma shape_trimmed h x :
  startsQueuedOrFull h -> startsQueuedOrFull (trimmed 500 (h ++ [x])).
Proof.
  unfold startsQueuedOrFull, trimmed. rewrite length_app. simpl List.length.
  intros Hshape.
  destruct (500 <? List.length h + 1)%nat eqn:Hlong;
    [apply Nat.ltb_lt in Hlong | apply Nat.ltb_ge in Hlong].
  - left. unfold PerformanceMonitor.sliceLast. rewrite length_drop, length_app.
    simpl. destruct Hshape as [Hfull | [Hle _]]; lia.
  - right. rewrite length_app. simpl. split; [lia |].
    destruct Hshape as [Hfull | [_ (first & rest & -> & Hq)]]; [lia |].
    by exists first, (rest ++ [x]).
Qed.

Lemma shape_first x :
  hStatus x = StQueued -> startsQueuedOrFull (trimmed 500 ([] ++ [x])).
Proof.
  intros Hq. right. unfold trimmed. simpl. split; [lia |]. by exists x, [].
Qed.

(** ** What each operation does to the loop and to the history *)

Lemma recordRequest_effect st request s now :
  exists x,
    requestHistory (recordRequest st request s now)
    = trimmed (maxHistorySize st) (requestHistory st ++ [x])
    /\ hStatus x = s.
Proof. eexists. split; reflexivity. Qed.

Lemma takeNext_effect st now :
  (queue st = []
   /\ requestHistory (takeNext st now) = requestHistory st
   /\ loop (takeNext st now) = Idle
   /\ processing (takeNext st now) = false
   /\ queue (takeNext st now) = []
   /\ timers (takeNext st now) = timers st
   /\ maxHistorySize (takeNext st now) = maxHistorySize st)
  \/ (exists x request',
        requestHistory (takeNext st now)
        = trimmed (maxHistorySize st) (requestHistory st ++ [x])
        /\ hStatus x = StProcessing
        /\ loop (takeNext st now) = AwaitingExecute request'
        /\ processing (takeNext st now) = true
        /\ timers (takeNext st now) = timers st
        /\ maxHistorySize (takeNext st now) = maxHistorySize st).
Proof.
  unfold takeNext. destruct (queue st) as [| request rest].
  - left. repeat split.
  - right. eexists _, _. repeat split.
Qed.

Lemma settle_history w st request clk now :
  exists x,
    requestHistory (executeRequest_settle w st request clk now).2
    = trimmed (maxHistorySize st) (requestHistory st ++ [x])
    /\ (hStatus x = StCompleted \/ hStatus x = StFailed)
    /\ loop (executeRequest_settle w st request clk now).2 = loop st
    /\ processing (executeRequest_settle w st request clk now).2 = processing st
    /\ queue (executeRequest_settle w st request clk now).2 = queue st
    /\ maxHistorySize (executeRequest_settle w st request clk now).2 = maxHistorySize st
    /\ (timers st <> [] -> timers (executeRequest_settle w st request clk now).2 <> []).
Proof.
  unfold executeRequest_settle.
  destruct (measureShared _ _ _ _ _) as [w' [result | error]]; cbn [snd].
  - eexists. split; [reflexivity |]. split; [by left |]. repeat split. done.
  - destruct (_ <? _); (eexists; split; [reflexivity |]; split; [by right |]);
      repeat split; cbn [timers update recordRequest]; try done.
    intros Hne Happ. by apply app_eq_nil in Happ as [? _].
Qed.

Lemma afterExecute_effect st :
  requestHistory (afterExecute st) = requestHistory st
  /\ maxHistorySize (afterExecute st) = maxHistorySize st
  /\ timers (afterExecute st) = timers st
  /\ ((queue st = [] /\ loop (afterExecute st) = Idle
       /\ processing (afterExecute st) = false /\ queue (afterExecute st) = [])
      \/ (loop (afterExecute st) = Sleeping
          /\ processing (afterExecute st) = processing st)).
Proof.
  unfold afterExecute. destruct (queue st) eqn:Hq.
  - repeat split. left. repeat split.
  - repeat split. right. repeat split.
Qed.

(** ** The invariant *)

Lemma takeNext_invariant st now :
  maxHistorySize st = 500%nat ->
  attemptsCoverCompletions 1 (requestHistory st) ->
  startsQueuedOrFull (requestHistory st) ->
  loopConsistent (takeNext st now) /\ historyInvariant (takeNext st now).
Proof.
  intros Hmax Hcover Hshape. unfold loopConsistent, historyInvariant.
  destruct (takeNext_effect st now)
    as [(_ & -> & -> & -> & -> & _ & ->)
       | (x & request' & -> & Hx & -> & -> & _ & ->)]; rewrite Hmax.
  - repeat split; try done. by right.
  - split; [done |]. split; [done |]. split.
    + apply (cover_trimmed 1); [done | done |].
      rewrite !occurrences_one, Hx. simpl. lia.
    + right. by apply shape_trimmed.
Qed.

Lemma loop_processing st :
  loopConsistent st ->
  (processing st = false -> loop st = Idle)
  /\ (processing st = true -> loop st <> Idle).
Proof.
  unfold loopConsistent. destruct (loop st); intros H; split; intros Hp; try done.
  - destruct H; congruence.
  - congruence.
  - congruence.
Qed.

Lemma slackOf_range l : 0 <= slackOf l <= 1.
Proof. destruct l; simpl; lia. Qed.

Lemma shape_after st x :
  historyInvariant st ->
  (requestHistory st = [] -> hStatus x = StQueued) ->
  startsQueuedOrFull (trimmed 500 (requestHistory st ++ [x])).
Proof.
  intros (_ & _ & [(Hempty & _ & _) | Hshape]) Hx.
  - rewrite Hempty. apply shape_first. by apply Hx.
  - by apply shape_trimmed.
Qed.

Lemma step_invariant s s' :
  step s s' ->
  loopConsistent s.2 /\ historyInvariant s.2 ->
  loopConsistent s'.2 /\ historyInvariant s'.2.
Proof.
  intros Hstep [Hloop Hhist].
  pose proof Hhist as (Hmax & Hcover & Hcases).
  pose proof (loop_processing _ Hloop) as [Hidle Hbusy].
  pose proof (slackOf_range (loop s.2)) as Hslack.
  destruct Hstep as [w st engine fn options newId now | w st request clk now Hawait
                    | w st now Hsleep | w st k entry now Htimer]; cbn [snd] in *.
  - (* add *)
    unfold add.
    set (request := newRequest st fn options newId now).
    set (st1 := update st _ _ _ _ _ _).
    destruct (recordRequest_effect st1 request StQueued now) as (x & Hh & Hx).
    change (maxHistorySize st1) with (maxHistorySize st) in Hh.
    change (requestHistory st1) with (requestHistory st) in Hh.
    rewrite Hmax in Hh.
    set (st2 := recordRequest st1 request StQueued now) in *.
    assert (Hcover2 : attemptsCoverCompletions (slackOf (loop st)) (requestHistory st2)).
    { rewrite Hh. apply (cover_trimmed (slackOf (loop st))); [done | lia |].
      rewrite !occurrences_one, Hx. simpl. lia. }
    assert (Hshape2 : startsQueuedOrFull (requestHistory st2)).
    { rewrite Hh. by apply shape_after. }
    destruct (processing st) eqn:Hp.
    + change (processing st2) with true. cbn [negb]. split.
      * unfold loopConsistent. change (loop st2) with (loop st).
        change (processing st2) with true.
        specialize (Hbusy eq_refl). by destruct (loop st).
      * split; [exact Hmax |]. split; [exact Hcover2 | by right].
    + change (processing st2) with false. cbn [negb].
      unfold process. change (processing st2) with false.
      cbn [orb]. rewrite bool_decide_eq_false_2
        by (change (queue st2) with (sortByPriority engine (queue st ++ [request]));
            apply RetryProps.sortByPriority_nonempty).
      apply takeNext_invariant; [exact Hmax | | exact Hshape2].
      rewrite (Hidle eq_refl) in Hcover2. exact Hcover2.
  - (* workDone *)
    unfold workDone. rewrite Hawait.
    destruct (settle_history w st request clk now)
      as (x & Hh & Hx & Hl & Hp & Hq & Hm & _).
    destruct (executeRequest_settle w st request clk now) as [w' st'].
    cbn [snd] in *.
    destruct (afterExecute_effect st') as (Hh' & Hm' & _ & Hafter).
    assert (Hp' : processing st' = true).
    { rewrite Hp. destruct (processing st) eqn:E; [done |].
      specialize (Hidle eq_refl). congruence. }
    assert (Hcover' : attemptsCoverCompletions 1 (requestHistory (afterExecute st'))).
    { rewrite Hh', Hh, Hmax. rewrite Hawait in Hcover.
      apply (cover_trimmed 0); [exact Hcover | lia |].
      rewrite !occurrences_one. destruct Hx as [-> | ->]; simpl; lia. }
    assert (Hshape' : startsQueuedOrFull (requestHistory (afterExecute st'))).
    { rewrite Hh', Hh, Hmax. apply shape_after; [done |].
      intros Hempty. destruct Hcases as [(_ & Hi & _) | Hs]; [congruence |].
      rewrite Hempty in Hs. destruct Hs as [Hs | [_ (? & ? & Hs & _)]]; done. }
    unfold loopConsistent, historyInvariant. rewrite Hm', Hm.
    destruct Hafter as [(_ & -> & -> & ->) | (-> & ->)].
    + repeat split; try done. by right.
    + repeat split; try done. by right.
  - (* sleepDone *)
    unfold sleepDone. rewrite Hsleep. rewrite Hsleep in Hcover.
    apply takeNext_invariant; [done | done |].
    destruct Hcases as [(_ & Hi & _) | Hs]; [congruence | done].
  - (* timerFire *)
    unfold timerFire. rewrite Htimer. destruct entry as [delayMs request].
    set (st1 := update st _ _ _ _ _ _).
    assert (Hshape : startsQueuedOrFull (requestHistory st)).
    { destruct Hcases as [(_ & _ & Ht) | Hs]; [| done].
      rewrite Ht in Htimer. by rewrite lookup_nil in Htimer. }
    unfold process.
    destruct (processing st) eqn:Hp.
    + change (processing st1) with true. cbn [orb]. split.
      * unfold loopConsistent. change (loop st1) with (loop st).
        change (processing st1) with true.
        specialize (Hbusy eq_refl). by destruct (loop st).
      * split; [exact Hmax |]. split; [exact Hcover | by right].
    + change (processing st1) with false. cbn [orb].
      rewrite bool_decide_eq_false_2 by done.
      apply takeNext_invariant; [exact Hmax | | exact Hshape].
      change (requestHistory st1) with (requestHistory st).
      rewrite (Hidle eq_refl) in Hcover. exact Hcover.
Qed.

Lemma reachable_invariant s :
  reachable s -> loopConsistent s.2 /\ historyInvariant s.2.
Proof.
  induction 1 as [w | s s' _ IH Hstep].
  - split; [by split |]. split; [done |]. split.
    + intros k. cbn [snd]. change (requestHistory init) with (@nil HistoryRecord).
      rewrite drop_nil. unfold occurrences. simpl. lia.
    + by left.
  - by eapply step_invariant.
Qed.

(** X16.  In every state of the queue the [processing] flag says
    whether a drain loop is running, and a request never waits in the
    queue without a running loop that will take it. *)
Theorem queued_requests_have_a_loop w st :
  reachable (w, st) ->
  (processing st = false <-> loop st = Idle)
  /\ (queue st <> [] -> processing st = true /\ loop st <> Idle).
Proof.
  intros H. apply reachable_invariant in H as [Hloop _]. cbn [snd] in Hloop.
  unfold loopConsistent in Hloop.
  destruct (loop st); [destruct Hloop as [Hp Hq] | |]; split;
    try (split; congruence); try (intros; split; congruence).
Qed.

Lemma queued_requests_have_a_loop_witness :
  (processing Scenarios.oneSuccess.2 = false <-> loop Scenarios.oneSuccess.2 = Idle)
  /\ (queue Scenarios.oneSuccess.2 <> [] ->
      processing Scenarios.oneSuccess.2 = true /\ loop Scenarios.oneSuccess.2 <> Idle).
Proof.
  apply (queued_requests_have_a_loop Scenarios.oneSuccess.1 Scenarios.oneSuccess.2).
  rewrite <- surjective_pairing.
  eapply reachable_step;
    [eapply reachable_step; [apply reachable_init | apply step_add] |].
  apply QueueProps.can_workDone. vm_compute. by eexists.
Defined.

(** X17.  The history of the queue never holds more than 500 records. *)
Theorem request_history_bounded w st :
  reachable (w, st) ->
  (List.length (requestHistory st) <= 500)%nat /\ maxHistorySize st = 500%nat.
Proof.
  intros H. apply reachable_invariant in H as [_ (Hmax & _ & Hcases)].
  cbn [snd] in *. split; [| exact Hmax].
  destruct Hcases as [(-> & _ & _) | [Hfull | [Hle _]]]; simpl; lia.
Qed.

Lemma request_history_bounded_witness :
  (List.length (requestHistory Scenarios.oneSuccess.2) <= 500)%nat
  /\ maxHistorySize Scenarios.oneSuccess.2 = 500%nat.
Proof.
  apply (request_history_bounded Scenarios.oneSuccess.1 Scenarios.oneSuccess.2).
  rewrite <- surjective_pairing.
  eapply reachable_step;
    [eapply reachable_step; [apply reachable_init | apply step_add] |].
  apply QueueProps.can_workDone. vm_compute. by eexists.
Defined.

(** X18.  In every state of the queue (reached without
    [clearHistory]) at most half of the history records have the status
    completed: each completion follows the attempt record of its
    execution, and the history starts with a queued record until it is
    full.  (The success rate that [getSuccessRate] computes from these
    two numbers is therefore never above 50 per cent.) *)
Theorem completed_at_most_half w st :
  reachable (w, st) ->
  (2 * List.length (getRequestsByStatus st StCompleted)
   <= List.length (requestHistory st))%nat.
Proof.
  intros H. apply reachable_invariant in H as [_ (Hmax & Hcover & Hcases)].
  cbn [snd] in *.
  pose proof (Hcover O) as H0. rewrite drop_0 in H0.
  pose proof (slackOf_range (loop st)) as Hslack.
  pose proof (occurrences_length (requestHistory st)) as Hlen.
  pose proof (occurrences_nonneg StProcessing (requestHistory st)) as Hnn.
  assert (Hc : occurrences StCompleted (requestHistory st)
               = Z.of_nat (List.length (getRequestsByStatus st StCompleted)))
    by reflexivity.
  destruct Hcases as [(Hempty & _ & _) | [Hfull | [Hle (first & rest & Heq & Hq)]]].
  - unfold getRequestsByStatus. rewrite Hempty. simpl. lia.
  - lia.
  - pose proof (occurrences_length rest) as Hrest.
    assert (Hfirst : forall s, s <> StQueued ->
              occurrences s (requestHistory st) = occurrences s rest).
    { intros s Hs. rewrite Heq. unfold occurrences.
      rewrite filter_cons, decide_False by congruence. done. }
    rewrite !Hfirst in * by done.
    rewrite Heq. simpl List.length. lia.
Qed.

Lemma completed_at_most_half_witness :
  (2 * List.length (getRequestsByStatus Scenarios.oneSuccess.2 StCompleted)
   <= List.length (requestHistory Scenarios.oneSuccess.2))%nat.
Proof.
  apply (completed_at_most_half Scenarios.oneSuccess.1 Scenarios.oneSuccess.2).
  rewrite <- surjective_pairing.
  eapply reachable_step;
    [eapply reachable_step; [apply reachable_init | apply step_add] |].
  apply QueueProps.can_workDone. vm_compute. by eexists.
Defined.

(** X22.  No request runs beyond its attempt budget, whatever else is
    in the queue: in every state of the queue the execution that is
    awaited is attempt number 1 or one within [maxRetries], a request
    waiting for its retry timer has failed at least once and has
    attempts left, and a queued request is new or has attempts left. *)
Theorem attempts_within_budget w st :
  reachable (w, st) ->
  (forall request, loop st = AwaitingExecute request ->
     1 <= attempts request <= Z.max 1 (maxRetries request))
  /\ Forall (fun entry => 1 <= attempts entry.2 < maxRetries entry.2) (timers st)
  /\ Forall (fun request => 0 <= attempts request < Z.max 1 (maxRetries request))
       (queue st).
Proof.
  intros H. apply RetryProps.reachable_withinBudget in H as (Hq & Ht & Ha).
  cbn [snd] in *. split; [| split; [exact Ht |]].
  - intros request Hl. specialize (Ha request Hl). lia.
  - eapply Forall_impl; [exact Hq |]. cbv beta. intros request Hr. lia.
Qed.

Lemma attempts_within_budget_witness :
  (forall request, loop Scenarios.oneSuccess.2 = AwaitingExecute request ->
     1 <= attempts request <= Z.max 1 (maxRetries request))
  /\ Forall (fun entry => 1 <= attempts entry.2 < maxRetries entry.2)
       (timers Scenarios.oneSuccess.2)
  /\ Forall (fun request => 0 <= attempts request < Z.max 1 (maxRetries request))
       (queue Scenarios.oneSuccess.2).
Proof.
  apply (attempts_within_budget Scenarios.oneSuccess.1 Scenarios.oneSuccess.2).
  rewrite <- surjective_pairing.
  eapply reachable_step;
    [eapply reachable_step; [apply reachable_init | apply step_add] |].
  apply QueueProps.can_workDone. vm_compute. by eexists.
Defined.

End QueueHistoryProps.

(* ===================================================================== *)
(** * The session manager: errors and cleanup *)
(* ===================================================================== *)

Module SessionManagerProps.
Import AIRequestQueue AIService.

(** X19.  When [createSession] fails it leaves the session manager as
    it was, and the error it reports is the one of the first
    [create] call (the error of the fallback call is dropped), or
    "Unknown API type" for a type outside the six provider APIs, in
    which case no provider is called. *)
Theorem createSession_reports_primary_error apiType primary hasFallback fallback w reason :
  (createSession apiType primary hasFallback fallback w).2 = Rejected reason ->
  (createSession apiType primary hasFallback fallback w).1 = w
  /\ ((isKnownApi apiType = true /\ primary = CreateFails reason
       /\ (hasFallback = true -> exists e, fallback = CreateFails e))
      \/ (isKnownApi apiType = false
          /\ reason = JsError (ErrPlain (String.append "Unknown API type: " apiType)))).
Proof.
  unfold createSession, tryCreate.
  destruct (isKnownApi apiType); [| intros [= <-]; split; [done | by right]].
  destruct primary as [session | e]; [discriminate |].
  destruct hasFallback; [destruct fallback as [session | e']; [discriminate |] |];
    intros [= <-]; (split; [done |]); left; repeat split; eauto; discriminate.
Qed.

Lemma createSession_reports_primary_error_witness :
  (createSession "Summarizer" (CreateFails (JsError (ErrPlain "model not downloaded")))
     true (CreateFails (JsError (ErrPlain "bad options"))) initWorld).1 = initWorld
  /\ ((isKnownApi "Summarizer" = true
       /\ CreateFails (JsError (ErrPlain "model not downloaded"))
          = CreateFails (JsError (ErrPlain "model not downloaded"))
       /\ (true = true ->
           exists e, CreateFails (JsError (ErrPlain "bad options")) = CreateFails e))
      \/ (isKnownApi "Summarizer" = false
          /\ JsError (ErrPlain "model not downloaded")
             = JsError (ErrPlain (String.append "Unknown API type: " "Summarizer")))).
Proof.
  exact (createSession_reports_primary_error "Summarizer"
           (CreateFails (JsError (ErrPlain "model not downloaded"))) true
           (CreateFails (JsError (ErrPlain "bad options"))) initWorld
           (JsError (ErrPlain "model not downloaded")) eq_refl).
Defined.

(** X20.  The request function of [withAISession] never rejects with
    an error that is not classified: whatever fails (the creation of
    the session or the callback), the rejection reason is an
    [EnhancedError]. *)
Theorem request_fn_rejects_classified apiType env w elapsed reason :
  (sessionRequestFn apiType env w).2 = Settles elapsed (Rejected reason) ->
  isEnhanced reason = true.
Proof.
  unfold sessionRequestFn.
  destruct (measureShared _ _ _ _ w) as [w1 [session | e]]; cbn [snd];
    [| by intros [= _ <-]].
  destruct (match session with
            | Some created => envCallback env created
            | None => envCallbackUndefined env
            end) as [t out |]; [| discriminate].
  destruct (measureShared _ (fun w0 => (w0, out)) _ _ w1) as [w2 [v | e]];
    destruct session as [created |];
    try destruct (measureShared _ (destroySession created) _ _ w2) as [w3 r];
    cbn [snd]; try discriminate; by intros [= _ <-].
Qed.

Lemma request_fn_rejects_classified_witness :
  isEnhanced
    (JsError (ErrEnhanced (newEnhancedError "Operation timed out" (Some TIMEOUT))))
  = true.
Proof.
  apply (request_fn_rejects_classified "Summarizer"
           (Scenarios.failingEnv "Operation timed out" 1) initWorld 60).
  vm_compute. reflexivity.
Defined.

(** ** [destroyAllSessions] *)

Lemma destroy_each_effect behaviourOf (l : list nat) : forall w,
  NoDup l ->
  let w' := foldl (fun w0 sid => (destroySession (mkSession sid (behaviourOf sid)) w0).1)
              w l in
  monitor w' = monitor w /\ rateLimiter w' = rateLimiter w
  /\ forall sid, releases sid (trace w')
                 = (releases sid (trace w) + if decide (sid ∈ l) then 1 else 0)%nat.
Proof.
  induction l as [| x l IH]; intros w Hnd; cbv zeta; cbn [foldl].
  - repeat split. intros sid. rewrite decide_False by apply not_elem_of_nil. lia.
  - apply NoDup_cons in Hnd as [Hx Hnd].
    destruct (IH (destroySession (mkSession x (behaviourOf x)) w).1 Hnd)
      as (Hm & Hr & Hrel).
    destruct (ServiceProps.destroySession_effect (mkSession x (behaviourOf x)) w)
      as (Hr1 & Ht1 & _).
    assert (Hm1 : monitor (destroySession (mkSession x (behaviourOf x)) w).1 = monitor w).
    { unfold destroySession. by destruct (destroyBehaviour _). }
    split; [by rewrite Hm, Hm1 |]. split; [by rewrite Hr, Hr1 |].
    intros sid. rewrite Hrel, Ht1, ServiceProps.releases_app,
      ServiceProps.releases_releaseTrace. cbn [sessionId].
    destruct (decide (sid = x)) as [-> | Hne].
    + rewrite decide_False by done. rewrite decide_True by left. lia.
    + destruct (decide (sid ∈ l)) as [Hin | Hnin].
      * rewrite decide_True by (by right). lia.
      * rewrite decide_False; [lia |].
        intros Hin. apply elem_of_cons in Hin as [? | ?]; done.
Qed.

(** X21.  [destroyAllSessions] hands every tracked session to
    [destroySession] exactly once and no other session at all, and it
    leaves [activeSessions] empty, also for the sessions whose
    [destroy()] throws; so the count that [cleanup] logs afterwards is
    always 0.  The monitor and the rate limiter are not touched. *)
Theorem cleanup_forgets_every_session behaviourOf w :
  (cleanup behaviourOf w).2 = 0%nat
  /\ activeSessions (cleanup behaviourOf w).1 = ∅
  /\ (forall sid,
        releases sid (trace (cleanup behaviourOf w).1)
        = (releases sid (trace w) + if decide (sid ∈ activeSessions w) then 1 else 0)%nat)
  /\ monitor (cleanup behaviourOf w).1 = monitor w
  /\ rateLimiter (cleanup behaviourOf w).1 = rateLimiter w.
Proof.
  unfold cleanup, destroyAllSessions, getSessionCount.
  cbn [fst snd activeSessions trace monitor rateLimiter].
  destruct (destroy_each_effect behaviourOf (elements (activeSessions w)) w
              (NoDup_elements _)) as (Hm & Hr & Hrel).
  split; [apply size_empty |]. split; [done |].
  split; [| by split].
  intros sid. rewrite Hrel.
  destruct (decide (sid ∈ elements (activeSessions w))) as [Hin | Hnin].
  - rewrite decide_True; [done |]. by apply elem_of_elements.
  - rewrite decide_False; [done |]. intros Hin. apply Hnin. by apply elem_of_elements.
Qed.

(** ** The rate limiter as [withAISession] uses it *)

Lemma config_minInterval apiType cfg :
  RateLimiter.config !! apiType = Some cfg -> RateLimiter.minInterval cfg <= 2000.
Proof.
  intros H. unfold RateLimiter.config in H.
  apply elem_of_list_to_map_2 in H.
  repeat (apply elem_of_cons in H as [H | H];
          [inversion H; subst; simpl; lia |]).
  by apply elem_of_nil in H.
Qed.

Lemma sessionRequestFn_rateLimiter apiType env w :
  rateLimiter (sessionRequestFn apiType env w).1 = rateLimiter w.
Proof.
  unfold sessionRequestFn.
  pose proof (ServiceProps.measureShared_frame (String.append apiType "_createSession")
                (createSession apiType (envPrimary env) (envHasFallback env)
                   (envFallback env)) [] (envClockCreate env) w) as Hm.
  cbv zeta in Hm. destruct Hm as (_ & Hrl & _ & _).
  rewrite (proj1 (ServiceProps.createSession_effect _ _ _ _ _)) in Hrl.
  cbn [rateLimiter setMonitor] in Hrl.
  destruct (measureShared (String.append apiType "_createSession") _ _ _ w)
    as [w1 [session | e]]; cbn [fst] in *; [| done].
  destruct (match session with
            | Some created => envCallback env created
            | None => envCallbackUndefined env
            end) as [elapsed out |]; [| done].
  pose proof (ServiceProps.measureShared_frame (String.append apiType "_execute")
                (fun w0 => (w0, out)) [] (envClockExecute env) w1) as Hm2.
  cbv zeta in Hm2. destruct Hm2 as (_ & Hrl2 & _ & _).
  destruct (measureShared (String.append apiType "_execute") _ _ _ w1) as [w2 result].
  cbn [fst rateLimiter setMonitor] in Hrl2.
  destruct session as [created |]; [| cbn [fst]; congruence].
  pose proof (ServiceProps.measureShared_frame (String.append apiType "_destroySession")
                (destroySession created) [] (envClockDestroy env) w2) as Hm3.
  cbv zeta in Hm3. destruct Hm3 as (_ & Hrl3 & _ & _).
  rewrite (proj1 (ServiceProps.destroySession_effect _ _)) in Hrl3.
  cbn [rateLimiter setMonitor] in Hrl3.
  destruct (measureShared (String.append apiType "_destroySession") _ _ _ w2)
    as [w3 destroyed].
  cbn [fst] in *. congruence.
Qed.

(** X23.  The rate limiter never delays [withAISession]: the limiter
    of the service starts empty, a call of the request function leaves
    it empty (hanging callbacks included), and on an empty limiter
    [canMakeRequest] holds for every API type at every clock reading
    from 2000 ms on, so the request function does not sleep. *)
Theorem rate_limiter_never_delays apiType env w now :
  rateLimiter w = RateLimiter.init ->
  2000 <= now ->
  rateLimiter (sessionRequestFn apiType env w).1 = RateLimiter.init
  /\ RateLimiter.canMakeRequest (rateLimiter w) apiType now = true
  /\ rateLimitWait w apiType now = 0.
Proof.
  intros Hinit Hnow. split; [by rewrite sessionRequestFn_rateLimiter |].
  assert (Hcan : RateLimiter.canMakeRequest (rateLimiter w) apiType now = true).
  { rewrite Hinit. unfold RateLimiter.canMakeRequest.
    destruct (RateLimiter.configEntry apiType) as [cfg | |] eqn:Hentry;
      [| done | done].
    apply RateLimiterProps.configEntry_inv in Hentry as Hcfg.
    pose proof (RateLimiterProps.config_bounds _ _ Hcfg) as (Hc & Hpm & _).
    pose proof (config_minInterval _ _ Hcfg) as Hmin.
    change (RateLimiter.activeCount RateLimiter.init apiType) with 0.
    change (RateLimiter.lastRequest RateLimiter.init apiType) with 0.
    change (RateLimiter.historyOf RateLimiter.init apiType) with (@nil Z).
    destruct (_ <=? 0) eqn:H1; [apply Z.leb_le in H1; lia |].
    destruct (now - 0 <? _) eqn:H2; [apply Z.ltb_lt in H2; lia |].
    unfold RateLimiter.recentRequests. cbv zeta. rewrite filter_nil.
    cbn [List.length]. change (Z.of_nat 0) with 0.
    destruct (RateLimiter.maxPerMinute cfg <=? 0) eqn:H3;
      [apply Z.leb_le in H3; lia | done]. }
  split; [exact Hcan |]. unfold rateLimitWait. by rewrite Hcan.
Qed.

Lemma rate_limiter_never_delays_witness :
  rateLimiter (sessionRequestFn "Rewriter" (Scenarios.succeedingEnv "ok" 1) initWorld).1
    = RateLimiter.init
  /\ RateLimiter.canMakeRequest (rateLimiter initWorld) "Rewriter" 1700000001000 = true
  /\ rateLimitWait initWorld "Rewriter" 1700000001000 = 0.
Proof.
  apply (rate_limiter_never_delays "Rewriter" (Scenarios.succeedingEnv "ok" 1) initWorld
           1700000001000).
  - reflexivity.
  - lia.
Defined.

End SessionManagerProps.
